(** * tuple_vector: a structure-of-arrays container

    Shallow embedding of [std_tuple_vector] (the STL flavoured variant of
    EASTL's bonus [tuple_vector]): the layout calculator [TupleRecurser],
    the column leaf [TupleVecLeaf], the random access iterator
    [TupleVecIter] and the storage engine [TupleVecImpl].

    Conventions of the embedding.
    - [std::size_t] is a 64-bit unsigned integer: a [Z] that is reduced
      with [wrap] after every arithmetic operation of the source.
    - The columns are regions of one shared allocation.  A region is kept
      as the list of its object slots next to the leaf pointer that
      addresses it; a [T*] into the region is the element index (a [Z])
      relative to the leaf pointer.  That the regions of one block do not
      overlap is what the layout calculator is proved to guarantee.
      Touching a slot outside the region is undefined behaviour in the
      source; here such a read yields [Raw] and such a write is dropped.
    - An object slot is raw storage, a live object, or a moved-from
      object; the element types are taken to be value types whose move
      assignment tolerates self-assignment.
    - The allocator is the template parameter [Allocator]: a type class
      whose [allocate] may throw [std::bad_alloc] (→ [None]).
    - An exception leaves the operation through [Threw], which carries the
      state of the heap and of the container at the throw. *)

From Stdlib Require Import ZArith Lia List Bool.
From stdpp Require Import base list.

Local Open Scope Z_scope.

(* ===================================================================== *)
(** ** std::size_t *)
(* ===================================================================== *)

Definition size_type := Z.

Definition SIZE_MAX_plus_1 : Z := 2 ^ 64.

(** Reduction modulo 2^64, applied wherever the source computes in
    [std::size_t] (or in [uintptr_t]). *)
Definition wrap (x : Z) : size_type := x mod SIZE_MAX_plus_1.

(** Type invariant of a [std::size_t] value. *)
Definition is_size_t (x : Z) : Prop := 0 <= x < SIZE_MAX_plus_1.

(* ===================================================================== *)
(** ** Column types and the layout calculator (TupleRecurser) *)
(* ===================================================================== *)

(** What the layout calculator reads of a column type [T]. *)
Record ColType := { sizeof : Z; alignof : Z }.

(** [alignof(T)] is a power of two that fits a [std::size_t]. *)
Definition is_alignment (a : Z) : Prop := exists k, 0 <= k < 64 /\ a = 2 ^ k.

Definition well_formed_type (T : ColType) : Prop :=
  is_alignment (alignof T) /\ 0 < sizeof T.

(** [(offset + alignof(T) - 1) & (~alignof(T) + 1)] *)
Definition CalculatAllocationOffset (T : ColType) (offset : size_type) : size_type :=
  Z.land (wrap (wrap (offset + alignof T) - 1))
         (wrap (wrap (Z.lnot (alignof T)) + 1)).

(** [CalculatAllocationOffset(offset) + sizeof(T) * capacity] *)
Definition CalculateAllocationSize (T : ColType) (offset capacity : size_type) : size_type :=
  wrap (CalculatAllocationOffset T offset + wrap (sizeof T * capacity)).

Fixpoint GetTotalAlignment (Ts : list ColType) : size_type :=
  match Ts with
  | [] => 0
  | T :: Ts' => Z.max (alignof T) (GetTotalAlignment Ts')
  end.

Fixpoint GetTotalAllocationSize (Ts : list ColType) (capacity offset : size_type) : size_type :=
  match Ts with
  | [] => offset
  | T :: Ts' => GetTotalAllocationSize Ts' capacity (CalculateAllocationSize T offset capacity)
  end.

(** The allocator interface: [allocate(n)] returns the address of a new
    block or throws ([None]); [deallocate(ptr, n)] releases one.  [n] is
    the number the source passes, the byte size of the layout. *)
Class Allocator (A : Type) := {
  allocate : A -> Z -> option (Z * A);
  deallocate : A -> Z -> Z -> A
}.

(** [nullptr] *)
Definition nullptr : Z := 0.

(** [TupleRecurser<Ts...>::DoAllocate]: walks the column types, computing
    for column [I] its offset and handing the running end offset to the
    next column; the empty recurser performs the one allocation.  The
    result is the pair (pointer, byte size) together with [ppNewLeaf]. *)
Fixpoint DoAllocate {A} `{Allocator A} (Ts : list ColType) (h : A)
    (capacity offset : size_type) : option (A * (Z * size_type) * list Z) :=
  match Ts with
  | [] =>
      if capacity =? 0 then Some (h, (nullptr, offset), [])
      else match allocate h offset with
           | Some (ptr, h') => Some (h', (ptr, offset), [])
           | None => None
           end
  | T :: Ts' =>
      let allocationOffset := CalculatAllocationOffset T offset in
      let allocationSize := CalculateAllocationSize T offset capacity in
      match DoAllocate Ts' h capacity allocationSize with
      | Some (h', allocation, ppNewLeaf) =>
          Some (h', allocation, wrap (fst allocation + allocationOffset) :: ppNewLeaf)
      | None => None
      end
  end.

(** [TupleRecurser<Ts...>::SetNewData]: the leaf pointers for a block
    [pData] handed in from outside. *)
Fixpoint SetNewData (Ts : list ColType) (pData : Z) (capacity offset : size_type) : list Z :=
  match Ts with
  | [] => []
  | T :: Ts' =>
      let allocationOffset := CalculatAllocationOffset T offset in
      let allocationSize := CalculateAllocationSize T offset capacity in
      wrap (pData + allocationOffset) :: SetNewData Ts' pData capacity allocationSize
  end.

(** *** The layout as the specification words it *)

(** Smallest multiple of [a] that is at least [x]. *)
Definition align_up (x a : Z) : Z := (x + a - 1) / a * a.

(** [offset_0 = 0], [offset_i = align_up(offset_(i-1) + sizeof(column_(i-1)) * capacity, alignof(column_i))],
    written with [prev_end] for the end of the previous column's region
    (0 before column 0). *)
Fixpoint spec_offsets_from (prev_end : Z) (Ts : list ColType) (capacity : Z) : list Z :=
  match Ts with
  | [] => []
  | T :: Ts' =>
      let o := align_up prev_end (alignof T) in
      o :: spec_offsets_from (o + sizeof T * capacity) Ts' capacity
  end.

Definition spec_offsets (Ts : list ColType) (capacity : Z) : list Z :=
  spec_offsets_from 0 Ts capacity.

(** Total size: the offset one past the last column's region. *)
Fixpoint spec_total_from (prev_end : Z) (Ts : list ColType) (capacity : Z) : Z :=
  match Ts with
  | [] => prev_end
  | T :: Ts' => spec_total_from (align_up prev_end (alignof T) + sizeof T * capacity) Ts' capacity
  end.

Definition spec_total (Ts : list ColType) (capacity : Z) : Z :=
  spec_total_from 0 Ts capacity.

(** What [DoAllocate] has to return for the specified layout: the one
    block of the specified total size (none for capacity 0), and for each
    column the block address plus its specified offset. *)
Definition layout_result {A} `{Allocator A} (Ts : list ColType) (h : A) (capacity prev_end : Z)
    : option (A * (Z * size_type) * list Z) :=
  let total := spec_total_from prev_end Ts capacity in
  let offs := spec_offsets_from prev_end Ts capacity in
  if capacity =? 0 then Some (h, (nullptr, total), map (fun o => wrap (nullptr + o)) offs)
  else match allocate h total with
       | Some (ptr, h') => Some (h', (ptr, total), map (fun o => wrap (ptr + o)) offs)
       | None => None
       end.

(* ===================================================================== *)
(** ** Object slots and the standard algorithms the source calls *)
(* ===================================================================== *)

(** One object slot of a column region.  [Raw]: storage without an
    object (never constructed, or destroyed).  [Live v]: a constructed
    object of value [v].  [Husk]: a constructed object that has been moved
    from; it may still be assigned to or destroyed, its value is of no
    use. *)
Inductive slot (V : Type) : Type :=
| Raw : slot V
| Live (v : V) : slot V
| Husk : slot V.

Arguments Raw {V}.
Arguments Live {V} v.
Arguments Husk {V}.

(** What the engine has to know of a column type beyond its layout: the
    outcome of an assignment of an object to itself by move,
    [a = std::move(a)].  [self_move_assign x] is what that leaves of an
    object of value [x]: the object as it was, [Live x], for a trivially
    copyable type or an operator that guards against self-assignment; an
    object in a valid but unspecified state, [Husk], for a type such as
    [std::string]. *)
Class MoveAssignable (V : Type) := { self_move_assign : V -> slot V }.

Section Algorithms.
Context {V : Type} {EV : MoveAssignable V}.

Local Abbreviation region := (list (slot V)).

(** [p[i]] read. *)
Definition read_slot (a : region) (i : Z) : slot V :=
  if i <? 0 then Raw else default Raw (a !! Z.to_nat i).

(** [p[i]] written. *)
Definition write_slot (i : Z) (x : slot V) (a : region) : region :=
  if i <? 0 then a else <[Z.to_nat i := x]> a.

(** The loop [body(k); body(k + 1); ...; body(k + cnt - 1)]. *)
Fixpoint for_each_offset {M : Type} (cnt : nat) (k : Z) (body : Z -> M -> M) (m : M) : M :=
  match cnt with
  | O => m
  | S c => for_each_offset c (k + 1) body (body k m)
  end.

(** [::new (p + d) T(std::move(p[s]))] inside one region. *)
Definition move_construct (d s : Z) (a : region) : region :=
  write_slot s Husk (write_slot d (read_slot a s) a).

(** [p[d] = std::move(p[s])].  When source and destination are the same
    object the move assignment operator of the column type decides what
    is left of it. *)
Definition move_assign (d s : Z) (a : region) : region :=
  if d =? s then
    match read_slot a d with
    | Live x => write_slot d (self_move_assign x) a
    | _ => a
    end
  else write_slot s Husk (write_slot d (read_slot a s) a).

(** [std::uninitialized_move(first, last, d_first)], source and
    destination in the same region. *)
Definition uninitialized_move (first last d_first : Z) (a : region) : region :=
  for_each_offset (Z.to_nat (last - first)) 0
    (fun k => move_construct (d_first + k) (first + k)) a.

(** [std::uninitialized_move(first, last, d_first)] from the region
    [src] into another region [dst]; yields both regions. *)
Definition uninitialized_move_to (first last : Z) (src : region)
    (d_first : Z) (dst : region) : region * region :=
  for_each_offset (Z.to_nat (last - first)) 0
    (fun k '(s, d) => (write_slot (first + k) Husk s,
                       write_slot (d_first + k) (read_slot s (first + k)) d))
    (src, dst).

(** [std::move(first, last, d_first)]: move assignment, front to back. *)
Definition std_move (first last d_first : Z) (a : region) : region :=
  for_each_offset (Z.to_nat (last - first)) 0
    (fun k => move_assign (d_first + k) (first + k)) a.

(** [std::move_backward(first, last, d_last)]: move assignment, back
    to front: [*(--d_last) = std::move( *(--last))]. *)
Definition move_backward (first last d_last : Z) (a : region) : region :=
  for_each_offset (Z.to_nat (last - first)) 0
    (fun k => move_assign (d_last - 1 - k) (last - 1 - k)) a.

(** [std::fill(first, last, value)]: copy assignment. *)
Definition fill (first last : Z) (value : V) (a : region) : region :=
  for_each_offset (Z.to_nat (last - first)) 0
    (fun k => write_slot (first + k) (Live value)) a.

(** [std::uninitialized_fill_n(first, n, value)]: copy construction. *)
Definition uninitialized_fill_n (first n : Z) (value : V) (a : region) : region :=
  for_each_offset (Z.to_nat n) 0
    (fun k => write_slot (first + k) (Live value)) a.

(** [std::uninitialized_fill(first, last, value)]. *)
Definition uninitialized_fill (first last : Z) (value : V) (a : region) : region :=
  uninitialized_fill_n first (last - first) value a.

(** [std::destroy(first, last)]. *)
Definition destroy (first last : Z) (a : region) : region :=
  for_each_offset (Z.to_nat (last - first)) 0
    (fun k => write_slot (first + k) Raw) a.

(** Storage of a newly allocated region of [capacity] slots. *)
Definition fresh_region (capacity : size_type) : region :=
  replicate (Z.to_nat capacity) Raw.

End Algorithms.

(* ===================================================================== *)
(** ** TupleVecLeaf *)
(* ===================================================================== *)

Module TupleVecLeaf.
Section Leaf.
Context {V : Type} {EV : MoveAssignable V}.

(** [T* mpData], together with the contents of the region of the shared
    allocation that [mpData] addresses. *)
Record t := mk { mpData : Z; cells : list (slot V) }.

Definition with_cells (leaf : t) (c : list (slot V)) : t :=
  {| mpData := mpData leaf; cells := c |}.

(** [DoUninitializedMoveAndDestruct(begin, end, pDest)]: [pDest] is
    slot [d_first] of the region [dst].  Yields the leaf with its own
    region after the destruction, and [dst]. *)
Definition DoUninitializedMoveAndDestruct (leaf : t) (begin_ end_ : size_type)
    (dst : list (slot V)) (d_first : Z) : t * list (slot V) :=
  let pBegin := begin_ in
  let pEnd := end_ in
  let '(src1, dst1) := uninitialized_move_to pBegin pEnd (cells leaf) d_first dst in
  (with_cells leaf (destroy pBegin pEnd src1), dst1).

(** [DoInsertAndFill(pos, n, numElements, arg)] *)
Definition DoInsertAndFill (pos n numElements : size_type) (arg : V) (leaf : t) : t :=
  let pDest := pos in
  let pDataEnd := numElements in
  let temp := arg in
  let nExtra := wrap (numElements - pos) in
  if n <? nExtra then
    let a1 := uninitialized_move (pDataEnd - n) pDataEnd pDataEnd (cells leaf) in
    let a2 := move_backward pDest (pDataEnd - n) pDataEnd a1 in
    with_cells leaf (fill pDest (pDest + n) temp a2)
  else
    let a1 := uninitialized_fill_n pDataEnd (wrap (n - nExtra)) temp (cells leaf) in
    let a2 := uninitialized_move pDest pDataEnd (pDataEnd + n - nExtra) a1 in
    with_cells leaf (fill pDest pDataEnd temp a2).

(** [DoInsertValue(pos, numElements, arg)] *)
Definition DoInsertValue (pos numElements : size_type) (arg : V) (leaf : t) : t :=
  let pDest := pos in
  let pDataEnd := numElements in
  let a1 := uninitialized_move (pDataEnd - 1) pDataEnd pDataEnd (cells leaf) in
  let a2 := move_backward pDest (pDataEnd - 1) pDataEnd a1 in
  let a3 := destroy pDest (pDest + 1) a2 in
  with_cells leaf (write_slot pDest (Live arg) a3).

End Leaf.
Arguments t V : clear implicits.
End TupleVecLeaf.

(* ===================================================================== *)
(** ** TupleVecIter *)
(* ===================================================================== *)

(** [variadicAnd(bool cond)] and [variadicAnd(bool cond, bool conds...)]:
    the second overload declares a C variadic function, so its body
    [cond && variadicAnd(conds)] reads the first two conditions only. *)
Definition variadicAnd (conds : list bool) : bool :=
  match conds with
  | [] => true
  | [cond] => cond
  | cond :: conds0 :: _ => cond && conds0
  end.

Module TupleVecIter.

(** [size_type mIndex; const void* mpData[sizeof...(Ts)]] *)
Record t := mk { mIndex : size_type; mpData : list Z }.

(** [mpData[0]] *)
Definition mpData0 (it : t) : Z := nth 0 (mpData it) nullptr.

(** [operator==] *)
Definition eq (a other : t) : bool :=
  (mIndex a =? mIndex other) && (mpData0 a =? mpData0 other).

(** [operator!=] *)
Definition neq (a other : t) : bool :=
  negb (mIndex a =? mIndex other) || negb (mpData0 a =? mpData0 other).

(** [operator+=] *)
Definition add_assign (it : t) (n : size_type) : t :=
  {| mIndex := wrap (mIndex it + n); mpData := mpData it |}.

(** [operator+(difference_type n) const] *)
Definition plus (it : t) (n : size_type) : t :=
  let temp := it in add_assign temp n.

(** [friend operator+(difference_type n, const this_type& rhs)] *)
Definition plus_l (n : size_type) (rhs : t) : t :=
  let temp := rhs in add_assign temp n.

(** [operator-=] *)
Definition sub_assign (it : t) (n : size_type) : t :=
  {| mIndex := wrap (mIndex it - n); mpData := mpData it |}.

(** [operator-(difference_type n) const] *)
Definition minus (it : t) (n : size_type) : t :=
  let temp := it in sub_assign temp n.

(** [friend operator-(difference_type n, const this_type& rhs)] *)
Definition minus_l (n : size_type) (rhs : t) : t :=
  let temp := rhs in sub_assign temp n.

(** [operator-(const this_type& rhs) const]; [difference_type] is
    [std::size_t]. *)
Definition diff (it rhs : t) : size_type := wrap (mIndex it - mIndex rhs).

Definition lt (it rhs : t) : bool := mIndex it <? mIndex rhs.
Definition gt (it rhs : t) : bool := mIndex it >? mIndex rhs.
Definition ge (it rhs : t) : bool := mIndex it >=? mIndex rhs.
Definition le (it rhs : t) : bool := mIndex it <=? mIndex rhs.

(** [operator++] / [operator--] *)
Definition incr (it : t) : t := {| mIndex := wrap (mIndex it + 1); mpData := mpData it |}.
Definition decr (it : t) : t := {| mIndex := wrap (mIndex it - 1); mpData := mpData it |}.

End TupleVecIter.

(* ===================================================================== *)
(** ** TupleVecImpl: the storage engine *)
(* ===================================================================== *)

(** [iterator_status_flag] *)
Definition isf_none : Z := 0.
Definition isf_valid : Z := 1.
Definition isf_current : Z := 2.
Definition isf_can_dereference : Z := 4.

(** The data members: the leaves (base classes [TupleVecLeaf<Indices, Ts>...]),
    [mpData], [mNumElements], [mNumCapacity] and the byte size kept in
    [mDataSizeAndAllocator.first].  The allocator object itself is the heap
    [h] that the operations thread through. *)
Record TupleVecImpl (V : Type) := mkImpl {
  leaves : list (TupleVecLeaf.t V);
  mpData : Z;
  mNumElements : size_type;
  mNumCapacity : size_type;
  internalDataSize : size_type
}.

Arguments mkImpl {V}.
Arguments leaves {V}.
Arguments mpData {V}.
Arguments mNumElements {V}.
Arguments mNumCapacity {V}.
Arguments internalDataSize {V}.

(** How an operation ends: normally, with its result, or by the exception
    of a failed allocation. *)
Inductive outcome (A V R : Type) : Type :=
| Done (r : R) (h : A) (v : TupleVecImpl V)
| Threw (h : A) (v : TupleVecImpl V).

Arguments Done {A V R}.
Arguments Threw {A V R}.

Section Engine.
Context {V A : Type} `{Allocator A} {EV : MoveAssignable V}.

(** The template parameter pack [Ts...]. *)
Variable Ts : list ColType.

Local Abbreviation vec := (TupleVecImpl V).
Local Abbreviation iterator := TupleVecIter.t.

(** Sequencing of operations that may throw. *)
Definition and_then {R R'} (o : outcome A V R) (k : R -> A -> vec -> outcome A V R') : outcome A V R' :=
  match o with
  | Done r h v => k r h v
  | Threw h v => Threw h v
  end.

Definition set_mNumElements (n : size_type) (v : vec) : vec :=
  mkImpl (leaves v) (mpData v) n (mNumCapacity v) (internalDataSize v).

Definition set_leaves (l : list (TupleVecLeaf.t V)) (v : vec) : vec :=
  mkImpl l (mpData v) (mNumElements v) (mNumCapacity v) (internalDataSize v).

(** A pack expansion [swallow((TupleVecLeaf<Indices, Ts>::f(...), 0)...)]
    over the leaves only. *)
Definition each_leaf (f : list (slot V) -> list (slot V)) (v : vec) : vec :=
  set_leaves (map (fun leaf => TupleVecLeaf.with_cells leaf (f (TupleVecLeaf.cells leaf))) (leaves v)) v.

(** A pack expansion over the leaves and the arguments [args...]. *)
Definition each_leaf_arg (f : V -> list (slot V) -> list (slot V)) (args : list V) (v : vec) : vec :=
  set_leaves (zip_with (fun leaf arg => TupleVecLeaf.with_cells leaf (f arg (TupleVecLeaf.cells leaf)))
                (leaves v) args) v.

(** The default constructor: null pointers, no elements. *)
Definition empty_vec : vec :=
  mkImpl (map (fun _ => TupleVecLeaf.mk nullptr []) Ts) nullptr 0 0 0.

Definition size (v : vec) : size_type := mNumElements v.
Definition capacity (v : vec) : size_type := mNumCapacity v.
Definition empty (v : vec) : bool := mNumElements v =? 0.

Definition leaf_pointers (v : vec) : list Z := map TupleVecLeaf.mpData (leaves v).

(** [begin()], [cbegin()] *)
Definition begin_ (v : vec) : iterator := TupleVecIter.mk 0 (leaf_pointers v).
Definition cbegin (v : vec) : iterator := TupleVecIter.mk 0 (leaf_pointers v).

(** [end()], [cend()] *)
Definition end_ (v : vec) : iterator := TupleVecIter.mk (size v) (leaf_pointers v).

(** [at(n)]: the slots a tuple of references would refer to. *)
Definition at_ (v : vec) (n : size_type) : list (slot V) :=
  map (fun leaf => read_slot (TupleVecLeaf.cells leaf) n) (leaves v).

(** [GetNewCapacity] *)
Definition GetNewCapacity (oldNumCapacity : size_type) : size_type :=
  if oldNumCapacity >? 0 then wrap (2 * oldNumCapacity) else 1.

(** [DoReallocate]: allocate, relocate every column, repoint every leaf,
    release the old block.  Every column is given a region of its own for
    [requiredCapacity] elements; these are disjoint parts of the new
    block as long as the layout fits [std::size_t] ([layout_fits],
    [regions_in_block]). *)
Definition DoReallocate (h : A) (v : vec) (oldNumElements requiredCapacity : size_type)
    : outcome A V unit :=
  match DoAllocate Ts h requiredCapacity 0 with
  | None => Threw h v
  | Some (h1, allocation, ppNewLeaf) =>
      let moved :=
        zip_with (fun leaf pNew =>
                    let '(_, fresh) :=
                      TupleVecLeaf.DoUninitializedMoveAndDestruct leaf 0 oldNumElements
                        (fresh_region requiredCapacity) 0 in
                    TupleVecLeaf.mk pNew fresh)
                 (leaves v) ppNewLeaf in
      let h2 := deallocate h1 (mpData v) (internalDataSize v) in
      Done tt h2 (mkImpl moved (fst allocation) (mNumElements v) requiredCapacity (snd allocation))
  end.

(** [DoGrow] *)
Definition DoGrow (h : A) (v : vec) (oldNumElements oldNumCapacity requiredCapacity : size_type)
    : outcome A V unit :=
  if requiredCapacity >? oldNumCapacity
  then DoReallocate h v oldNumElements (GetNewCapacity requiredCapacity)
  else Done tt h v.

(** [DoConditionalReallocate] *)
Definition DoConditionalReallocate (h : A) (v : vec)
    (oldNumElements oldNumCapacity requiredCapacity : size_type) : outcome A V unit :=
  if requiredCapacity >? oldNumCapacity
  then DoReallocate h v oldNumElements requiredCapacity
  else Done tt h v.

(** [push_back(const Ts&... args)] for arguments that are objects
    outside the container, given by their values; [push_back_ref] is the
    call for arguments that may refer to elements of the container. *)
Definition push_back (h : A) (v : vec) (args : list V) : outcome A V unit :=
  let oldNumElements := mNumElements v in
  let newNumElements := wrap (oldNumElements + 1) in
  let oldNumCapacity := mNumCapacity v in
  let v1 := set_mNumElements newNumElements v in
  and_then (DoGrow h v1 oldNumElements oldNumCapacity newNumElements) (fun _ h2 v2 =>
  Done tt h2 (each_leaf_arg (fun arg => write_slot oldNumElements (Live arg)) args v2)).

(** [push_back] called once for every row of [rows], in order. *)
Fixpoint push_back_all (h : A) (v : vec) (rows : list (list V)) : outcome A V unit :=
  match rows with
  | [] => Done tt h v
  | args :: rows' => and_then (push_back h v args) (fun _ h' v' => push_back_all h' v' rows')
  end.

(** [push_back_uninitialized()] *)
Definition push_back_uninitialized (h : A) (v : vec) : outcome A V unit :=
  let oldNumElements := mNumElements v in
  let newNumElements := wrap (oldNumElements + 1) in
  let oldNumCapacity := mNumCapacity v in
  let v1 := set_mNumElements newNumElements v in
  DoGrow h v1 oldNumElements oldNumCapacity newNumElements.

(** [emplace_back(Ts&&... args)]; the reference tuple [back()] it
    returns is the row at [size() - 1]. *)
Definition emplace_back (h : A) (v : vec) (args : list V) : outcome A V unit :=
  let oldNumElements := mNumElements v in
  let newNumElements := wrap (oldNumElements + 1) in
  let oldNumCapacity := mNumCapacity v in
  let v1 := set_mNumElements newNumElements v in
  and_then (DoGrow h v1 oldNumElements oldNumCapacity newNumElements) (fun _ h2 v2 =>
  Done tt h2 (each_leaf_arg (fun arg => write_slot oldNumElements (Live arg)) args v2)).

(** [insert(const_iterator pos, size_type n, const Ts&... args)] for
    arguments that are objects outside the container, given by their
    values; [insert_ref] is the call for arguments that may refer to
    elements of the container. *)
Definition insert (h : A) (v : vec) (pos : iterator) (n : size_type) (args : list V)
    : outcome A V iterator :=
  let firstIdx := TupleVecIter.diff pos (cbegin v) in
  let lastIdx := wrap (firstIdx + n) in
  let oldNumElements := mNumElements v in
  let newNumElements := wrap (mNumElements v + n) in
  let oldNumCapacity := mNumCapacity v in
  let v1 := set_mNumElements newNumElements v in
  let finish (h' : A) (v' : vec) := Done (TupleVecIter.plus (begin_ v') firstIdx) h' v' in
  if (newNumElements >? oldNumCapacity) || negb (firstIdx =? oldNumElements) then
    if newNumElements >? oldNumCapacity then
      let newCapacity := Z.max (GetNewCapacity oldNumCapacity) newNumElements in
      match DoAllocate Ts h newCapacity 0 with
      | None => Threw h v1
      | Some (h1, allocation, ppNewLeaf) =>
          let moved :=
            zip_with (fun '(leaf, arg) pNew =>
                        let '(leaf1, fresh1) :=
                          TupleVecLeaf.DoUninitializedMoveAndDestruct leaf 0 firstIdx
                            (fresh_region newCapacity) 0 in
                        let '(_, fresh2) :=
                          TupleVecLeaf.DoUninitializedMoveAndDestruct leaf1 firstIdx oldNumElements
                            fresh1 lastIdx in
                        TupleVecLeaf.mk pNew (uninitialized_fill firstIdx lastIdx arg fresh2))
                     (zip (leaves v1) args) ppNewLeaf in
          let h2 := deallocate h1 (mpData v1) (internalDataSize v1) in
          finish h2 (mkImpl moved (fst allocation) newNumElements newCapacity (snd allocation))
      end
    else
      finish h (set_leaves (zip_with (fun leaf arg =>
                   TupleVecLeaf.DoInsertAndFill firstIdx n oldNumElements arg leaf)
                 (leaves v1) args) v1)
  else
    finish h (each_leaf_arg (fun arg => uninitialized_fill oldNumElements newNumElements arg) args v1).

(** [erase(const_iterator first, const_iterator last)] *)
Definition erase (v : vec) (first last : iterator) : vec * iterator :=
  let v' :=
    if TupleVecIter.neq first last then
      let firstIdx := TupleVecIter.diff first (cbegin v) in
      let lastIdx := TupleVecIter.diff last (cbegin v) in
      let oldNumElements := mNumElements v in
      let newNumElements := wrap (oldNumElements - wrap (lastIdx - firstIdx)) in
      let v1 := set_mNumElements newNumElements v in
      let v2 := each_leaf (std_move lastIdx oldNumElements firstIdx) v1 in
      each_leaf (destroy newNumElements oldNumElements) v2
    else v in
  (v', TupleVecIter.plus (begin_ v') (TupleVecIter.mIndex first)).

(** [erase_unsorted(const_iterator pos)] *)
Definition erase_unsorted (v : vec) (pos : iterator) : vec * iterator :=
  let oldNumElements := mNumElements v in
  let newNumElements := wrap (oldNumElements - 1) in
  let v1 := set_mNumElements newNumElements v in
  let v2 := each_leaf (std_move newNumElements oldNumElements
                         (TupleVecIter.diff pos (begin_ v1))) v1 in
  let v3 := each_leaf (destroy newNumElements oldNumElements) v2 in
  (v3, TupleVecIter.plus (begin_ v3) (TupleVecIter.mIndex pos)).

(** [resize(size_type n, const Ts&... args)] for arguments that are
    objects outside the container, given by their values; [resize_ref]
    is the call for arguments that may refer to elements of the
    container. *)
Definition resize (h : A) (v : vec) (n : size_type) (args : list V) : outcome A V unit :=
  let oldNumElements := mNumElements v in
  let oldNumCapacity := mNumCapacity v in
  let v1 := set_mNumElements n v in
  if n >? oldNumElements then
    and_then
      (if n >? oldNumCapacity
       then DoReallocate h v1 oldNumElements (Z.max (GetNewCapacity oldNumCapacity) n)
       else Done tt h v1)
      (fun _ h2 v2 =>
         Done tt h2 (each_leaf_arg (fun arg => uninitialized_fill oldNumElements n arg) args v2))
  else
    Done tt h (each_leaf (destroy n oldNumElements) v1).

(** [reserve(size_type n)] *)
Definition reserve (h : A) (v : vec) (n : size_type) : outcome A V unit :=
  DoConditionalReallocate h v (mNumElements v) (mNumCapacity v) n.

(** [clear()] *)
Definition clear (v : vec) : vec :=
  let oldNumElements := mNumElements v in
  let v1 := set_mNumElements 0 v in
  each_leaf (destroy 0 oldNumElements) v1.

(** [pop_back()] *)
Definition pop_back (v : vec) : vec :=
  let oldNumElements := mNumElements v in
  let v1 := set_mNumElements (wrap (oldNumElements - 1)) v in
  each_leaf (destroy (oldNumElements - 1) oldNumElements) v1.

(** [swap(this_type& x)]: every member changes sides. *)
Definition swap (v x : vec) : vec * vec := (x, v).

(** [~TupleVecImpl()] *)
Definition destructor (h : A) (v : vec) : A :=
  let v1 := each_leaf (destroy 0 (mNumElements v)) v in
  if negb (mpData v1 =? nullptr) then deallocate h (mpData v1) (internalDataSize v1) else h.

(** [DoInitFromIterator(std::move_iterator begin, std::move_iterator end)]
    run on the container [temp] under construction.  The iterators
    snapshot the leaf pointers of the container [src], whose regions the
    elements are moved out of; the result carries [src] afterwards. *)
Definition DoInitFromIterator_move (h : A) (temp src : vec) (begin_it end_it : iterator)
    : outcome A V vec :=
  let newNumElements := TupleVecIter.diff end_it begin_it in
  let beginIdx := TupleVecIter.mIndex begin_it in
  let endIdx := TupleVecIter.mIndex end_it in
  and_then (DoConditionalReallocate h temp 0 (mNumCapacity temp) newNumElements) (fun _ h1 temp1 =>
  let temp2 := set_mNumElements newNumElements temp1 in
  let pairs :=
    zip_with (fun other leaf =>
                let '(s, d) := uninitialized_move_to beginIdx endIdx (TupleVecLeaf.cells other)
                                 0 (TupleVecLeaf.cells leaf) in
                (TupleVecLeaf.with_cells other s, TupleVecLeaf.with_cells leaf d))
             (leaves src) (leaves temp2) in
  Done (set_leaves (map fst pairs) src) h1 (set_leaves (map snd pairs) temp2)).

(** [shrink_to_fit()]: a temporary is built from the move iterators over
    the whole container, swapped in, and destroyed holding the old block.
    An exception of the constructor leaves the container as it was. *)
Definition shrink_to_fit (h : A) (v : vec) : outcome A V unit :=
  match DoInitFromIterator_move h empty_vec v (begin_ v) (end_ v) with
  | Threw h0 _ => Threw h0 v
  | Done v1 h1 temp =>
      let '(v2, temp1) := swap v1 temp in
      Done tt (destructor h1 temp1) v2
  end.

(** [validate()] *)
Definition validate (v : vec) : bool :=
  if mNumElements v >? mNumCapacity v then false
  else if negb (variadicAnd (map (fun p => mpData v <=? p) (leaf_pointers v))) then false
  else
    let pDataEnd := wrap (mpData v + internalDataSize v) in
    if negb (variadicAnd (map (fun p => pDataEnd >=? p) (leaf_pointers v))) then false
    else true.

(** [validate_iterator(const_iterator iter)] *)
Definition validate_iterator (v : vec) (iter : iterator) : Z :=
  if negb (variadicAnd (zip_with Z.eqb (TupleVecIter.mpData iter) (leaf_pointers v))) then isf_none
  else if TupleVecIter.mIndex iter <? mNumElements v
       then Z.lor (Z.lor isf_valid isf_current) isf_can_dereference
  else if TupleVecIter.mIndex iter <=? mNumElements v
       then Z.lor isf_valid isf_current
  else isf_none.

(** [validate_iterator_pair(first, last)] *)
Definition validate_iterator_pair (first last : iterator) : bool :=
  (TupleVecIter.mIndex first <=? TupleVecIter.mIndex last)
  && variadicAnd (zip_with Z.eqb (TupleVecIter.mpData first) (TupleVecIter.mpData last)).

(** The live part of column [j]: the slots [0 .. size()) of its region. *)
Definition column (v : vec) (j : nat) : list (slot V) :=
  match leaves v !! j with
  | Some leaf => take (Z.to_nat (mNumElements v)) (TupleVecLeaf.cells leaf)
  | None => []
  end.

(** Class invariant of a container in normal operation: sizes are
    [std::size_t] values, [size() <= capacity()], there is one leaf per
    column type and every region holds [capacity()] slots. *)
Definition well_formed (v : vec) : Prop :=
  0 <= mNumElements v <= mNumCapacity v /\
  mNumCapacity v < SIZE_MAX_plus_1 /\
  length (leaves v) = length Ts /\
  Forall (fun leaf => length (TupleVecLeaf.cells leaf) = Z.to_nat (mNumCapacity v)) (leaves v).

End Engine.

(* ===================================================================== *)
(** ** Two allocators to run the engine on *)
(* ===================================================================== *)

(** The blocks of [live] without the block [(ptr, bytes)]. *)
Definition release (ptr bytes : Z) (live : list (Z * Z)) : list (Z * Z) :=
  List.filter (fun b => negb ((fst b =? ptr) && (snd b =? bytes))) live.

(** A heap that never runs out: blocks are handed out at increasing
    addresses and the live ones are recorded. *)
Record Bump := mkBump { bump_next : Z; bump_live : list (Z * Z) }.

#[export] Instance Bump_allocator : Allocator Bump := {|
  allocate h bytes :=
    Some (bump_next h, mkBump (bump_next h + bytes) ((bump_next h, bytes) :: bump_live h));
  deallocate h ptr bytes := mkBump (bump_next h) (release ptr bytes (bump_live h))
|}.

(** A heap of bounded size: a request that does not fit below
    [arena_end] throws. *)
Record Arena := mkArena { arena_next : Z; arena_end : Z; arena_live : list (Z * Z) }.

#[export] Instance Arena_allocator : Allocator Arena := {|
  allocate h bytes :=
    if arena_next h + bytes <=? arena_end h
    then Some (arena_next h,
               mkArena (arena_next h + bytes) (arena_end h) ((arena_next h, bytes) :: arena_live h))
    else None;
  deallocate h ptr bytes :=
    mkArena (arena_next h) (arena_end h) (release ptr bytes (arena_live h))
|}.

(** [int]: four bytes, aligned to four. *)
Definition int_t : ColType := {| sizeof := 4; alignof := 4 |}.

(** [double]: eight bytes, aligned to eight. *)
Definition double_t : ColType := {| sizeof := 8; alignof := 8 |}.

(** [char]: one byte. *)
Definition char_t : ColType := {| sizeof := 1; alignof := 1 |}.

(** The elements of the [int] columns: assigning an [int] to itself
    leaves it as it is. *)
#[export] Instance int_elements : MoveAssignable Z := {| self_move_assign := Live |}.

(** [std::string], by its characters; 32 bytes, aligned to eight.  A
    string that is move-assigned to itself is left in a valid but
    unspecified state (libstdc++ leaves it empty). *)
Inductive std_string : Type := Str (chars : list Z).

#[export] Instance string_elements : MoveAssignable std_string :=
  {| self_move_assign := fun _ => Husk |}.

(* ===================================================================== *)
(** ** Predicates used to state the properties *)
(* ===================================================================== *)

(** [c] is the smallest member that is at least [n] of the chain
    0, 2, 6, 14, 30, ... (each member twice the successor of the one
    before). *)
Definition on_push_chain (n c : Z) : Prop :=
  exists k, 0 <= k /\ c = 2 ^ (k + 1) - 2 /\ 2 ^ k - 2 < n <= 2 ^ (k + 1) - 2.

(** Moving the live elements of the leaves [ls] into new regions of [s]
    slots at the addresses [ptrs]. *)
Definition moved_out {V : Type} (s : Z) (ls : list (TupleVecLeaf.t V)) (ptrs : list Z)
    : list (TupleVecLeaf.t V * TupleVecLeaf.t V) :=
  zip_with (fun other leaf =>
              let '(s0, d0) := uninitialized_move_to 0 s (TupleVecLeaf.cells other)
                                 0 (TupleVecLeaf.cells leaf) in
              (TupleVecLeaf.with_cells other s0, TupleVecLeaf.with_cells leaf d0))
           ls (map (fun pNew => TupleVecLeaf.mk pNew (fresh_region s)) ptrs).


(* ===================================================================== *)
(** ** Containers to run the operations on *)
(* ===================================================================== *)

(** Two [int] columns holding the rows (10, 1), (20, 2), (30, 3) in a
    block for four rows at address 4096. *)
Definition two_columns : TupleVecImpl Z :=
  mkImpl [TupleVecLeaf.mk 4096 [Live 10; Live 20; Live 30; Raw];
          TupleVecLeaf.mk 4112 [Live 1; Live 2; Live 3; Raw]]
         4096 3 4 32.

(** One [int] column holding 10, 20, 30 in a block for three rows. *)
Definition one_column : TupleVecImpl Z :=
  mkImpl [TupleVecLeaf.mk 4096 [Live 10; Live 20; Live 30]] 4096 3 3 12.

(** The bump heap on which [one_column] lives. *)
Definition one_column_heap : Bump := mkBump 4108 [(4096, 12)].

(** An iterator of [two_columns] at index [i]. *)
Definition two_columns_at (i : Z) : TupleVecIter.t := TupleVecIter.mk i [4096; 4112].

(** An iterator of [one_column] at index [i]. *)
Definition one_column_at (i : Z) : TupleVecIter.t := TupleVecIter.mk i [4096].

(** An arena with room for eight bytes. *)
Definition small_arena : Arena := mkArena 4096 4104 [].

(* ===================================================================== *)
(** ** Further operations of the engine *)
(* ===================================================================== *)

Section Algorithms2.
Context {V : Type}.

(** [std::uninitialized_copy(first, last, d_first)] from the region [src]
    into another region [dst]: copy construction, the source stays. *)
Definition uninitialized_copy_to (first last : Z) (src : list (slot V))
    (d_first : Z) (dst : list (slot V)) : list (slot V) :=
  for_each_offset (Z.to_nat (last - first)) 0
    (fun k d => write_slot (d_first + k) (read_slot src (first + k)) d) dst.

End Algorithms2.

Section Engine2.
Context {V A : Type} `{Allocator A} {EV : MoveAssignable V}.
Variable Ts : list ColType.

Local Abbreviation vec := (TupleVecImpl V).
Local Abbreviation iterator := TupleVecIter.t.

(** [emplace(const_iterator pos, Ts&&... args)] for arguments that are
    objects outside the container, given by their values; [emplace_ref]
    is the call for arguments that may refer to elements of the
    container. *)
Definition emplace (h : A) (v : vec) (pos : iterator) (args : list V) : outcome A V iterator :=
  let firstIdx := TupleVecIter.diff pos (cbegin v) in
  let oldNumElements := mNumElements v in
  let newNumElements := wrap (mNumElements v + 1) in
  let oldNumCapacity := mNumCapacity v in
  let v1 := set_mNumElements newNumElements v in
  let finish (h' : A) (v' : vec) := Done (TupleVecIter.plus (begin_ v') firstIdx) h' v' in
  if (newNumElements >? oldNumCapacity) || negb (firstIdx =? oldNumElements) then
    if newNumElements >? oldNumCapacity then
      let newCapacity := Z.max (GetNewCapacity oldNumCapacity) newNumElements in
      match DoAllocate Ts h newCapacity 0 with
      | None => Threw h v1
      | Some (h1, allocation, ppNewLeaf) =>
          let moved :=
            zip_with (fun '(leaf, arg) pNew =>
                        let '(leaf1, fresh1) :=
                          TupleVecLeaf.DoUninitializedMoveAndDestruct leaf 0 firstIdx
                            (fresh_region newCapacity) 0 in
                        let '(_, fresh2) :=
                          TupleVecLeaf.DoUninitializedMoveAndDestruct leaf1 firstIdx oldNumElements
                            fresh1 (firstIdx + 1) in
                        TupleVecLeaf.mk pNew (write_slot firstIdx (Live arg) fresh2))
                     (zip (leaves v1) args) ppNewLeaf in
          let h2 := deallocate h1 (mpData v1) (internalDataSize v1) in
          finish h2 (mkImpl moved (fst allocation) newNumElements newCapacity (snd allocation))
      end
    else
      finish h (set_leaves (zip_with (fun leaf arg =>
                   TupleVecLeaf.DoInsertValue firstIdx oldNumElements arg leaf)
                 (leaves v1) args) v1)
  else
    finish h (each_leaf_arg (fun arg => write_slot oldNumElements (Live arg)) args v1).

(** [erase(const_iterator pos)] *)
Definition erase_at (v : vec) (pos : iterator) : vec * iterator :=
  erase v pos (TupleVecIter.plus pos 1).

(** [DoInitFillArgs(n, args...)] *)
Definition DoInitFillArgs (h : A) (v : vec) (n : size_type) (args : list V) : outcome A V unit :=
  and_then (DoConditionalReallocate Ts h v 0 (mNumCapacity v) n) (fun _ h1 v1 =>
  let v2 := set_mNumElements n v1 in
  Done tt h1 (each_leaf_arg (fun arg => uninitialized_fill 0 n arg) args v2)).

(** [TupleVecImpl(size_type n, const Ts&... args, const allocator_type&)] *)
Definition construct_fill (h : A) (n : size_type) (args : list V) : outcome A V unit :=
  DoInitFillArgs h (empty_vec Ts) n args.

(** [assign(size_type n, const Ts&... args)].  In the first branch an
    exception of the temporary's constructor leaves the container as it
    was; the temporary is destroyed holding the old block. *)
Definition assign (h : A) (v : vec) (n : size_type) (args : list V) : outcome A V unit :=
  if n >? mNumCapacity v then
    match construct_fill h n args with
    | Threw h0 _ => Threw h0 v
    | Done _ h1 temp =>
        let '(v2, temp1) := swap v temp in
        Done tt (destructor h1 temp1) v2
    end
  else if n >? mNumElements v then
    let oldNumElements := mNumElements v in
    let v1 := each_leaf_arg (fun arg => fill 0 oldNumElements arg) args v in
    let v2 := each_leaf_arg (fun arg => uninitialized_fill oldNumElements n arg) args v1 in
    Done tt h (set_mNumElements n v2)
  else
    let v1 := each_leaf_arg (fun arg => fill 0 n arg) args v in
    Done tt h (fst (erase v1 (TupleVecIter.plus (begin_ v1) n) (end_ v1))).

(** [DoInitFromIterator(const_iterator begin, const_iterator end)] run on
    the container [v] under construction; the iterators snapshot the leaf
    pointers of the container [src], whose elements are copied. *)
Definition DoInitFromIterator (h : A) (v src : vec) (begin_it end_it : iterator)
    : outcome A V unit :=
  let newNumElements := TupleVecIter.diff end_it begin_it in
  let beginIdx := TupleVecIter.mIndex begin_it in
  let endIdx := TupleVecIter.mIndex end_it in
  and_then (DoConditionalReallocate Ts h v 0 (mNumCapacity v) newNumElements) (fun _ h1 v1 =>
  let v2 := set_mNumElements newNumElements v1 in
  Done tt h1
    (set_leaves (zip_with (fun leaf other =>
                   TupleVecLeaf.with_cells leaf
                     (uninitialized_copy_to beginIdx endIdx (TupleVecLeaf.cells other)
                        0 (TupleVecLeaf.cells leaf)))
                 (leaves v2) (leaves src)) v2)).

(** [TupleVecImpl(const this_type& x)] *)
Definition copy_construct (h : A) (x : vec) : outcome A V unit :=
  DoInitFromIterator h (empty_vec Ts) x (begin_ x) (end_ x).

(** [front()], [back()] *)
Definition front (v : vec) : list (slot V) := at_ v 0.
Definition back (v : vec) : list (slot V) := at_ v (wrap (size v - 1)).

End Engine2.

(* ===================================================================== *)
(** ** Compile-time lookups *)
(* ===================================================================== *)

Section TypeIndex.
Context {X : Type} `{EqDecision X}.

(** [tuplevec_index<T, TupleTypes<Ts...>>::DuplicateTypeCheck]: [true]
    stands for [int] (the type occurs), [false] for [void]. *)
Fixpoint DuplicateTypeCheck (T : X) (Ts : list X) : bool :=
  match Ts with
  | [] => false
  | T0 :: TsRest => if decide (T0 = T) then true else DuplicateTypeCheck T TsRest
  end.

(** [tuplevec_index<T, TupleTypes<Ts...>>::index]; [None] when the
    [static_assert] on duplicates rejects the program. *)
Fixpoint tuplevec_index (T : X) (Ts : list X) : option nat :=
  match Ts with
  | [] => Some 0%nat
  | T0 :: TsRest =>
      if decide (T0 = T)
      then (if DuplicateTypeCheck T TsRest then None else Some 0%nat)
      else S <$> tuplevec_index T TsRest
  end.

(** [tuplevec_element<I, Ts...>::type]; [None] when the [static_assert]
    on the range rejects the program. *)
Fixpoint tuplevec_element (I : nat) (Ts : list X) : option X :=
  match Ts with
  | [] => None
  | T :: TsRest =>
      match I with
      | O => Some T
      | S I' => tuplevec_element I' TsRest
      end
  end.

End TypeIndex.

(** [index_lookup_helper<val, Ns...>::DuplicateHashCheck] *)
Fixpoint DuplicateHashCheck (val : Z) (Ns : list Z) : bool :=
  match Ns with
  | [] => false
  | N :: Ns' => if N =? val then true else DuplicateHashCheck val Ns'
  end.

(** [index_lookup_helper<val, Ns...>::index] *)
Fixpoint index_lookup_helper (val : Z) (Ns : list Z) : option nat :=
  match Ns with
  | [] => Some 0%nat
  | N :: Ns' =>
      if N =? val
      then (if DuplicateHashCheck val Ns' then None else Some 0%nat)
      else S <$> index_lookup_helper val Ns'
  end.

(** [hashCalc(ch, len)] on the characters [ch] of a literal, each given
    by its [char] value; [unsigned long] has 64 bits. *)
Fixpoint hashCalc (ch : list Z) : Z :=
  match ch with
  | [] => 0
  | c :: rest => wrap (wrap c + wrap (hashCalc rest * 33)) mod Z.shiftl 1 26
  end.

(** Value of the characters as a number in base 33, the first character
    the lowest digit. *)
Fixpoint base33 (ch : list Z) : Z :=
  match ch with
  | [] => 0
  | c :: rest => c + 33 * base33 rest
  end.


(* ===================================================================== *)
(** ** Rows and columns *)
(* ===================================================================== *)

(** The column that a sequence of rows spells out at position [j]: the
    [j]-th component of every row, in the order of the rows. *)
Definition rows_column {V : Type} (j : nat) (rows : list (list V)) : list (slot V) :=
  map (fun row => match row !! j with Some x => Live x | None => Raw end) rows.

(** Three [int] columns holding the rows (10, 1, 7), (20, 2, 8) in a
    block for two rows at address 4096. *)
Definition three_columns : TupleVecImpl Z :=
  mkImpl [TupleVecLeaf.mk 4096 [Live 10; Live 20];
          TupleVecLeaf.mk 4104 [Live 1; Live 2];
          TupleVecLeaf.mk 4112 [Live 7; Live 8]]
         4096 2 2 24.

(** The bump heap on which [two_columns] lives. *)
Definition two_columns_heap : Bump := mkBump 4128 [(4096, 32)].

(* ===================================================================== *)
(** ** Arguments passed by reference *)
(* ===================================================================== *)

(** What the argument for a column refers to: an object outside the
    container, given by its value, or the element at index [i] of that
    very column.  The operations above that take values are the calls all
    of whose arguments are objects outside the container; the ones below
    read the arguments where the source reads them. *)
Inductive arg_ref (V : Type) : Type :=
| Outside (x : V)
| Own (i : size_type).

Arguments Outside {V} x.
Arguments Own {V} i.

Section References.
Context {V : Type} {EV : MoveAssignable V}.

Local Abbreviation region := (list (slot V)).

(** Reading the object that a reference refers to while the column is
    [a]: its value, or nothing where there is no object that holds a
    value (storage without an object, or an object that has been moved
    from); the program has no defined behaviour then. *)
Definition read_arg (a : region) (r : arg_ref V) : option V :=
  match r with
  | Outside x => Some x
  | Own i => match read_slot a i with
             | Live x => Some x
             | _ => None
             end
  end.

(** The same once the elements of the column have been relocated and
    destroyed: a reference into the column refers to no object. *)
Definition read_stale (r : arg_ref V) : option V :=
  match r with
  | Outside x => Some x
  | Own _ => None
  end.

(** The loop [body(k); ...; body(k + cnt - 1)] with a body that may leave
    defined behaviour. *)
Fixpoint for_each_offset_opt {M : Type} (cnt : nat) (k : Z) (body : Z -> M -> option M) (m : M)
    : option M :=
  match cnt with
  | O => Some m
  | S c => match body k m with
           | Some m' => for_each_offset_opt c (k + 1) body m'
           | None => None
           end
  end.

(** [::new (p + d) T(arg)] for an argument that [rd] reads. *)
Definition copy_construct_from (rd : region -> option V) (d : Z) (a : region) : option region :=
  match rd a with
  | Some x => Some (write_slot d (Live x) a)
  | None => None
  end.

(** [std::uninitialized_fill(first, last, arg)] for an argument that
    [rd] reads, at every construction anew. *)
Definition uninitialized_fill_from (rd : region -> option V) (first last : Z) (a : region)
    : option region :=
  for_each_offset_opt (Z.to_nat (last - first)) 0
    (fun k => copy_construct_from rd (first + k)) a.

(** [::new (p + d) T(std::forward<T>(arg))] for an argument passed as
    [T&&]: the object referred to is moved from. *)
Definition move_construct_arg (d : Z) (r : arg_ref V) (a : region) : option region :=
  match r with
  | Outside x => Some (write_slot d (Live x) a)
  | Own i => match read_slot a i with
             | Live x => Some (write_slot i Husk (write_slot d (Live x) a))
             | _ => None
             end
  end.

(** A pack expansion over two lists whose steps may leave defined
    behaviour. *)
Fixpoint zip_with_opt {X Y R : Type} (f : X -> Y -> option R) (l : list X) (k : list Y)
    : option (list R) :=
  match l, k with
  | x :: l', y :: k' =>
      match f x y with
      | Some z => match zip_with_opt f l' k' with
                  | Some zs => Some (z :: zs)
                  | None => None
                  end
      | None => None
      end
  | _, _ => Some []
  end.

(** [TupleVecLeaf::DoInsertAndFill(pos, n, numElements, arg)]: the
    argument is copied into [temp] before anything moves. *)
Definition DoInsertAndFill_ref (pos n numElements : size_type) (r : arg_ref V)
    (leaf : TupleVecLeaf.t V) : option (TupleVecLeaf.t V) :=
  match read_arg (TupleVecLeaf.cells leaf) r with
  | Some temp => Some (TupleVecLeaf.DoInsertAndFill pos n numElements temp leaf)
  | None => None
  end.

(** [TupleVecLeaf::DoInsertValue(pos, numElements, arg)]: the argument
    is moved from after the elements have been shifted. *)
Definition DoInsertValue_ref (pos numElements : size_type) (r : arg_ref V)
    (leaf : TupleVecLeaf.t V) : option (TupleVecLeaf.t V) :=
  let pDest := pos in
  let pDataEnd := numElements in
  let a1 := uninitialized_move (pDataEnd - 1) pDataEnd pDataEnd (TupleVecLeaf.cells leaf) in
  let a2 := move_backward pDest (pDataEnd - 1) pDataEnd a1 in
  let a3 := destroy pDest (pDest + 1) a2 in
  match move_construct_arg pDest r a3 with
  | Some a4 => Some (TupleVecLeaf.with_cells leaf a4)
  | None => None
  end.

End References.

Section EngineReferences.
Context {V A : Type} `{Allocator A} {EV : MoveAssignable V}.
Variable Ts : list ColType.

Local Abbreviation vec := (TupleVecImpl V).
Local Abbreviation iterator := TupleVecIter.t.

(** A pack expansion over the leaves and the arguments [args...], each
    step reading its argument. *)
Definition each_leaf_ref (f : arg_ref V -> list (slot V) -> option (list (slot V)))
    (args : list (arg_ref V)) (v : vec) : option vec :=
  match zip_with_opt (fun leaf r =>
                        match f r (TupleVecLeaf.cells leaf) with
                        | Some c => Some (TupleVecLeaf.with_cells leaf c)
                        | None => None
                        end) (leaves v) args with
  | Some ls => Some (set_leaves ls v)
  | None => None
  end.

(** [push_back(const Ts&... args)]; [None] when the behaviour is
    undefined. *)
Definition push_back_ref (h : A) (v : vec) (args : list (arg_ref V))
    : option (outcome A V unit) :=
  let oldNumElements := mNumElements v in
  let newNumElements := wrap (oldNumElements + 1) in
  let oldNumCapacity := mNumCapacity v in
  let v1 := set_mNumElements newNumElements v in
  match DoGrow Ts h v1 oldNumElements oldNumCapacity newNumElements with
  | Threw h2 v2 => Some (Threw h2 v2)
  | Done _ h2 v2 =>
      let rd (r : arg_ref V) (a : list (slot V)) :=
        if newNumElements >? oldNumCapacity then read_stale r else read_arg a r in
      match each_leaf_ref (fun r => copy_construct_from (rd r) oldNumElements) args v2 with
      | Some v3 => Some (Done tt h2 v3)
      | None => None
      end
  end.

(** [resize(size_type n, const Ts&... args)] *)
Definition resize_ref (h : A) (v : vec) (n : size_type) (args : list (arg_ref V))
    : option (outcome A V unit) :=
  let oldNumElements := mNumElements v in
  let oldNumCapacity := mNumCapacity v in
  let v1 := set_mNumElements n v in
  if n >? oldNumElements then
    if n >? oldNumCapacity then
      match DoReallocate Ts h v1 oldNumElements (Z.max (GetNewCapacity oldNumCapacity) n) with
      | Threw h2 v2 => Some (Threw h2 v2)
      | Done _ h2 v2 =>
          match each_leaf_ref
                  (fun r => uninitialized_fill_from (fun _ => read_stale r) oldNumElements n)
                  args v2 with
          | Some v3 => Some (Done tt h2 v3)
          | None => None
          end
      end
    else
      match each_leaf_ref
              (fun r => uninitialized_fill_from (fun a => read_arg a r) oldNumElements n)
              args v1 with
      | Some v3 => Some (Done tt h v3)
      | None => None
      end
  else
    Some (Done tt h (each_leaf (destroy n oldNumElements) v1)).

(** [insert(const_iterator pos, size_type n, const Ts&... args)] *)
Definition insert_ref (h : A) (v : vec) (pos : iterator) (n : size_type)
    (args : list (arg_ref V)) : option (outcome A V iterator) :=
  let firstIdx := TupleVecIter.diff pos (cbegin v) in
  let lastIdx := wrap (firstIdx + n) in
  let oldNumElements := mNumElements v in
  let newNumElements := wrap (mNumElements v + n) in
  let oldNumCapacity := mNumCapacity v in
  let v1 := set_mNumElements newNumElements v in
  let finish (h' : A) (v' : vec) := Done (TupleVecIter.plus (begin_ v') firstIdx) h' v' in
  if (newNumElements >? oldNumCapacity) || negb (firstIdx =? oldNumElements) then
    if newNumElements >? oldNumCapacity then
      let newCapacity := Z.max (GetNewCapacity oldNumCapacity) newNumElements in
      match DoAllocate Ts h newCapacity 0 with
      | None => Some (Threw h v1)
      | Some (h1, allocation, ppNewLeaf) =>
          let moved :=
            zip_with_opt (fun '(leaf, r) pNew =>
                            let '(leaf1, fresh1) :=
                              TupleVecLeaf.DoUninitializedMoveAndDestruct leaf 0 firstIdx
                                (fresh_region newCapacity) 0 in
                            let '(_, fresh2) :=
                              TupleVecLeaf.DoUninitializedMoveAndDestruct leaf1 firstIdx
                                oldNumElements fresh1 lastIdx in
                            match uninitialized_fill_from (fun _ => read_stale r)
                                    firstIdx lastIdx fresh2 with
                            | Some c => Some (TupleVecLeaf.mk pNew c)
                            | None => None
                            end)
                         (zip (leaves v1) args) ppNewLeaf in
          let h2 := deallocate h1 (mpData v1) (internalDataSize v1) in
          match moved with
          | Some ls =>
              Some (finish h2 (mkImpl ls (fst allocation) newNumElements newCapacity
                                 (snd allocation)))
          | None => None
          end
      end
    else
      match zip_with_opt (fun leaf r => DoInsertAndFill_ref firstIdx n oldNumElements r leaf)
              (leaves v1) args with
      | Some ls => Some (finish h (set_leaves ls v1))
      | None => None
      end
  else
    match each_leaf_ref
            (fun r => uninitialized_fill_from (fun a => read_arg a r)
                        oldNumElements newNumElements)
            args v1 with
    | Some v3 => Some (finish h v3)
    | None => None
    end.

(** [emplace(const_iterator pos, Ts&&... args)] *)
Definition emplace_ref (h : A) (v : vec) (pos : iterator) (args : list (arg_ref V))
    : option (outcome A V iterator) :=
  let firstIdx := TupleVecIter.diff pos (cbegin v) in
  let oldNumElements := mNumElements v in
  let newNumElements := wrap (mNumElements v + 1) in
  let oldNumCapacity := mNumCapacity v in
  let v1 := set_mNumElements newNumElements v in
  let finish (h' : A) (v' : vec) := Done (TupleVecIter.plus (begin_ v') firstIdx) h' v' in
  if (newNumElements >? oldNumCapacity) || negb (firstIdx =? oldNumElements) then
    if newNumElements >? oldNumCapacity then
      let newCapacity := Z.max (GetNewCapacity oldNumCapacity) newNumElements in
      match DoAllocate Ts h newCapacity 0 with
      | None => Some (Threw h v1)
      | Some (h1, allocation, ppNewLeaf) =>
          let moved :=
            zip_with_opt (fun '(leaf, r) pNew =>
                            let '(leaf1, fresh1) :=
                              TupleVecLeaf.DoUninitializedMoveAndDestruct leaf 0 firstIdx
                                (fresh_region newCapacity) 0 in
                            let '(_, fresh2) :=
                              TupleVecLeaf.DoUninitializedMoveAndDestruct leaf1 firstIdx
                                oldNumElements fresh1 (firstIdx + 1) in
                            match copy_construct_from (fun _ => read_stale r) firstIdx fresh2 with
                            | Some c => Some (TupleVecLeaf.mk pNew c)
                            | None => None
                            end)
                         (zip (leaves v1) args) ppNewLeaf in
          let h2 := deallocate h1 (mpData v1) (internalDataSize v1) in
          match moved with
          | Some ls =>
              Some (finish h2 (mkImpl ls (fst allocation) newNumElements newCapacity
                                 (snd allocation)))
          | None => None
          end
      end
    else
      match zip_with_opt (fun leaf r => DoInsertValue_ref firstIdx oldNumElements r leaf)
              (leaves v1) args with
      | Some ls => Some (finish h (set_leaves ls v1))
      | None => None
      end
  else
    match each_leaf_ref (fun r => move_construct_arg oldNumElements r) args v1 with
    | Some v3 => Some (finish h v3)
    | None => None
    end.

(** The arguments [args] refer to objects that hold the values [vals]
    while the container is [v]. *)
Definition args_in (v : vec) (args : list (arg_ref V)) (vals : list V) : Prop :=
  length vals = length args /\
  forall j leaf r, leaves v !! j = Some leaf -> args !! j = Some r ->
    exists x, vals !! j = Some x /\ read_arg (TupleVecLeaf.cells leaf) r = Some x.

End EngineReferences.

(** The column types have power-of-two alignments and positive sizes,
    and the layout for [n] rows is computed without wrap-around. *)
Definition layout_fits (Ts : list ColType) (n : Z) : Prop :=
  Forall well_formed_type Ts /\ 0 <= n /\ spec_total Ts n < SIZE_MAX_plus_1.

(** The block of [bytes] bytes at [p] lies in the address space. *)
Definition block_inside (p bytes : Z) : Prop := 0 <= p /\ p + bytes < SIZE_MAX_plus_1.

(** The regions of the columns, [capacity] elements each from the column
    pointers [ptrs], lie between [lo] and [hi] one after the other. *)
Fixpoint regions_in_block (Ts : list ColType) (ptrs : list Z) (capacity lo hi : Z) : Prop :=
  match Ts, ptrs with
  | [], [] => True
  | T :: Ts', q :: ptrs' =>
      lo <= q /\ q + sizeof T * capacity <= hi /\
      regions_in_block Ts' ptrs' capacity (q + sizeof T * capacity) hi
  | _, _ => False
  end.

(* ===================================================================== *)
(** ** Lemmas on the layout arithmetic *)
(* ===================================================================== *)

Lemma wrap_small x : is_size_t x -> wrap x = x.
Proof. unfold is_size_t, wrap. intros. apply Z.mod_small. lia. Qed.

Lemma wrap_range x : is_size_t (wrap x).
Proof. unfold is_size_t, wrap, SIZE_MAX_plus_1. apply Z.mod_pos_bound. lia. Qed.

Lemma alignment_pos a : is_alignment a -> 0 < a < SIZE_MAX_plus_1.
Proof.
  intros (k & Hk & ->). unfold SIZE_MAX_plus_1. split.
  - apply Z.pow_pos_nonneg; lia.
  - apply Z.pow_lt_mono_r; lia.
Qed.

(** [~a + 1] is the two's complement negation. *)
Lemma neg_mask a : wrap (wrap (Z.lnot a) + 1) = wrap (- a).
Proof.
  unfold wrap. rewrite Zplus_mod_idemp_l. f_equal. unfold Z.lnot. lia.
Qed.

(** Masking with [-2^k] clears the [k] low bits. *)
Lemma land_neg_pow2 x k :
  0 <= k < 64 -> is_size_t x ->
  Z.land x (wrap (- 2 ^ k)) = 2 ^ k * (x / 2 ^ k).
Proof.
  intros Hk Hx. unfold wrap, SIZE_MAX_plus_1.
  rewrite <- Z.land_ones by lia.
  rewrite (Z.land_comm (- 2 ^ k)), Z.land_assoc.
  rewrite Z.land_ones by lia.
  rewrite Z.mod_small by (unfold is_size_t, SIZE_MAX_plus_1 in Hx; lia).
  replace (- 2 ^ k) with (Z.lnot (Z.ones k)) by (rewrite Z.ones_equiv; unfold Z.lnot; lia).
  change (Z.land x (Z.lnot (Z.ones k))) with (Z.ldiff x (Z.ones k)) || rewrite <- Z.ldiff_land.
  rewrite Z.ldiff_ones_r by lia.
  rewrite Z.shiftr_div_pow2, Z.shiftl_mul_pow2 by lia. lia.
Qed.

Lemma CalculatAllocationOffset_align_up T offset :
  is_alignment (alignof T) -> 0 <= offset ->
  offset + alignof T - 1 < SIZE_MAX_plus_1 ->
  CalculatAllocationOffset T offset = align_up offset (alignof T).
Proof.
  intros Ha Ho Hfit. pose proof (alignment_pos _ Ha) as Hpos.
  unfold CalculatAllocationOffset. rewrite neg_mask.
  destruct Ha as (k & Hk & Hak).
  assert (Hin : wrap (wrap (offset + alignof T) - 1) = offset + alignof T - 1).
  { unfold wrap. rewrite Zminus_mod_idemp_l. apply Z.mod_small. lia. }
  rewrite Hin, Hak. rewrite land_neg_pow2; [|lia|unfold is_size_t; lia].
  unfold align_up. lia.
Qed.

Lemma align_up_bounds x a : 0 < a -> x <= align_up x a < x + a.
Proof.
  intros Ha. unfold align_up.
  pose proof (Z.div_mod (x + a - 1) a ltac:(lia)).
  pose proof (Z.mod_pos_bound (x + a - 1) a Ha). lia.
Qed.

Lemma align_up_mod x a : 0 < a -> align_up x a mod a = 0.
Proof. intros Ha. unfold align_up. apply Z.mod_mul. lia. Qed.

Lemma align_up_0 a : 0 < a -> align_up 0 a = 0.
Proof.
  intros Ha. unfold align_up. rewrite Z.div_small by lia. lia.
Qed.

(* ===================================================================== *)
(** ** The layout calculator computes the specified layout *)
(* ===================================================================== *)

Lemma spec_total_from_ge Ts capacity : forall p,
  Forall well_formed_type Ts -> 0 <= capacity ->
  p <= spec_total_from p Ts capacity.
Proof.
  induction Ts as [|T Ts' IH]; intros p Hwf Hc; simpl; [lia|].
  inversion Hwf as [|? ? [Ha Hs] Hwf']; subst.
  specialize (IH (align_up p (alignof T) + sizeof T * capacity) Hwf' Hc).
  pose proof (align_up_bounds p (alignof T) (proj1 (alignment_pos _ Ha))). nia.
Qed.

(** An aligned offset below 2^64 leaves room for the rounding the source
    performs before masking. *)
Lemma align_up_fits x a :
  is_alignment a -> 0 <= x -> align_up x a < SIZE_MAX_plus_1 ->
  x + a - 1 < SIZE_MAX_plus_1.
Proof.
  intros (k & Hk & ->) Hx Hlt.
  assert (Hpos : 0 < 2 ^ k) by (apply Z.pow_pos_nonneg; lia).
  pose proof (align_up_bounds x (2 ^ k) Hpos) as Hb.
  unfold align_up, SIZE_MAX_plus_1 in *.
  set (q := (x + 2 ^ k - 1) / 2 ^ k) in *.
  assert (Hsplit : 2 ^ 64 = 2 ^ (64 - k) * 2 ^ k).
  { rewrite <- Z.pow_add_r by lia. f_equal. lia. }
  assert (0 < 2 ^ (64 - k)) by (apply Z.pow_pos_nonneg; lia).
  assert (q < 2 ^ (64 - k)) by nia.
  nia.
Qed.

Lemma CalculateAllocationSize_spec T offset capacity :
  well_formed_type T -> 0 <= offset -> 0 <= capacity ->
  align_up offset (alignof T) + sizeof T * capacity < SIZE_MAX_plus_1 ->
  CalculatAllocationOffset T offset = align_up offset (alignof T) /\
  CalculateAllocationSize T offset capacity = align_up offset (alignof T) + sizeof T * capacity.
Proof.
  intros [Ha Hs] Ho Hc Hfit.
  pose proof (align_up_bounds offset (alignof T) (proj1 (alignment_pos _ Ha))) as Hb.
  assert (Hoff : CalculatAllocationOffset T offset = align_up offset (alignof T)).
  { apply CalculatAllocationOffset_align_up; auto.
    apply align_up_fits; auto. nia. }
  split; [exact Hoff|].
  unfold CalculateAllocationSize. rewrite Hoff.
  rewrite (wrap_small (sizeof T * capacity)) by (unfold is_size_t; nia).
  apply wrap_small. unfold is_size_t. nia.
Qed.

Section Layout.
Context {A : Type} `{Allocator A}.

Lemma DoAllocate_layout Ts (h : A) capacity : forall offset,
  Forall well_formed_type Ts -> 0 <= capacity -> 0 <= offset ->
  spec_total_from offset Ts capacity < SIZE_MAX_plus_1 ->
  DoAllocate Ts h capacity offset = layout_result Ts h capacity offset.
Proof.
  induction Ts as [|T Ts' IH]; intros offset Hwf Hc Ho Hfit.
  - reflexivity.
  - inversion Hwf as [|? ? HT Hwf']; subst. simpl in Hfit.
    pose proof (spec_total_from_ge Ts' capacity
                  (align_up offset (alignof T) + sizeof T * capacity) Hwf' Hc) as Hge.
    destruct (CalculateAllocationSize_spec T offset capacity HT Ho Hc ltac:(lia)) as [Hoff Hsz].
    pose proof (align_up_bounds offset (alignof T) (proj1 (alignment_pos _ (proj1 HT)))) as Hb.
    destruct HT as [_ Hs].
    cbn [DoAllocate]. rewrite Hoff, Hsz.
    rewrite IH by (auto; nia).
    unfold layout_result. cbn [spec_total_from spec_offsets_from].
    destruct (capacity =? 0); [reflexivity|].
    destruct (allocate h _) as [[ptr h']|]; reflexivity.
Qed.

End Layout.

Lemma GetTotalAllocationSize_spec Ts capacity : forall offset,
  Forall well_formed_type Ts -> 0 <= capacity -> 0 <= offset ->
  spec_total_from offset Ts capacity < SIZE_MAX_plus_1 ->
  GetTotalAllocationSize Ts capacity offset = spec_total_from offset Ts capacity.
Proof.
  induction Ts as [|T Ts' IH]; intros offset Hwf Hc Ho Hfit; [reflexivity|].
  inversion Hwf as [|? ? HT Hwf']; subst. simpl in Hfit.
  pose proof (spec_total_from_ge Ts' capacity
                (align_up offset (alignof T) + sizeof T * capacity) Hwf' Hc) as Hge.
  destruct (CalculateAllocationSize_spec T offset capacity HT Ho Hc ltac:(lia)) as [_ Hsz].
  pose proof (align_up_bounds offset (alignof T) (proj1 (alignment_pos _ (proj1 HT)))) as Hb.
  destruct HT as [_ Hs].
  cbn [GetTotalAllocationSize spec_total_from]. rewrite Hsz. apply IH; auto. nia.
Qed.

Lemma spec_offsets_props Ts capacity : forall p i T o,
  Forall well_formed_type Ts -> 0 <= capacity ->
  Ts !! i = Some T -> spec_offsets_from p Ts capacity !! i = Some o ->
  o mod alignof T = 0 /\ p <= o /\
  o + sizeof T * capacity <= spec_total_from p Ts capacity /\
  (forall T' o', Ts !! S i = Some T' -> spec_offsets_from p Ts capacity !! S i = Some o' ->
     o' = align_up (o + sizeof T * capacity) (alignof T') /\
     o + sizeof T * capacity <= o').
Proof.
  induction Ts as [|T0 Ts' IH]; intros p i T o Hwf Hc HT Ho; [discriminate|].
  inversion Hwf as [|? ? [Ha Hs] Hwf']; subst.
  pose proof (alignment_pos _ Ha) as Hpos.
  destruct i as [|i]; simpl in *.
  - injection HT as <-. injection Ho as <-.
    pose proof (align_up_bounds p (alignof T0) (proj1 Hpos)).
    pose proof (spec_total_from_ge Ts' capacity
                  (align_up p (alignof T0) + sizeof T0 * capacity) Hwf' Hc).
    repeat split; try lia.
    + apply align_up_mod; lia.
    + destruct Ts' as [|T1 Ts'']; [discriminate|]. simpl in *. congruence.
    + destruct Ts' as [|T1 Ts'']; [discriminate|]. simpl in *.
      injection H2 as <-. injection H1 as <-.
      inversion Hwf' as [|? ? [Ha1 _] _]; subst.
      pose proof (align_up_bounds (align_up p (alignof T0) + sizeof T0 * capacity)
                    (alignof T1) (proj1 (alignment_pos _ Ha1))). lia.
  - destruct (IH (align_up p (alignof T0) + sizeof T0 * capacity) i T o Hwf' Hc HT Ho)
      as (Hm & Hge & Hend & Hnext).
    pose proof (align_up_bounds p (alignof T0) (proj1 Hpos)).
    repeat split; try lia; try nia.
    + intros. eapply Hnext; eauto.
    + intros. eapply Hnext; eauto.
Qed.

Lemma pow2_divide j k : 0 <= j <= k -> (2 ^ j | 2 ^ k).
Proof.
  intros Hjk. exists (2 ^ (k - j)). rewrite <- Z.pow_add_r by lia. f_equal. lia.
Qed.

(** The alignment of the block is a multiple of every column's. *)
Lemma GetTotalAlignment_divide Ts :
  Forall well_formed_type Ts ->
  (Ts = [] \/ is_alignment (GetTotalAlignment Ts)) /\
  forall T, In T Ts -> (alignof T | GetTotalAlignment Ts).
Proof.
  induction Ts as [|T0 Ts' IH]; intros Hwf.
  - split; [left; reflexivity|]. intros T [].
  - inversion Hwf as [|? ? [Ha Hs] Hwf']; subst.
    destruct (IH Hwf') as [Hpow Hdiv]. cbn [GetTotalAlignment].
    destruct Ha as (k & Hk & Hak). rewrite Hak.
    destruct Hpow as [->|(m & Hm & Hgm)].
    + cbn [GetTotalAlignment].
      assert (0 < 2 ^ k) by (apply Z.pow_pos_nonneg; lia).
      rewrite Z.max_l by lia.
      split; [right; exists k; auto|].
      intros T [<-|[]]. rewrite Hak. apply Z.divide_refl.
    + rewrite Hgm in *.
      destruct (Z_le_gt_dec k m) as [Hle|Hgt].
      * rewrite Z.max_r by (apply Z.pow_le_mono_r; lia).
        split; [right; exists m; auto|].
        intros T [<-|Hin]; [rewrite Hak; apply pow2_divide; lia|auto].
      * rewrite Z.max_l by (apply Z.pow_le_mono_r; lia).
        split; [right; exists k; auto|].
        intros T [<-|Hin]; [rewrite Hak; apply Z.divide_refl|].
        eapply Z.divide_trans; [apply Hdiv, Hin|]. apply pow2_divide. lia.
Qed.

Lemma spec_offsets_capacity_0 Ts :
  Forall well_formed_type Ts ->
  spec_total_from 0 Ts 0 = 0 /\
  map (fun o => wrap (nullptr + o)) (spec_offsets_from 0 Ts 0) = map (fun _ => nullptr) Ts.
Proof.
  induction Ts as [|T Ts' IH]; intros Hwf; [split; reflexivity|].
  inversion Hwf as [|? ? [Ha Hs] Hwf']; subst.
  destruct (IH Hwf') as [Ht Ho]. simpl.
  rewrite (align_up_0 (alignof T)) by (apply alignment_pos; auto).
  rewrite Z.mul_0_r. simpl. split; [exact Ht|]. f_equal. exact Ho.
Qed.

(** C9.  The layout is a function of the column types and the requested
    capacity alone: for column types with power-of-two alignment and a
    layout that fits [std::size_t], [DoAllocate] requests exactly the
    specified total size (which is also what [GetTotalAllocationSize]
    returns) and places column [i] at the specified offset
    (which is 0 for column 0 and [align_up] of the end of column [i-1]
    otherwise); every offset is a multiple of the column's alignment, and
    so is the leaf address when the block is aligned to
    [GetTotalAlignment]; the region of a column ends before the next one
    starts and inside the block; and for capacity 0 nothing is allocated,
    the block pointer and every leaf pointer being null. *)
Theorem layout_computation {A : Type} `{Allocator A} (Ts : list ColType) (capacity : Z) (h : A) :
  Forall well_formed_type Ts -> 0 <= capacity ->
  spec_total Ts capacity < SIZE_MAX_plus_1 ->
  DoAllocate Ts h capacity 0 = layout_result Ts h capacity 0 /\
  GetTotalAllocationSize Ts capacity 0 = spec_total Ts capacity /\
  (forall T, Ts !! 0%nat = Some T -> spec_offsets Ts capacity !! 0%nat = Some 0) /\
  (forall i T o, Ts !! i = Some T -> spec_offsets Ts capacity !! i = Some o ->
     o mod alignof T = 0 /\ 0 <= o /\
     o + sizeof T * capacity <= spec_total Ts capacity /\
     (forall T' o', Ts !! S i = Some T' -> spec_offsets Ts capacity !! S i = Some o' ->
        o' = align_up (o + sizeof T * capacity) (alignof T') /\
        o + sizeof T * capacity <= o')) /\
  (forall ptr i T o, Ts !! i = Some T -> spec_offsets Ts capacity !! i = Some o ->
     0 <= ptr -> ptr + spec_total Ts capacity < SIZE_MAX_plus_1 ->
     (GetTotalAlignment Ts | ptr) ->
     wrap (ptr + o) mod alignof T = 0) /\
  DoAllocate Ts h 0 0 = Some (h, (nullptr, 0), map (fun _ => nullptr) Ts).
Proof.
  intros Hwf Hc Hfit. unfold spec_total, spec_offsets in *.
  split; [|split; [|split; [|split; [|split]]]].
  - apply DoAllocate_layout; auto. lia.
  - apply GetTotalAllocationSize_spec; auto. lia.
  - intros T HT. destruct Ts as [|T0 Ts']; [discriminate|].
    inversion Hwf as [|? ? [Ha _] _]; subst. simpl.
    rewrite align_up_0 by (apply alignment_pos; auto). reflexivity.
  - intros i T o HT Ho. eapply spec_offsets_props; eauto.
  - intros ptr i T o HT Ho Hptr Hroom Hal.
    destruct (spec_offsets_props Ts capacity 0 i T o Hwf Hc HT Ho) as (Hm & H0 & Hend & _).
    assert (Hin : In T Ts) by (apply list_elem_of_In; eapply list_elem_of_lookup_2; eauto).
    assert (HT' : well_formed_type T) by (rewrite List.Forall_forall in Hwf; auto).
    pose proof (alignment_pos _ (proj1 HT')) as Hpos.
    rewrite wrap_small by (unfold is_size_t; destruct HT'; nia).
    apply Z.mod_divide; [lia|]. apply Z.divide_add_r.
    + eapply Z.divide_trans; [|exact Hal].
      apply (proj2 (GetTotalAlignment_divide Ts Hwf)). exact Hin.
    + apply Z.mod_divide; [lia|exact Hm].
  - destruct (spec_offsets_capacity_0 Ts Hwf) as [Ht Ho].
    rewrite DoAllocate_layout; auto; try lia.
    + unfold layout_result. simpl. rewrite Ht, Ho. reflexivity.
    + rewrite Ht. unfold SIZE_MAX_plus_1. lia.
Qed.

(** The layout of an [(int, double, char)] container of capacity 3 on the
    bump heap. *)
Lemma layout_computation_witness :
  DoAllocate [int_t; double_t; char_t] (mkBump 4096 []) 3 0
    = layout_result [int_t; double_t; char_t] (mkBump 4096 []) 3 0 /\
  spec_offsets [int_t; double_t; char_t] 3 = [0; 16; 40] /\
  (forall T, [int_t; double_t; char_t] !! 0%nat = Some T ->
     spec_offsets [int_t; double_t; char_t] 3 !! 0%nat = Some 0).
Proof.
  assert (Hwf : Forall well_formed_type [int_t; double_t; char_t]).
  { repeat constructor; simpl; try lia;
      [exists 2 | exists 3 | exists 0]; split; (lia || reflexivity). }
  pose proof (layout_computation [int_t; double_t; char_t] 3 (mkBump 4096 []) Hwf
                ltac:(lia) ltac:(vm_compute; reflexivity)) as (H1 & _ & H2 & _).
  split; [exact H1|]. split; [reflexivity|exact H2].
Defined.

(* ===================================================================== *)
(** ** The random access iterator *)
(* ===================================================================== *)

Lemma wrap_add_idemp_l x y : wrap (wrap x + y) = wrap (x + y).
Proof. unfold wrap. apply Zplus_mod_idemp_l. Qed.

Lemma wrap_sub_idemp_l x y : wrap (wrap x - y) = wrap (x - y).
Proof. unfold wrap. apply Zminus_mod_idemp_l. Qed.

Lemma wrap_add_idemp_r x y : wrap (x + wrap y) = wrap (x + y).
Proof. unfold wrap. apply Zplus_mod_idemp_r. Qed.

Lemma wrap_shift x y n :
  is_size_t x -> is_size_t y -> is_size_t n ->
  wrap (y - x) = n <-> wrap (x + n) = y.
Proof.
  unfold is_size_t, wrap, SIZE_MAX_plus_1. intros Hx Hy Hn.
  split; intros E.
  - destruct (Z_lt_le_dec (y - x) 0).
    + assert (E' : (y - x) mod 2 ^ 64 = y - x + 2 ^ 64).
      { symmetry. apply (Z.mod_unique_pos _ _ (-1)); lia. }
      symmetry. apply (Z.mod_unique_pos _ _ 1); lia.
    + rewrite Z.mod_small in E by lia. rewrite Z.mod_small; lia.
  - destruct (Z_lt_le_dec (x + n) (2 ^ 64)).
    + rewrite Z.mod_small in E by lia. rewrite Z.mod_small; lia.
    + assert (E' : (x + n) mod 2 ^ 64 = x + n - 2 ^ 64).
      { symmetry. apply (Z.mod_unique_pos _ _ 1); lia. }
      symmetry. apply (Z.mod_unique_pos _ _ (-1)); lia.
Qed.

Lemma neq_negb_eq (a b : TupleVecIter.t) :
  TupleVecIter.neq a b = negb (TupleVecIter.eq a b).
Proof.
  unfold TupleVecIter.eq, TupleVecIter.neq. destruct (_ =? _), (_ =? _); reflexivity.
Qed.

(** C7.  [a == b] holds exactly when the indices agree and the column-0
    pointers agree; [operator!=] is its negation; and the pointers of the
    other columns have no part in the comparison. *)
Theorem iterator_equality (a b : TupleVecIter.t) :
  (TupleVecIter.eq a b = true <->
     TupleVecIter.mIndex a = TupleVecIter.mIndex b /\
     TupleVecIter.mpData0 a = TupleVecIter.mpData0 b) /\
  TupleVecIter.neq a b = negb (TupleVecIter.eq a b) /\
  (forall i j p q rest_a rest_b,
     TupleVecIter.eq (TupleVecIter.mk i (p :: rest_a)) (TupleVecIter.mk j (q :: rest_b))
       = (i =? j) && (p =? q)).
Proof.
  split; [unfold TupleVecIter.eq; split|split].
  - intros E. apply andb_true_iff in E as [E1 E2]. lia.
  - intros [E1 E2]. rewrite E1, E2, !Z.eqb_refl. reflexivity.
  - apply neq_negb_eq.
  - reflexivity.
Qed.

(** C6.  Iterator arithmetic acts on the index alone, modulo 2^64:
    adding offsets is associative, the difference of two iterators over
    the same storage is [n] exactly when the first plus [n] equals the
    second, [(it + k) - it] is [k], and [it + k] equals [k + it]. *)
Theorem iterator_algebra (it it1 it2 : TupleVecIter.t) (a b k n : size_type) :
  is_size_t k -> is_size_t n ->
  is_size_t (TupleVecIter.mIndex it1) -> is_size_t (TupleVecIter.mIndex it2) ->
  TupleVecIter.mpData0 it1 = TupleVecIter.mpData0 it2 ->
  TupleVecIter.eq (TupleVecIter.plus (TupleVecIter.plus it a) b)
                  (TupleVecIter.plus it (wrap (a + b))) = true /\
  (TupleVecIter.diff it2 it1 = n <-> TupleVecIter.eq (TupleVecIter.plus it1 n) it2 = true) /\
  TupleVecIter.diff (TupleVecIter.plus it k) it = k /\
  TupleVecIter.eq (TupleVecIter.plus it k) (TupleVecIter.plus_l k it) = true.
Proof.
  intros Hk Hn H1 H2 Hp.
  unfold TupleVecIter.eq, TupleVecIter.plus, TupleVecIter.plus_l, TupleVecIter.add_assign,
    TupleVecIter.diff, TupleVecIter.mpData0 in *. cbn.
  split; [|split; [split|split]].
  - rewrite wrap_add_idemp_l, wrap_add_idemp_r, Z.add_assoc, !Z.eqb_refl. reflexivity.
  - intros E. apply (wrap_shift _ _ _ H1 H2 Hn) in E.
    rewrite E, Hp, !Z.eqb_refl. reflexivity.
  - intros E. apply andb_true_iff in E as [E _].
    apply (wrap_shift _ _ _ H1 H2 Hn). lia.
  - rewrite wrap_sub_idemp_l.
    replace (TupleVecIter.mIndex it + k - TupleVecIter.mIndex it) with k by lia.
    apply wrap_small; auto.
  - rewrite !Z.eqb_refl. reflexivity.
Qed.

(** The laws at index 1 and index 4 of one container, with offsets 2 and 3. *)
Lemma iterator_algebra_witness :
  TupleVecIter.eq
    (TupleVecIter.plus (TupleVecIter.plus (TupleVecIter.mk 1 [4096; 4112]) 2) 3)
    (TupleVecIter.plus (TupleVecIter.mk 1 [4096; 4112]) (wrap (2 + 3))) = true /\
  (TupleVecIter.diff (TupleVecIter.mk 4 [4096; 4112]) (TupleVecIter.mk 1 [4096; 4112]) = 3 <->
   TupleVecIter.eq (TupleVecIter.plus (TupleVecIter.mk 1 [4096; 4112]) 3)
                   (TupleVecIter.mk 4 [4096; 4112]) = true) /\
  TupleVecIter.diff (TupleVecIter.plus (TupleVecIter.mk 1 [4096; 4112]) 2)
                    (TupleVecIter.mk 1 [4096; 4112]) = 2 /\
  TupleVecIter.eq (TupleVecIter.plus (TupleVecIter.mk 1 [4096; 4112]) 2)
                  (TupleVecIter.plus_l 2 (TupleVecIter.mk 1 [4096; 4112])) = true.
Proof.
  apply (iterator_algebra (TupleVecIter.mk 1 [4096; 4112]) (TupleVecIter.mk 1 [4096; 4112])
           (TupleVecIter.mk 4 [4096; 4112]) 2 3 2 3);
    try (unfold is_size_t, SIZE_MAX_plus_1; simpl; lia); reflexivity.
Defined.

(* ===================================================================== *)
(** ** Growth and reallocation *)
(* ===================================================================== *)

Section Growth.
Context {V A : Type} `{Allocator A} {EV : MoveAssignable V}.
Variable Ts : list ColType.

Local Abbreviation vec := (TupleVecImpl V).

Lemma DoAllocate_total :
  (forall (h : A) bytes, is_Some (allocate h bytes)) ->
  forall Ts0 (h : A) c o, is_Some (DoAllocate Ts0 h c o).
Proof.
  intros Hnf Ts0. induction Ts0 as [|T Ts' IH]; intros h c o; simpl.
  - destruct (c =? 0); [eauto|].
    destruct (Hnf h o) as [[p h'] ->]. eauto.
  - destruct (IH h c (CalculateAllocationSize T o c)) as [[[h' al] l] ->]. eauto.
Qed.

(** The two ways [DoReallocate] can end. *)
Lemma DoReallocate_cases (h : A) (v : vec) o r :
  match DoReallocate Ts h v o r with
  | Done _ _ v' => mNumCapacity v' = r /\ mNumElements v' = mNumElements v /\
                   is_Some (DoAllocate Ts h r 0)
  | Threw h' v' => h' = h /\ v' = v /\ DoAllocate Ts h r 0 = None
  end.
Proof.
  unfold DoReallocate. destruct (DoAllocate Ts h r 0) as [[[h1 al] l]|]; simpl; eauto.
Qed.

Lemma each_leaf_arg_sizes f args (v : vec) :
  mNumElements (each_leaf_arg f args v) = mNumElements v /\
  mNumCapacity (each_leaf_arg f args v) = mNumCapacity v /\
  mpData (each_leaf_arg f args v) = mpData v.
Proof. repeat split. Qed.

(** The two ways a [push_back] can end: with the element count advanced
    and the capacity grown from the required capacity if that exceeded
    the old one, or thrown out of the allocation, the element count
    already advanced. *)
Lemma push_back_cases (h : A) (v : vec) args :
  let required := wrap (mNumElements v + 1) in
  match push_back Ts h v args with
  | Done _ _ v' =>
      mNumElements v' = required /\
      mNumCapacity v' = (if required >? mNumCapacity v then GetNewCapacity required
                         else mNumCapacity v)
  | Threw h' v' =>
      h' = h /\ v' = set_mNumElements required v /\
      required > mNumCapacity v /\ DoAllocate Ts h (GetNewCapacity required) 0 = None
  end.
Proof.
  unfold push_back, DoGrow. cbn zeta.
  destruct (Z.gtb_spec (wrap (mNumElements v + 1)) (mNumCapacity v)) as [Hgt|Hle].
  - pose proof (DoReallocate_cases h (set_mNumElements (wrap (mNumElements v + 1)) v)
                  (mNumElements v) (GetNewCapacity (wrap (mNumElements v + 1)))) as Hc.
    destruct (DoReallocate _ _ _ _ _) as [[] h' v'|h' v']; simpl.
    + destruct Hc as (Hc1 & Hc2 & _). auto.
    + destruct Hc as (-> & -> & Hc3). repeat split; auto. lia.
  - simpl. auto.
Qed.

Lemma push_back_uninitialized_cases (h : A) (v : vec) :
  let required := wrap (mNumElements v + 1) in
  match push_back_uninitialized Ts h v with
  | Done _ _ v' =>
      mNumElements v' = required /\
      mNumCapacity v' = (if required >? mNumCapacity v then GetNewCapacity required
                         else mNumCapacity v)
  | Threw h' v' =>
      h' = h /\ v' = set_mNumElements required v /\
      required > mNumCapacity v /\ DoAllocate Ts h (GetNewCapacity required) 0 = None
  end.
Proof.
  unfold push_back_uninitialized, DoGrow. cbn zeta.
  destruct (Z.gtb_spec (wrap (mNumElements v + 1)) (mNumCapacity v)) as [Hgt|Hle].
  - pose proof (DoReallocate_cases h (set_mNumElements (wrap (mNumElements v + 1)) v)
                  (mNumElements v) (GetNewCapacity (wrap (mNumElements v + 1)))) as Hc.
    destruct (DoReallocate _ _ _ _ _) as [[] h' v'|h' v']; simpl.
    + destruct Hc as (Hc1 & Hc2 & _). auto.
    + destruct Hc as (-> & -> & Hc3). repeat split; auto. lia.
  - simpl. auto.
Qed.

Lemma emplace_back_push_back (h : A) (v : vec) args :
  emplace_back Ts h v args = push_back Ts h v args.
Proof. reflexivity. Qed.

Lemma resize_cases (h : A) (v : vec) n args :
  mNumElements v <= mNumCapacity v -> mNumCapacity v < n ->
  match resize Ts h v n args with
  | Done _ _ v' =>
      mNumElements v' = n /\
      mNumCapacity v' = Z.max (GetNewCapacity (mNumCapacity v)) n
  | Threw h' v' =>
      h' = h /\ v' = set_mNumElements n v /\
      DoAllocate Ts h (Z.max (GetNewCapacity (mNumCapacity v)) n) 0 = None
  end.
Proof.
  intros Hle Hlt. unfold resize. cbn zeta.
  destruct (Z.gtb_spec n (mNumElements v)); [|lia].
  destruct (Z.gtb_spec n (mNumCapacity v)); [|lia].
  pose proof (DoReallocate_cases h (set_mNumElements n v) (mNumElements v)
                (Z.max (GetNewCapacity (mNumCapacity v)) n)) as Hc.
  destruct (DoReallocate _ _ _ _ _) as [[] h' v'|h' v']; simpl.
  - destruct Hc as (Hc1 & Hc2 & _). auto.
  - destruct Hc as (-> & -> & Hc3). auto.
Qed.

Lemma GetNewCapacity_double c :
  0 < c -> 2 * c < SIZE_MAX_plus_1 -> GetNewCapacity c = 2 * c.
Proof.
  intros Hc Hfit. unfold GetNewCapacity.
  destruct (Z.gtb_spec c 0); [|lia]. apply wrap_small. unfold is_size_t. lia.
Qed.

Lemma push_back_all_chain (Hnf : forall (h : A) bytes, is_Some (allocate h bytes)) rows :
  forall (h : A) (v : vec),
  0 <= mNumElements v ->
  mNumElements v + Z.of_nat (length rows) < 2 ^ 62 ->
  on_push_chain (mNumElements v) (mNumCapacity v) ->
  exists h' v', push_back_all Ts h v rows = Done tt h' v' /\
    mNumElements v' = mNumElements v + Z.of_nat (length rows) /\
    on_push_chain (mNumElements v') (mNumCapacity v').
Proof.
  induction rows as [|args rows' IH]; intros h v H0 Hlen Hch.
  - exists h, v. simpl. repeat split; auto. lia.
  - simpl in Hlen. cbn [push_back_all].
    pose proof (push_back_cases h v args) as Hc. cbn zeta in Hc.
    assert (Hreq : wrap (mNumElements v + 1) = mNumElements v + 1).
    { apply wrap_small. unfold is_size_t, SIZE_MAX_plus_1. lia. }
    rewrite Hreq in Hc.
    destruct (push_back Ts h v args) as [[] h1 v1|h1 v1].
    + destruct Hc as [Hs Hcap]. simpl.
      destruct (IH h1 v1) as (h' & v' & E & Hs' & Hch'); try lia.
      * rewrite Hs, Hcap. destruct Hch as (k & Hk & Hck & Hlo & Hhi).
        destruct (Z.gtb_spec (mNumElements v + 1) (mNumCapacity v)) as [Hgt|Hle].
        -- rewrite GetNewCapacity_double by (unfold SIZE_MAX_plus_1; lia).
           exists (k + 1). replace (k + 1 + 1) with (Z.succ (k + 1)) by lia.
           rewrite Z.pow_succ_r by lia. lia.
        -- exists k. lia.
      * exists h', v'. repeat split; auto. lia.
    + exfalso. destruct Hc as (_ & _ & _ & Hnone).
      destruct (DoAllocate_total Hnf Ts h (GetNewCapacity (mNumElements v + 1)) 0) as [x Hx].
      congruence.
Qed.

End Growth.

(** C1 (as the code has it).  On a heap that never runs out: a
    [push_back], [push_back_uninitialized] or [emplace_back] whose
    required capacity [size + 1] exceeds the capacity completes with
    capacity [2 * (size + 1)] ([DoGrow] doubles the required capacity, not
    the old one); a [resize] past the capacity completes with capacity
    [max(2 * oldCapacity, n)], an old capacity of 0 counting as 1; and
    after [n] [push_back]s on an empty container the size is [n] and the
    capacity is the smallest member at least [n] of the chain
    0, 2, 6, 14, 30, ... *)
Theorem growth_policy {V A : Type} `{Allocator A} (Ts : list ColType) :
  (forall (h : A) bytes, is_Some (allocate h bytes)) ->
  (forall (h : A) (v : TupleVecImpl V) args,
     0 <= size v -> size v + 1 < 2 ^ 63 -> capacity v < size v + 1 ->
     exists h1 v1 h2 v2 h3 v3,
       push_back Ts h v args = Done tt h1 v1 /\
       push_back_uninitialized Ts h v = Done tt h2 v2 /\
       emplace_back Ts h v args = Done tt h3 v3 /\
       capacity v1 = 2 * (size v + 1) /\
       capacity v2 = 2 * (size v + 1) /\
       capacity v3 = 2 * (size v + 1)) /\
  (forall (h : A) (v : TupleVecImpl V) n args,
     0 <= capacity v -> 2 * capacity v < SIZE_MAX_plus_1 ->
     size v <= capacity v -> capacity v < n ->
     exists h' v',
       resize Ts h v n args = Done tt h' v' /\
       capacity v' = Z.max (if capacity v =? 0 then 1 else 2 * capacity v) n) /\
  (forall (h : A) (rows : list (list V)),
     Z.of_nat (length rows) < 2 ^ 62 ->
     exists h' v',
       push_back_all Ts h (empty_vec Ts) rows = Done tt h' v' /\
       size v' = Z.of_nat (length rows) /\
       on_push_chain (Z.of_nat (length rows)) (capacity v')).
Proof.
  intros Hnf. unfold size, capacity. split; [|split].
  - intros h v args H0 Hfit Hgrow.
    assert (Hreq : wrap (mNumElements v + 1) = mNumElements v + 1).
    { apply wrap_small. unfold is_size_t, SIZE_MAX_plus_1. lia. }
    assert (Hcap : (if wrap (mNumElements v + 1) >? mNumCapacity v
                    then GetNewCapacity (wrap (mNumElements v + 1))
                    else mNumCapacity v) = 2 * (mNumElements v + 1)).
    { rewrite Hreq. destruct (Z.gtb_spec (mNumElements v + 1) (mNumCapacity v)); [|lia].
      apply GetNewCapacity_double; unfold SIZE_MAX_plus_1; lia. }
    assert (Hok : is_Some (DoAllocate Ts h (GetNewCapacity (wrap (mNumElements v + 1))) 0))
      by (apply DoAllocate_total; auto).
    pose proof (push_back_cases Ts h v args) as Hc1.
    pose proof (push_back_uninitialized_cases Ts h v) as Hc2.
    change (emplace_back Ts h v args) with (push_back Ts h v args).
    cbn zeta in Hc1, Hc2.
    destruct (push_back Ts h v args) as [[] h1 v1|h1 v1];
      [|destruct Hc1 as (_ & _ & _ & Hn); rewrite Hn in Hok; destruct Hok; discriminate].
    destruct (push_back_uninitialized Ts h v) as [[] h2 v2|h2 v2];
      [|destruct Hc2 as (_ & _ & _ & Hn); rewrite Hn in Hok; destruct Hok; discriminate].
    exists h1, v1, h2, v2, h1, v1.
    destruct Hc1 as [_ Hc1]. destruct Hc2 as [_ Hc2].
    rewrite Hcap in Hc1, Hc2. auto 10.
  - intros h v n args H0 Hfit Hle Hlt.
    pose proof (resize_cases Ts h v n args Hle Hlt) as Hc.
    assert (Hok : is_Some (DoAllocate Ts h (Z.max (GetNewCapacity (mNumCapacity v)) n) 0))
      by (apply DoAllocate_total; auto).
    destruct (resize Ts h v n args) as [[] h' v'|h' v'];
      [|destruct Hc as (_ & _ & Hn); rewrite Hn in Hok; destruct Hok; discriminate].
    exists h', v'. split; [reflexivity|]. destruct Hc as [_ ->]. f_equal.
    unfold GetNewCapacity.
    destruct (Z.gtb_spec (mNumCapacity v) 0), (Z.eqb_spec (mNumCapacity v) 0); try lia.
    apply wrap_small. unfold is_size_t. lia.
  - intros h rows Hlen.
    destruct (push_back_all_chain Ts Hnf rows h (empty_vec Ts)) as (h' & v' & E & Hs & Hch);
      simpl; try lia.
    + exists 0. simpl. lia.
    + exists h', v'. simpl in Hs. rewrite Hs in Hch. auto.
Qed.

(** The bump heap never fails; three [push_back]s of [int] rows on it. *)
Lemma growth_policy_witness :
  (forall (h : Bump) bytes, is_Some (allocate h bytes)) /\
  exists h' v',
    push_back_all [int_t] (mkBump 4096 []) (empty_vec [int_t]) [[10]; [20]; [30]]
      = Done tt h' v' /\
    size v' = 3 /\ on_push_chain 3 (capacity v').
Proof.
  assert (Hnf : forall (h : Bump) bytes, is_Some (allocate h bytes))
    by (intros h bytes; eexists; reflexivity).
  split; [exact Hnf|].
  destruct (growth_policy (V:=Z) [int_t] Hnf) as (_ & _ & Hall).
  apply (Hall (mkBump 4096 []) [[10]; [20]; [30]]). simpl. lia.
Defined.

(** C1 as stated fails: the first [push_back] on an empty container
    yields capacity 2, not [max(GetNewCapacity(0), 1) = 1], and three
    [push_back]s yield capacity 6, which no doubling from 1 reaches. *)
Lemma growth_policy_counterexample :
  exists h1 v1 h3 v3,
    push_back [int_t] (mkBump 4096 []) (empty_vec [int_t]) [10] = Done tt h1 v1 /\
    capacity v1 = 2 /\
    capacity v1 <> Z.max (GetNewCapacity (capacity (empty_vec (V:=Z) [int_t]))) 1 /\
    push_back_all [int_t] (mkBump 4096 []) (empty_vec [int_t]) [[10]; [20]; [30]]
      = Done tt h3 v3 /\
    capacity v3 = 6 /\ capacity v3 <> 4.
Proof.
  do 4 eexists. split; [vm_compute; reflexivity|].
  split; [reflexivity|]. split; [vm_compute; discriminate|].
  split; [vm_compute; reflexivity|]. split; [reflexivity|discriminate].
Qed.

(* ===================================================================== *)
(** ** Reading and writing slots *)
(* ===================================================================== *)

(** Case analysis on the integer comparisons of the goal. *)
Ltac zbool :=
  repeat match goal with
         | |- context [?a <=? ?b] => destruct (Z.leb_spec a b)
         | |- context [?a <? ?b] => destruct (Z.ltb_spec a b)
         | |- context [?a =? ?b] => destruct (Z.eqb_spec a b)
         | |- context [?a >? ?b] => destruct (Z.gtb_spec a b)
         end;
  simpl; try reflexivity; try lia.

Section Slots.
Context {V : Type}.

Local Abbreviation region := (list (slot V)).

Lemma length_write_slot i x (a : region) : length (write_slot i x a) = length a.
Proof. unfold write_slot. destruct (i <? 0); [reflexivity|apply length_insert]. Qed.

Lemma read_write_eq i x (a : region) :
  0 <= i < Z.of_nat (length a) -> read_slot (write_slot i x a) i = x.
Proof.
  intros Hi. unfold read_slot, write_slot.
  destruct (Z.ltb_spec i 0); [lia|].
  rewrite list_lookup_insert_eq by lia. reflexivity.
Qed.

Lemma read_write_ne i j x (a : region) :
  i <> j -> read_slot (write_slot i x a) j = read_slot a j.
Proof.
  intros Hne. unfold read_slot, write_slot.
  destruct (Z.ltb_spec j 0); [reflexivity|].
  destruct (Z.ltb_spec i 0); [reflexivity|].
  rewrite list_lookup_insert_ne by lia. reflexivity.
Qed.

Lemma read_outside (a : region) i :
  Z.of_nat (length a) <= i -> read_slot a i = Raw.
Proof.
  intros Hi. unfold read_slot. destruct (i <? 0); [reflexivity|].
  rewrite lookup_ge_None_2 by lia. reflexivity.
Qed.

Lemma lookup_read (a : region) (i : nat) :
  (i < length a)%nat -> a !! i = Some (read_slot a (Z.of_nat i)).
Proof.
  intros Hi. unfold read_slot. destruct (Z.ltb_spec (Z.of_nat i) 0); [lia|].
  rewrite Nat2Z.id. destruct (lookup_lt_is_Some_2 a i Hi) as [x ->]. reflexivity.
Qed.

(** Regions of one length that read alike are the same. *)
Lemma region_ext (a b : region) :
  length a = length b ->
  (forall i, 0 <= i < Z.of_nat (length a) -> read_slot a i = read_slot b i) ->
  a = b.
Proof.
  intros Hlen Hrd. apply list_eq. intros i.
  destruct (Nat.lt_ge_cases i (length a)) as [Hi|Hi].
  - rewrite !lookup_read by lia. f_equal. apply Hrd. lia.
  - rewrite !lookup_ge_None_2 by lia. reflexivity.
Qed.

Lemma read_app (a b : region) i :
  0 <= i ->
  read_slot (a ++ b) i =
    if i <? Z.of_nat (length a) then read_slot a i else read_slot b (i - Z.of_nat (length a)).
Proof.
  intros Hi. unfold read_slot.
  destruct (Z.ltb_spec i 0); [lia|].
  destruct (Z.ltb_spec i (Z.of_nat (length a))).
  - rewrite lookup_app_l by lia. reflexivity.
  - destruct (Z.ltb_spec (i - Z.of_nat (length a)) 0); [lia|].
    rewrite lookup_app_r by lia. do 2 f_equal. lia.
Qed.

Lemma read_take (a : region) (n : nat) i :
  read_slot (take n a) i = if i <? Z.of_nat n then read_slot a i else Raw.
Proof.
  unfold read_slot. destruct (Z.ltb_spec i 0).
  - destruct (i <? Z.of_nat n); reflexivity.
  - destruct (Z.ltb_spec i (Z.of_nat n)).
    + rewrite lookup_take_lt by lia. reflexivity.
    + rewrite lookup_take_ge by lia. reflexivity.
Qed.

Lemma read_drop (a : region) (n : nat) i :
  0 <= i -> read_slot (drop n a) i = read_slot a (i + Z.of_nat n).
Proof.
  intros Hi. unfold read_slot.
  destruct (Z.ltb_spec i 0); [lia|].
  destruct (Z.ltb_spec (i + Z.of_nat n) 0); [lia|].
  rewrite lookup_drop. do 2 f_equal. lia.
Qed.

Lemma read_replicate (n : nat) (x : slot V) i :
  read_slot (replicate n x) i = if (0 <=? i) && (i <? Z.of_nat n) then x else Raw.
Proof.
  unfold read_slot. destruct (Z.ltb_spec i 0), (Z.leb_spec 0 i); try lia; simpl; auto.
  destruct (Z.ltb_spec i (Z.of_nat n)).
  - rewrite lookup_replicate_2 by lia. reflexivity.
  - rewrite lookup_ge_None_2 by (rewrite length_replicate; lia). reflexivity.
Qed.

(** *** Loops *)

Lemma for_each_offset_snoc {M} (cnt : nat) : forall k (body : Z -> M -> M) (m : M),
  for_each_offset (S cnt) k body m
    = body (k + Z.of_nat cnt) (for_each_offset cnt k body m).
Proof.
  induction cnt as [|c IH]; intros k body m.
  - simpl. f_equal. lia.
  - change (for_each_offset (S (S c)) k body m)
      with (for_each_offset (S c) (k + 1) body (body k m)).
    rewrite IH. cbn [for_each_offset]. f_equal. lia.
Qed.

Lemma for_each_offset_ext {M} (cnt : nat) (body1 body2 : Z -> M -> M) :
  forall k m,
  (forall j m', k <= j < k + Z.of_nat cnt -> body1 j m' = body2 j m') ->
  for_each_offset cnt k body1 m = for_each_offset cnt k body2 m.
Proof.
  induction cnt as [|c IH]; intros k m Hb; [reflexivity|].
  cbn [for_each_offset]. rewrite Hb by lia. apply IH. intros. apply Hb. lia.
Qed.

Lemma for_each_offset_id {M} (cnt : nat) (body : Z -> M -> M) :
  forall k m,
  (forall j m', k <= j < k + Z.of_nat cnt -> body j m' = m') ->
  for_each_offset cnt k body m = m.
Proof.
  induction cnt as [|c IH]; intros k m Hb; [reflexivity|].
  cbn [for_each_offset]. rewrite Hb by lia. apply IH. intros. apply Hb. lia.
Qed.

(** A loop of writes of one slot value over [first, first + cnt). *)
Lemma write_loop_spec (cnt : nat) first (s : slot V) (a : region) :
  0 <= first -> first + Z.of_nat cnt <= Z.of_nat (length a) ->
  let res := for_each_offset cnt 0 (fun k => write_slot (first + k) s) a in
  length res = length a /\
  forall x, read_slot res x =
    if (first <=? x) && (x <? first + Z.of_nat cnt) then s else read_slot a x.
Proof.
  intros H0. induction cnt as [|c IH]; intros Hfit res.
  - split; [reflexivity|]. intros x. simpl. zbool.
  - subst res. rewrite for_each_offset_snoc.
    destruct IH as [Hlen Hrd]; [lia|].
    split; [rewrite length_write_slot; exact Hlen|].
    intros x. destruct (Z.eq_dec x (first + Z.of_nat c)) as [->|Hne].
    + rewrite Z.add_0_l, read_write_eq by lia. zbool.
    + rewrite Z.add_0_l, read_write_ne by lia. rewrite Hrd. zbool.
Qed.

End Slots.

(* ===================================================================== *)
(** ** The relocation loops *)
(* ===================================================================== *)

Section Moves.
Context {V : Type} {EV : MoveAssignable V}.

Local Abbreviation region := (list (slot V)).

Lemma length_move_construct d s (a : region) : length (move_construct d s a) = length a.
Proof. unfold move_construct. rewrite !length_write_slot. reflexivity. Qed.

(** A loop of relocations [dst k <- src k] in which no slot is read after
    it has been written: every destination ends with what its source held
    at the start, every source that is no destination ends as a husk, and
    all other slots are as before. *)
Lemma moves_spec (cnt : nat) (dst src : Z -> Z) (a : region) :
  (forall k, 0 <= k < Z.of_nat cnt ->
     0 <= dst k < Z.of_nat (length a) /\ 0 <= src k < Z.of_nat (length a)) ->
  (forall j k, 0 <= j < Z.of_nat cnt -> 0 <= k < Z.of_nat cnt -> src j = dst k -> j < k) ->
  (forall j k, 0 <= j < Z.of_nat cnt -> 0 <= k < Z.of_nat cnt -> dst j = dst k -> j = k) ->
  (forall j k, 0 <= j < Z.of_nat cnt -> 0 <= k < Z.of_nat cnt -> src j = src k -> j = k) ->
  let res := for_each_offset cnt 0 (fun k => move_construct (dst k) (src k)) a in
  length res = length a /\
  (forall k, 0 <= k < Z.of_nat cnt -> read_slot res (dst k) = read_slot a (src k)) /\
  (forall k, 0 <= k < Z.of_nat cnt ->
     (forall j, 0 <= j < Z.of_nat cnt -> dst j <> src k) -> read_slot res (src k) = Husk) /\
  (forall x, (forall k, 0 <= k < Z.of_nat cnt -> dst k <> x /\ src k <> x) ->
     read_slot res x = read_slot a x).
Proof.
  induction cnt as [|c IH]; intros Hin Hord Hdst Hsrc res.
  - subst res. simpl. repeat split; intros; try lia; reflexivity.
  - destruct IH as (Hlen & HA & HB & HC).
    { intros. apply Hin. lia. }
    { intros. apply Hord; auto; lia. }
    { intros. apply Hdst; auto; lia. }
    { intros. apply Hsrc; auto; lia. }
    subst res. rewrite for_each_offset_snoc, Z.add_0_l.
    set (r := for_each_offset c 0 (fun k => move_construct (dst k) (src k)) a) in *.
    set (zc := Z.of_nat c) in *.
    assert (Hzc : 0 <= zc < Z.of_nat (S c)) by lia.
    destruct (Hin zc Hzc) as [Hdin Hsin].
    assert (Hread : read_slot r (src zc) = read_slot a (src zc)).
    { apply HC. intros k Hk. split; intros E.
      - symmetry in E. apply Hord in E; lia.
      - apply Hsrc in E; lia. }
    assert (Hsd : src zc <> dst zc).
    { intros E. apply Hord in E; lia. }
    unfold move_construct. rewrite Hread.
    split; [rewrite !length_write_slot; exact Hlen|]. split; [|split].
    + intros k Hk.
      assert (Hne : src zc <> dst k).
      { intros E. apply Hord in E; lia. }
      rewrite read_write_ne by exact Hne.
      destruct (Z.eq_dec k zc) as [->|Hkc].
      * apply read_write_eq. rewrite Hlen. exact Hdin.
      * rewrite read_write_ne by (intros E; apply Hdst in E; lia).
        apply HA. lia.
    + intros k Hk Hnd.
      destruct (Z.eq_dec k zc) as [->|Hkc].
      * apply read_write_eq. rewrite length_write_slot, Hlen. exact Hsin.
      * rewrite read_write_ne by (intros E; apply Hsrc in E; lia).
        rewrite read_write_ne by (apply Hnd; lia).
        apply HB; [lia|]. intros j Hj. apply Hnd. lia.
    + intros x Hx. destruct (Hx zc Hzc) as [Hx1 Hx2].
      rewrite !read_write_ne by auto.
      apply HC. intros k Hk. apply Hx. lia.
Qed.

(** Relocation of [first, last) to [d, d + (last - first)), front to
    back, the destination starting below the source or lying clear behind it. *)
Lemma forward_moves_spec first last d (a : region) :
  0 <= d -> 0 <= first <= last -> last <= Z.of_nat (length a) ->
  d + (last - first) <= Z.of_nat (length a) ->
  d < first \/ last <= d ->
  let res := for_each_offset (Z.to_nat (last - first)) 0
               (fun k => move_construct (d + k) (first + k)) a in
  length res = length a /\
  forall x, read_slot res x =
    if (d <=? x) && (x <? d + (last - first)) then read_slot a (x - d + first)
    else if (first <=? x) && (x <? last) then Husk
    else read_slot a x.
Proof.
  intros Hd Hfl Hlast Hfit Hdir res.
  destruct (moves_spec (Z.to_nat (last - first)) (fun k => d + k) (fun k => first + k) a)
    as (Hlen & HA & HB & HC); try (intros; lia).
  fold res in Hlen, HA, HB, HC.
  split; [exact Hlen|]. intros x.
  destruct (Z.leb_spec d x), (Z.ltb_spec x (d + (last - first))); simpl.
  - replace x with (d + (x - d)) at 1 by lia. rewrite HA by lia. f_equal. lia.
  - destruct (Z.leb_spec first x), (Z.ltb_spec x last); simpl;
      try (apply HC; intros; lia).
    replace x with (first + (x - first)) by lia. apply HB; intros; lia.
  - destruct (Z.leb_spec first x), (Z.ltb_spec x last); simpl;
      try (apply HC; intros; lia).
    replace x with (first + (x - first)) by lia. apply HB; intros; lia.
  - destruct (Z.leb_spec first x), (Z.ltb_spec x last); simpl;
      try (apply HC; intros; lia).
    replace x with (first + (x - first)) by lia. apply HB; intros; lia.
Qed.

(** Relocation of [first, last) to the range ending at [d_last], back to
    front, the destination ending above the source. *)
Lemma backward_moves_spec first last d_last (a : region) :
  0 <= first <= last -> last < d_last -> d_last <= Z.of_nat (length a) ->
  let d := d_last - (last - first) in
  let res := for_each_offset (Z.to_nat (last - first)) 0
               (fun k => move_construct (d_last - 1 - k) (last - 1 - k)) a in
  length res = length a /\
  forall x, read_slot res x =
    if (d <=? x) && (x <? d_last) then read_slot a (x - d + first)
    else if (first <=? x) && (x <? last) then Husk
    else read_slot a x.
Proof.
  intros Hfl Hdir Hfit d res.
  destruct (moves_spec (Z.to_nat (last - first))
              (fun k => d_last - 1 - k) (fun k => last - 1 - k) a)
    as (Hlen & HA & HB & HC); try (intros; lia).
  fold res in Hlen, HA, HB, HC.
  split; [exact Hlen|]. intros x. subst d.
  destruct (Z.leb_spec (d_last - (last - first)) x), (Z.ltb_spec x d_last); simpl.
  - replace x with (d_last - 1 - (d_last - 1 - x)) at 1 by lia.
    rewrite HA by lia. f_equal. lia.
  - destruct (Z.leb_spec first x), (Z.ltb_spec x last); simpl;
      try (apply HC; intros; lia).
    replace x with (last - 1 - (last - 1 - x)) by lia. apply HB; intros; lia.
  - destruct (Z.leb_spec first x), (Z.ltb_spec x last); simpl;
      try (apply HC; intros; lia).
    replace x with (last - 1 - (last - 1 - x)) by lia. apply HB; intros; lia.
  - destruct (Z.leb_spec first x), (Z.ltb_spec x last); simpl;
      try (apply HC; intros; lia).
    replace x with (last - 1 - (last - 1 - x)) by lia. apply HB; intros; lia.
Qed.

Lemma uninitialized_move_spec first last d (a : region) :
  0 <= d -> 0 <= first <= last -> last <= Z.of_nat (length a) ->
  d + (last - first) <= Z.of_nat (length a) ->
  d < first \/ last <= d ->
  length (uninitialized_move first last d a) = length a /\
  forall x, read_slot (uninitialized_move first last d a) x =
    if (d <=? x) && (x <? d + (last - first)) then read_slot a (x - d + first)
    else if (first <=? x) && (x <? last) then Husk
    else read_slot a x.
Proof. intros. apply forward_moves_spec; auto. Qed.

Lemma std_move_spec first last d (a : region) :
  0 <= d -> 0 <= first <= last -> last <= Z.of_nat (length a) ->
  d < first ->
  length (std_move first last d a) = length a /\
  forall x, read_slot (std_move first last d a) x =
    if (d <=? x) && (x <? d + (last - first)) then read_slot a (x - d + first)
    else if (first <=? x) && (x <? last) then Husk
    else read_slot a x.
Proof.
  intros Hd Hfl Hlast Hdir. unfold std_move.
  rewrite (for_each_offset_ext _ _ (fun k => move_construct (d + k) (first + k))).
  - apply forward_moves_spec; auto; lia.
  - intros j m' Hj. unfold move_assign. destruct (Z.eqb_spec (d + j) (first + j)); [lia|].
    reflexivity.
Qed.

(** Move assignment of an object to itself touches no other object. *)
Lemma move_assign_self_spec d (a : region) :
  length (move_assign d d a) = length a /\
  forall x, x <> d -> read_slot (move_assign d d a) x = read_slot a x.
Proof.
  unfold move_assign. rewrite Z.eqb_refl.
  destruct (read_slot a d); try (split; [reflexivity|intros; reflexivity]).
  split; [apply length_write_slot|]. intros x Hx. apply read_write_ne. lia.
Qed.

(** For a column type whose move assignment to self leaves the object as
    it is, it changes nothing. *)
Lemma move_assign_self_kept d (a : region) :
  (forall x : V, self_move_assign x = Live x) -> move_assign d d a = a.
Proof.
  intros Hkeep. unfold move_assign. rewrite Z.eqb_refl.
  destruct (read_slot a d) as [|x|] eqn:E; try reflexivity.
  rewrite Hkeep. unfold read_slot in E. unfold write_slot.
  destruct (Z.ltb_spec d 0); [reflexivity|].
  destruct (a !! Z.to_nat d) as [y|] eqn:El; [|discriminate].
  cbn in E. subst y. apply list_insert_id. exact El.
Qed.

(** Move assignment of a range onto itself changes nothing then. *)
Lemma std_move_self first last (a : region) :
  (forall x : V, self_move_assign x = Live x) -> std_move first last first a = a.
Proof.
  intros Hkeep. unfold std_move. apply for_each_offset_id. intros j m' _.
  apply move_assign_self_kept. exact Hkeep.
Qed.

Lemma move_backward_self first last (a : region) :
  (forall x : V, self_move_assign x = Live x) -> move_backward first last last a = a.
Proof.
  intros Hkeep. unfold move_backward. apply for_each_offset_id. intros j m' _.
  apply move_assign_self_kept. exact Hkeep.
Qed.

Lemma move_backward_spec first last d_last (a : region) :
  0 <= first <= last -> last < d_last -> d_last <= Z.of_nat (length a) ->
  length (move_backward first last d_last a) = length a /\
  forall x, read_slot (move_backward first last d_last a) x =
    if (d_last - (last - first) <=? x) && (x <? d_last)
    then read_slot a (x - (d_last - (last - first)) + first)
    else if (first <=? x) && (x <? last) then Husk
    else read_slot a x.
Proof.
  intros Hfl Hdir Hfit. unfold move_backward.
  rewrite (for_each_offset_ext _ _ (fun k => move_construct (d_last - 1 - k) (last - 1 - k))).
  - apply backward_moves_spec; auto.
  - intros j m' Hj. unfold move_assign.
    destruct (Z.eqb_spec (d_last - 1 - j) (last - 1 - j)); [lia|]. reflexivity.
Qed.

Lemma fill_spec first last value (a : region) :
  0 <= first <= last -> last <= Z.of_nat (length a) ->
  length (fill first last value a) = length a /\
  forall x, read_slot (fill first last value a) x =
    if (first <=? x) && (x <? last) then Live value else read_slot a x.
Proof.
  intros Hfl Hfit. unfold fill.
  destruct (write_loop_spec (Z.to_nat (last - first)) first (Live value) a) as [Hlen Hrd];
    try lia.
  split; [exact Hlen|]. intros x. rewrite Hrd. zbool.
Qed.

Lemma uninitialized_fill_n_spec first n value (a : region) :
  0 <= first -> 0 <= n -> first + n <= Z.of_nat (length a) ->
  length (uninitialized_fill_n first n value a) = length a /\
  forall x, read_slot (uninitialized_fill_n first n value a) x =
    if (first <=? x) && (x <? first + n) then Live value else read_slot a x.
Proof.
  intros Hf Hn Hfit. unfold uninitialized_fill_n.
  destruct (write_loop_spec (Z.to_nat n) first (Live value) a) as [Hlen Hrd]; try lia.
  split; [exact Hlen|]. intros x. rewrite Hrd. zbool.
Qed.

Lemma destroy_spec first last (a : region) :
  0 <= first <= last -> last <= Z.of_nat (length a) ->
  length (destroy first last a) = length a /\
  forall x, read_slot (destroy first last a) x =
    if (first <=? x) && (x <? last) then Raw else read_slot a x.
Proof.
  intros Hfl Hfit. unfold destroy.
  destruct (write_loop_spec (Z.to_nat (last - first)) first (@Raw V) a) as [Hlen Hrd]; try lia.
  split; [exact Hlen|]. intros x. rewrite Hrd. zbool.
Qed.

End Moves.

(* ===================================================================== *)
(** ** The engine: erase, erase_unsorted, clear *)
(* ===================================================================== *)

Section EngineProofs.
Context {V : Type} {EV : MoveAssignable V}.
Variable Ts : list ColType.

Local Abbreviation vec := (TupleVecImpl V).

Lemma well_formed_cells (v : vec) leaf :
  well_formed Ts v -> In leaf (leaves v) ->
  length (TupleVecLeaf.cells leaf) = Z.to_nat (mNumCapacity v).
Proof.
  intros (_ & _ & _ & Hall) Hin. rewrite List.Forall_forall in Hall. auto.
Qed.

Lemma well_formed_size_t (v : vec) :
  well_formed Ts v -> is_size_t (mNumElements v) /\ is_size_t (mNumCapacity v).
Proof. intros (Hs & Hc & _). unfold is_size_t. lia. Qed.

Lemma leaf_pointers_each_leaf g (v : vec) :
  leaf_pointers (each_leaf g v) = leaf_pointers v.
Proof.
  unfold leaf_pointers, each_leaf. simpl. rewrite map_map. reflexivity.
Qed.

Lemma at_each_leaf g (v : vec) k :
  at_ (each_leaf g v) k
    = map (fun leaf => read_slot (g (TupleVecLeaf.cells leaf)) k) (leaves v).
Proof. unfold at_, each_leaf. simpl. rewrite map_map. reflexivity. Qed.

Lemma column_each_leaf g (v : vec) j leaf :
  leaves v !! j = Some leaf ->
  column (each_leaf g v) j
    = take (Z.to_nat (mNumElements v)) (g (TupleVecLeaf.cells leaf)).
Proof.
  intros Hj. unfold column, each_leaf. simpl.
  rewrite list_lookup_fmap, Hj. reflexivity.
Qed.

Lemma column_lookup (v : vec) j leaf :
  leaves v !! j = Some leaf ->
  column v j = take (Z.to_nat (mNumElements v)) (TupleVecLeaf.cells leaf).
Proof. intros Hj. unfold column. rewrite Hj. reflexivity. Qed.

(** *** erase *)

(** What [erase] does to one region. *)
Lemma erase_cells_spec f l s (a : list (slot V)) :
  0 <= f < l -> l <= s -> s <= Z.of_nat (length a) ->
  let a' := destroy (s - (l - f)) s (std_move l s f a) in
  length a' = length a /\
  forall x, read_slot a' x =
    if x <? f then read_slot a x
    else if x <? s - (l - f) then read_slot a (x - f + l)
    else if x <? s then Raw
    else read_slot a x.
Proof.
  intros Hfl Hls Hfit a'.
  destruct (std_move_spec l s f a) as [Hlen1 Hrd1]; try lia.
  destruct (destroy_spec (s - (l - f)) s (std_move l s f a)) as [Hlen2 Hrd2]; try lia.
  subst a'. split; [lia|]. intros x. rewrite Hrd2, Hrd1.
  destruct (Z.ltb_spec x 0).
  - unfold read_slot. destruct (Z.ltb_spec x 0); [|lia]. zbool.
  - zbool.
Qed.

Lemma erase_column f l s (a : list (slot V)) :
  0 <= f < l -> l <= s -> s <= Z.of_nat (length a) ->
  take (Z.to_nat (s - (l - f))) (destroy (s - (l - f)) s (std_move l s f a))
    = take (Z.to_nat f) (take (Z.to_nat s) a) ++ drop (Z.to_nat l) (take (Z.to_nat s) a).
Proof.
  intros Hfl Hls Hfit.
  destruct (erase_cells_spec f l s a Hfl Hls Hfit) as [Hlen Hrd].
  apply region_ext.
  - rewrite length_app, !length_take, length_drop, length_take. lia.
  - intros i Hi. rewrite length_take in Hi.
    rewrite read_take, read_app by lia.
    rewrite !length_take, read_take.
    destruct (Z.ltb_spec i (Z.of_nat (Z.to_nat (s - (l - f))))); [|lia].
    rewrite Hrd.
    destruct (Z.ltb_spec i f).
    + destruct (Z.ltb_spec i (Z.of_nat (Z.to_nat f `min` (Z.to_nat s `min` length a))));
        [|lia].
      destruct (Z.ltb_spec i (Z.of_nat (Z.to_nat f))); [|lia].
      rewrite read_take. zbool.
    + destruct (Z.ltb_spec i (Z.of_nat (Z.to_nat f `min` (Z.to_nat s `min` length a))));
        [lia|].
      rewrite read_drop by lia. rewrite read_take. zbool. f_equal. lia.
Qed.


Lemma each_leaf_compose g1 g2 (v : vec) :
  each_leaf g2 (each_leaf g1 v) = each_leaf (fun c => g2 (g1 c)) v.
Proof.
  unfold each_leaf, set_leaves. simpl. f_equal. rewrite map_map. reflexivity.
Qed.

Lemma wrap_index x : is_size_t x -> wrap (x - 0) = x.
Proof. intros Hx. rewrite Z.sub_0_r. apply wrap_small. exact Hx. Qed.

Lemma erase_unfold (v : vec) (first last : TupleVecIter.t) :
  well_formed Ts v ->
  0 <= TupleVecIter.mIndex first < TupleVecIter.mIndex last ->
  TupleVecIter.mIndex last <= mNumElements v ->
  let f := TupleVecIter.mIndex first in
  let l := TupleVecIter.mIndex last in
  let s := mNumElements v in
  erase v first last
    = (each_leaf (fun c => destroy (s - (l - f)) s (std_move l s f c))
         (set_mNumElements (s - (l - f)) v),
       TupleVecIter.mk f (leaf_pointers v)).
Proof.
  intros Hwf Hfl Hls f l s.
  destruct (well_formed_size_t v Hwf) as [Hs Hc].
  unfold is_size_t in *. fold s in Hs.
  assert (Hf : wrap (f - 0) = f) by (apply wrap_index; unfold is_size_t; subst f s; lia).
  assert (Hl : wrap (l - 0) = l) by (apply wrap_index; unfold is_size_t; subst l s; lia).
  unfold erase.
  assert (Hneq : TupleVecIter.neq first last = true).
  { unfold TupleVecIter.neq. fold f l. destruct (Z.eqb_spec f l); [lia|]. reflexivity. }
  rewrite Hneq. unfold TupleVecIter.diff, cbegin. cbn [TupleVecIter.mIndex].
  fold f l s. rewrite Hf, Hl.
  assert (Hlf : wrap (l - f) = l - f) by (apply wrap_small; unfold is_size_t; lia).
  rewrite Hlf.
  assert (Hn : wrap (s - (l - f)) = s - (l - f)) by (apply wrap_small; unfold is_size_t; lia).
  rewrite Hn. rewrite each_leaf_compose. f_equal.
  unfold TupleVecIter.plus, TupleVecIter.add_assign, begin_. cbn.
  rewrite map_map. cbn. f_equal.
  apply wrap_small. unfold is_size_t. lia.
Qed.

(** C3.  Erasing the non-empty range [f, l) of a container of size [s],
    [f < l <= s]: the size becomes [s - (l - f)]; the rows below [f] are
    untouched; the row that was at [l + k] is at [f + k]; every column is
    its old content with the positions [f, l) cut out, the same cut in all
    columns; capacity and leaf pointers stay, and the iterator returned is
    at index [f]. *)
Theorem erase_range (v : vec) (first last : TupleVecIter.t) :
  well_formed Ts v ->
  0 <= TupleVecIter.mIndex first < TupleVecIter.mIndex last ->
  TupleVecIter.mIndex last <= size v ->
  let f := TupleVecIter.mIndex first in
  let l := TupleVecIter.mIndex last in
  let s := size v in
  let v' := fst (erase v first last) in
  size v' = s - (l - f) /\
  (forall k, 0 <= k < f -> at_ v' k = at_ v k) /\
  (forall k, 0 <= k < s - l -> at_ v' (f + k) = at_ v (l + k)) /\
  (forall j, column v' j = take (Z.to_nat f) (column v j) ++ drop (Z.to_nat l) (column v j)) /\
  capacity v' = capacity v /\
  leaf_pointers v' = leaf_pointers v /\
  snd (erase v first last) = TupleVecIter.mk f (leaf_pointers v).
Proof.
  intros Hwf Hfl Hls f l s v'. unfold size in *.
  subst v'. rewrite (erase_unfold v first last Hwf Hfl Hls). fold f l s. cbn [fst snd].
  destruct (well_formed_size_t v Hwf) as [Hs Hc]. unfold is_size_t in *.
  assert (Hcap : forall leaf, In leaf (leaves v) ->
            s <= Z.of_nat (length (TupleVecLeaf.cells leaf))).
  { intros leaf Hin. rewrite (well_formed_cells v leaf Hwf Hin).
    destruct Hwf as (Hsz & _). subst s. lia. }
  split; [reflexivity|]. split; [|split; [|split; [|split; [|split]]]].
  - intros k Hk. rewrite at_each_leaf. unfold at_. apply map_ext_in.
    intros leaf Hin.
    destruct (erase_cells_spec f l s (TupleVecLeaf.cells leaf)) as [_ Hrd];
      try (subst f l s; lia). { apply Hcap, Hin. }
    rewrite Hrd. destruct (Z.ltb_spec k f); [reflexivity|lia].
  - intros k Hk. rewrite at_each_leaf. unfold at_. apply map_ext_in.
    intros leaf Hin.
    destruct (erase_cells_spec f l s (TupleVecLeaf.cells leaf)) as [_ Hrd];
      try (subst f l s; lia). { apply Hcap, Hin. }
    rewrite Hrd. destruct (Z.ltb_spec (f + k) f); [lia|].
    destruct (Z.ltb_spec (f + k) (s - (l - f))); [|lia]. f_equal. lia.
  - intros j. destruct (leaves v !! j) as [leaf|] eqn:Hj.
    + rewrite (column_each_leaf _ _ j leaf) by exact Hj.
      rewrite (column_lookup v j leaf Hj). cbn [mNumElements set_mNumElements].
      apply erase_column; try (subst f l s; lia).
      apply Hcap. apply list_elem_of_In. eapply list_elem_of_lookup_2. exact Hj.
    + unfold column, each_leaf. simpl. rewrite list_lookup_fmap, Hj. simpl.
      rewrite take_nil, drop_nil. reflexivity.
  - reflexivity.
  - rewrite leaf_pointers_each_leaf. reflexivity.
  - reflexivity.
Qed.


(** *** erase_unsorted *)

Lemma write_slot_insert i x (a : list (slot V)) :
  0 <= i -> write_slot i x a = <[Z.to_nat i := x]> a.
Proof. intros Hi. unfold write_slot. destruct (Z.ltb_spec i 0); [lia|reflexivity]. Qed.

(** What [erase_unsorted] does to one region. *)
Lemma erase_unsorted_cells_spec i s (a : list (slot V)) :
  0 <= i < s -> s <= Z.of_nat (length a) ->
  let a' := destroy (s - 1) s (std_move (s - 1) s i a) in
  length a' = length a /\
  forall x, read_slot a' x =
    if x =? s - 1 then Raw
    else if x =? i then read_slot a (s - 1)
    else read_slot a x.
Proof.
  intros Hi Hfit a'. subst a'.
  destruct (Z.eq_dec i (s - 1)) as [->|Hne].
  - assert (E : std_move (s - 1) s (s - 1) a = move_assign (s - 1) (s - 1) a).
    { unfold std_move. replace (s - (s - 1)) with 1 by lia.
      change (Z.to_nat 1) with 1%nat. cbn [for_each_offset]. rewrite Z.add_0_r.
      reflexivity. }
    rewrite E.
    destruct (move_assign_self_spec (s - 1) a) as [Hlen1 Hrd1].
    destruct (destroy_spec (s - 1) s (move_assign (s - 1) (s - 1) a)) as [Hlen Hrd];
      try lia.
    split; [lia|]. intros x. rewrite Hrd.
    destruct (Z.eqb_spec x (s - 1)) as [->|Hne].
    + zbool.
    + rewrite Hrd1 by exact Hne. zbool.
  - destruct (std_move_spec (s - 1) s i a) as [Hlen1 Hrd1]; try lia.
    destruct (destroy_spec (s - 1) s (std_move (s - 1) s i a)) as [Hlen2 Hrd2]; try lia.
    split; [lia|]. intros x. rewrite Hrd2, Hrd1. zbool.
    f_equal. lia.
Qed.

Lemma erase_unsorted_column i s (a : list (slot V)) :
  0 <= i < s -> s <= Z.of_nat (length a) ->
  take (Z.to_nat (s - 1)) (destroy (s - 1) s (std_move (s - 1) s i a))
    = take (Z.to_nat (s - 1))
        (<[Z.to_nat i := read_slot (take (Z.to_nat s) a) (s - 1)]> (take (Z.to_nat s) a)).
Proof.
  intros Hi Hfit.
  destruct (erase_unsorted_cells_spec i s a Hi Hfit) as [Hlen Hrd].
  rewrite <- write_slot_insert by lia.
  apply region_ext.
  - rewrite !length_take, length_write_slot, length_take. lia.
  - intros x Hx. rewrite length_take in Hx.
    rewrite !read_take, Hrd.
    destruct (Z.ltb_spec x (Z.of_nat (Z.to_nat (s - 1)))); [|lia].
    destruct (Z.eqb_spec x (s - 1)); [lia|].
    destruct (Z.eqb_spec x i) as [->|Hne].
    + rewrite read_write_eq by (rewrite length_take; lia). zbool.
    + rewrite read_write_ne by lia. rewrite read_take. zbool.
Qed.

(** Overwriting position [i] with the last element and dropping the last
    position leaves the elements other than the one at [i]. *)
Lemma take_insert_last_Permutation {X} (c : list X) (i : nat) (x : X) :
  (i < length c)%nat -> c !! (length c - 1)%nat = Some x ->
  take (length c - 1) (<[i := x]> c) ≡ₚ delete i c.
Proof.
  destruct c as [|y c0] using rev_ind; [simpl; lia|].
  clear IHc0. rewrite length_app. simpl. intros Hi Hx.
  replace (length c0 + 1 - 1)%nat with (length c0) in * by lia.
  rewrite lookup_app_r, Nat.sub_diag in Hx by lia. simpl in Hx. injection Hx as ->.
  destruct (Nat.eq_dec i (length c0)) as [->|Hne].
  - rewrite take_insert_ge by lia. rewrite take_app_length.
    rewrite delete_take_drop, take_app_length.
    rewrite drop_ge by (rewrite length_app; simpl; lia). rewrite app_nil_r. reflexivity.
  - rewrite insert_app_l by lia.
    rewrite take_app_length' by (rewrite length_insert; reflexivity).
    rewrite delete_take_drop, take_app_le, drop_app_le by lia.
    rewrite insert_take_drop by lia.
    apply Permutation_app_head. apply Permutation_cons_append.
Qed.

(** C4 (as the code has it).  [erase_unsorted] at a position [i < s] of a
    container of size [s]: the size becomes [s - 1]; when [i] is not the
    last position, row [i] holds what row [s - 1] held; when it is, the
    slot is destroyed and nothing moves; every other row below [s - 1]
    keeps its values; every column is its old content with position [i]
    overwritten by the last element and the last position dropped, a
    permutation of the old content without the element at [i]. *)
Theorem erase_unsorted_spec (v : vec) (pos : TupleVecIter.t) :
  well_formed Ts v ->
  0 <= TupleVecIter.mIndex pos < size v ->
  let i := TupleVecIter.mIndex pos in
  let s := size v in
  let v' := fst (erase_unsorted v pos) in
  size v' = s - 1 /\
  (i < s - 1 -> at_ v' i = at_ v (s - 1)) /\
  (i = s - 1 -> at_ v' i = map (fun _ => Raw) (leaves v)) /\
  (forall k, 0 <= k < s - 1 -> k <> i -> at_ v' k = at_ v k) /\
  (forall j, column v' j =
     take (Z.to_nat (s - 1))
       (<[Z.to_nat i := read_slot (column v j) (s - 1)]> (column v j))) /\
  (forall j, column v' j ≡ₚ delete (Z.to_nat i) (column v j)) /\
  snd (erase_unsorted v pos) = TupleVecIter.mk i (leaf_pointers v).
Proof.
  intros Hwf Hi i s v'. unfold size in *. fold i s in Hi.
  destruct (well_formed_size_t v Hwf) as [Hs Hc]. unfold is_size_t in *. fold s in Hs.
  assert (Hcap : forall leaf, In leaf (leaves v) ->
            s <= Z.of_nat (length (TupleVecLeaf.cells leaf))).
  { intros leaf Hin. rewrite (well_formed_cells v leaf Hwf Hin).
    destruct Hwf as (Hsz & _). subst s. lia. }
  assert (Hn : wrap (s - 1) = s - 1) by (apply wrap_small; unfold is_size_t; lia).
  assert (Hp : wrap (i - 0) = i) by (apply wrap_index; unfold is_size_t; lia).
  assert (Hun : erase_unsorted v pos
          = (each_leaf (fun c => destroy (s - 1) s (std_move (s - 1) s i c))
               (set_mNumElements (s - 1) v),
             TupleVecIter.mk i (leaf_pointers v))).
  { unfold erase_unsorted. fold s i. rewrite Hn.
    unfold TupleVecIter.diff, begin_. cbn [TupleVecIter.mIndex]. fold i. rewrite Hp.
    rewrite each_leaf_compose. f_equal.
    unfold TupleVecIter.plus, TupleVecIter.add_assign. cbn.
    rewrite map_map. cbn. fold i. f_equal.
    apply wrap_small. unfold is_size_t. lia. }
  assert (Hcol : forall j, column v' j =
     take (Z.to_nat (s - 1))
       (<[Z.to_nat i := read_slot (column v j) (s - 1)]> (column v j))).
  { intros j. subst v'. rewrite Hun. cbn [fst].
    destruct (leaves v !! j) as [leaf|] eqn:Hj.
    - rewrite (column_each_leaf _ _ j leaf) by exact Hj.
      rewrite (column_lookup v j leaf Hj). cbn [mNumElements set_mNumElements].
      apply erase_unsorted_column; try lia.
      apply Hcap. apply list_elem_of_In. eapply list_elem_of_lookup_2. exact Hj.
    - unfold column, each_leaf. simpl. rewrite list_lookup_fmap, Hj. simpl.
      destruct (Z.to_nat (s - 1)); reflexivity. }
  subst v'. split; [rewrite Hun; reflexivity|].
  split; [|split; [|split; [|split; [|split]]]].
  - intros Hlt. rewrite Hun. cbn [fst]. rewrite at_each_leaf. unfold at_.
    apply map_ext_in. intros leaf Hin.
    destruct (erase_unsorted_cells_spec i s (TupleVecLeaf.cells leaf)) as [_ Hrd]; try lia.
    { apply Hcap, Hin. }
    rewrite Hrd. zbool.
  - intros Heq. rewrite Hun. cbn [fst]. rewrite at_each_leaf.
    apply map_ext_in. intros leaf Hin.
    destruct (erase_unsorted_cells_spec i s (TupleVecLeaf.cells leaf)) as [_ Hrd]; try lia.
    { apply Hcap, Hin. }
    rewrite Hrd. zbool.
  - intros k Hk Hne. rewrite Hun. cbn [fst]. rewrite at_each_leaf. unfold at_.
    apply map_ext_in. intros leaf Hin.
    destruct (erase_unsorted_cells_spec i s (TupleVecLeaf.cells leaf)) as [_ Hrd]; try lia.
    { apply Hcap, Hin. }
    rewrite Hrd. zbool.
  - exact Hcol.
  - intros j. rewrite Hcol.
    destruct (leaves v !! j) as [leaf|] eqn:Hj.
    + assert (Hlen : length (column v j) = Z.to_nat s).
      { rewrite (column_lookup v j leaf Hj), length_take. fold s.
        assert (In leaf (leaves v))
          by (apply list_elem_of_In; eapply list_elem_of_lookup_2; exact Hj).
        pose proof (Hcap leaf H). lia. }
      replace (Z.to_nat (s - 1)) with (length (column v j) - 1)%nat by lia.
      apply take_insert_last_Permutation; [lia|].
      rewrite lookup_read by lia. do 2 f_equal. lia.
    + unfold column. rewrite Hj. simpl. destruct (Z.to_nat (s - 1)); reflexivity.
  - rewrite Hun. reflexivity.
Qed.


(** *** clear *)

(** C10.  [clear] destroys every live element and sets the size to 0; the
    capacity, the allocation pointer and its byte size, the leaf pointers
    and the slots past the old size are as before (the heap is not
    involved at all).  [erase(first, last)] with [first == last] leaves
    the container as it is and returns an iterator at [first]'s index. *)
Theorem clear_and_empty_erase (v : vec) (first last : TupleVecIter.t) :
  well_formed Ts v ->
  is_size_t (TupleVecIter.mIndex first) ->
  TupleVecIter.eq first last = true ->
  size (clear v) = 0 /\
  capacity (clear v) = capacity v /\
  mpData (clear v) = mpData v /\
  internalDataSize (clear v) = internalDataSize v /\
  leaf_pointers (clear v) = leaf_pointers v /\
  (forall k, 0 <= k < size v -> at_ (clear v) k = map (fun _ => Raw) (leaves v)) /\
  (forall k, size v <= k -> at_ (clear v) k = at_ v k) /\
  erase v first last = (v, TupleVecIter.mk (TupleVecIter.mIndex first) (leaf_pointers v)).
Proof.
  intros Hwf Hidx Heq. unfold size, capacity, clear.
  destruct (well_formed_size_t v Hwf) as [Hs Hc]. unfold is_size_t in Hs, Hc.
  assert (Hcap : forall leaf, In leaf (leaves v) ->
            mNumElements v <= Z.of_nat (length (TupleVecLeaf.cells leaf))).
  { intros leaf Hin. rewrite (well_formed_cells v leaf Hwf Hin).
    destruct Hwf as (Hsz & _). lia. }
  repeat split.
  - rewrite leaf_pointers_each_leaf. reflexivity.
  - intros k Hk. rewrite at_each_leaf. apply map_ext_in. intros leaf Hin.
    destruct (destroy_spec 0 (mNumElements v) (TupleVecLeaf.cells leaf)) as [_ Hrd];
      try lia. { apply Hcap, Hin. }
    rewrite Hrd. zbool.
  - intros k Hk. rewrite at_each_leaf. unfold at_. apply map_ext_in. intros leaf Hin.
    destruct (destroy_spec 0 (mNumElements v) (TupleVecLeaf.cells leaf)) as [_ Hrd];
      try lia. { apply Hcap, Hin. }
    rewrite Hrd. zbool.
  - unfold erase.
    assert (Hneq : TupleVecIter.neq first last = false).
    { rewrite neq_negb_eq, Heq. reflexivity. }
    rewrite Hneq. f_equal.
    unfold TupleVecIter.plus, TupleVecIter.add_assign, begin_. cbn. f_equal.
    apply wrap_small. exact Hidx.
Qed.

(** *** insert without reallocation *)

(** What [DoInsertAndFill] does to one region: below [p] nothing changes,
    [n] copies of the value follow, then the old elements from [p] on. *)
Lemma DoInsertAndFill_spec p n s arg (leaf : TupleVecLeaf.t V) :
  0 <= p <= s -> 0 <= n -> s < SIZE_MAX_plus_1 -> n < SIZE_MAX_plus_1 ->
  s + n <= Z.of_nat (length (TupleVecLeaf.cells leaf)) ->
  0 < n \/ p = s \/ (forall x : V, self_move_assign x = Live x) ->
  let leaf' := TupleVecLeaf.DoInsertAndFill p n s arg leaf in
  TupleVecLeaf.mpData leaf' = TupleVecLeaf.mpData leaf /\
  length (TupleVecLeaf.cells leaf') = length (TupleVecLeaf.cells leaf) /\
  forall x, x < s + n ->
    read_slot (TupleVecLeaf.cells leaf') x =
      if x <? p then read_slot (TupleVecLeaf.cells leaf) x
      else if x <? p + n then Live arg
      else read_slot (TupleVecLeaf.cells leaf) (x - n).
Proof.
  intros Hp Hn Hs Hnfit Hfit Hself leaf'. subst leaf'.
  set (a := TupleVecLeaf.cells leaf) in *.
  unfold TupleVecLeaf.DoInsertAndFill. fold a.
  assert (Hextra : wrap (s - p) = s - p) by (apply wrap_small; unfold is_size_t; lia).
  rewrite Hextra.
  destruct (Z.ltb_spec n (s - p)) as [Hlt|Hge].
  - (* the inserted values land inside the live range *)
    destruct (Z.eq_dec n 0) as [->|Hn0].
    + replace (s - 0) with s by lia. replace (p + 0) with p by lia.
      assert (E1 : uninitialized_move s s s a = a).
      { unfold uninitialized_move. rewrite Z.sub_diag. reflexivity. }
      rewrite E1, move_backward_self by (destruct Hself as [H0|[H0|H0]]; [lia|lia|exact H0]).
      assert (E2 : fill p p arg a = a).
      { unfold fill. rewrite Z.sub_diag. reflexivity. }
      rewrite E2. cbn. repeat split. intros x Hx. zbool. f_equal. lia.
    + destruct (uninitialized_move_spec (s - n) s s a) as [Hl1 Hr1]; try lia.
      set (a1 := uninitialized_move (s - n) s s a) in *.
      destruct (move_backward_spec p (s - n) s a1) as [Hl2 Hr2]; try lia.
      set (a2 := move_backward p (s - n) s a1) in *.
      destruct (fill_spec p (p + n) arg a2) as [Hl3 Hr3]; try lia.
      cbn. split; [reflexivity|]. split; [lia|].
      intros x Hx. rewrite Hr3, Hr2, Hr1.
      destruct (Z.ltb_spec x 0).
      * unfold read_slot. destruct (Z.ltb_spec x 0); [|lia]. zbool.
      * rewrite Hr1. zbool; f_equal; lia.
  - (* the inserted values reach past the live range *)
    assert (Hw : wrap (n - (s - p)) = n - (s - p))
      by (apply wrap_small; unfold is_size_t; lia).
    rewrite Hw.
    destruct (uninitialized_fill_n_spec s (n - (s - p)) arg a) as [Hl1 Hr1]; try lia.
    set (a1 := uninitialized_fill_n s (n - (s - p)) arg a) in *.
    destruct (uninitialized_move_spec p s (s + n - (s - p)) a1) as [Hl2 Hr2]; try lia.
    set (a2 := uninitialized_move p s (s + n - (s - p)) a1) in *.
    destruct (fill_spec p s arg a2) as [Hl3 Hr3]; try lia.
    cbn. split; [reflexivity|]. split; [lia|].
    intros x Hx. rewrite Hr3, Hr2, !Hr1.
    destruct (Z.ltb_spec x 0).
    + unfold read_slot. destruct (Z.ltb_spec x 0); [|lia]. zbool.
    + zbool; f_equal; lia.
Qed.

End EngineProofs.

(* ===================================================================== *)
(** ** The engine: insert within the capacity *)
(* ===================================================================== *)

Section InsertProofs.
Context {V A : Type} `{Allocator A} {EV : MoveAssignable V}.
Variable Ts : list ColType.

Local Abbreviation vec := (TupleVecImpl V).

Lemma zip_leaves_pointers (f : TupleVecLeaf.t V -> V -> TupleVecLeaf.t V) ls (args : list V) :
  length args = length ls ->
  (forall leaf arg, TupleVecLeaf.mpData (f leaf arg) = TupleVecLeaf.mpData leaf) ->
  map TupleVecLeaf.mpData (zip_with f ls args) = map TupleVecLeaf.mpData ls.
Proof.
  revert args. induction ls as [|leaf ls IH]; intros [|arg args] Hlen Hf;
    simpl in *; try lia; [reflexivity|].
  rewrite Hf, IH by (auto; lia). reflexivity.
Qed.

Lemma zip_leaves_lookup (f : TupleVecLeaf.t V -> V -> TupleVecLeaf.t V) ls (args : list V)
    j leaf arg :
  ls !! j = Some leaf -> args !! j = Some arg ->
  zip_with f ls args !! j = Some (f leaf arg).
Proof. intros Hl Ha. rewrite lookup_zip_with, Hl. simpl. rewrite Ha. reflexivity. Qed.



End InsertProofs.

(* ===================================================================== *)
(** ** The engine: shrink_to_fit *)
(* ===================================================================== *)

Section ShrinkProofs.
Context {V A : Type} `{Allocator A} {EV : MoveAssignable V}.
Variable Ts : list ColType.

Local Abbreviation vec := (TupleVecImpl V).

(** Relocation from one region into another. *)
Lemma uninitialized_move_to_spec first last (src : list (slot V)) d (dst : list (slot V)) :
  0 <= first <= last -> last <= Z.of_nat (length src) ->
  0 <= d -> d + (last - first) <= Z.of_nat (length dst) ->
  let res := uninitialized_move_to first last src d dst in
  length (fst res) = length src /\
  length (snd res) = length dst /\
  (forall x, read_slot (fst res) x =
     if (first <=? x) && (x <? last) then Husk else read_slot src x) /\
  (forall x, read_slot (snd res) x =
     if (d <=? x) && (x <? d + (last - first)) then read_slot src (x - d + first)
     else read_slot dst x).
Proof.
  intros Hfl Hsrc Hd Hdst. unfold uninitialized_move_to.
  set (body := fun (k : Z) '(s, d0) =>
         (write_slot (first + k) (@Husk V) s,
          write_slot (d + k) (read_slot s (first + k)) d0)).
  assert (Hgen : forall cnt : nat, Z.of_nat cnt <= last - first ->
    let res := for_each_offset cnt 0 body (src, dst) in
    length (fst res) = length src /\
    length (snd res) = length dst /\
    (forall x, read_slot (fst res) x =
       if (first <=? x) && (x <? first + Z.of_nat cnt) then Husk else read_slot src x) /\
    (forall x, read_slot (snd res) x =
       if (d <=? x) && (x <? d + Z.of_nat cnt) then read_slot src (x - d + first)
       else read_slot dst x)).
  { induction cnt as [|c IH]; intros Hc.
    - simpl. repeat split; intros x; zbool.
    - cbv zeta. rewrite for_each_offset_snoc, Z.add_0_l.
      destruct IH as (Hl1 & Hl2 & Hr1 & Hr2); [lia|].
      destruct (for_each_offset c 0 body (src, dst)) as [s0 d0]. simpl in *.
      split; [rewrite length_write_slot; exact Hl1|].
      split; [rewrite length_write_slot; exact Hl2|]. split.
      + intros x. destruct (Z.eq_dec x (first + Z.of_nat c)) as [->|Hne].
        * rewrite read_write_eq by lia. zbool.
        * rewrite read_write_ne by lia. rewrite Hr1. zbool.
      + intros x. destruct (Z.eq_dec x (d + Z.of_nat c)) as [->|Hne].
        * rewrite read_write_eq by lia. rewrite Hr1. zbool. f_equal. lia.
        * rewrite read_write_ne by lia. rewrite Hr2. zbool. }
  specialize (Hgen (Z.to_nat (last - first)) ltac:(lia)). cbv zeta in Hgen.
  replace (Z.of_nat (Z.to_nat (last - first))) with (last - first) in Hgen by lia.
  replace (first + (last - first)) with last in Hgen by lia.
  exact Hgen.
Qed.

Lemma DoAllocate_length Ts0 : forall (h : A) c o h' al ptrs,
  DoAllocate Ts0 h c o = Some (h', al, ptrs) -> length ptrs = length Ts0.
Proof.
  induction Ts0 as [|T Ts' IH]; intros h c o h' al ptrs E; simpl in E.
  - destruct (c =? 0); [injection E as _ _ <-; reflexivity|].
    destruct (allocate h o) as [[p h1]|]; [|discriminate].
    injection E as _ _ <-. reflexivity.
  - destruct (DoAllocate Ts' h c (CalculateAllocationSize T o c)) as [[[h1 al1] l1]|] eqn:E1;
      [|discriminate].
    injection E as _ _ <-. simpl. f_equal. eapply IH. exact E1.
Qed.

(** The leaves of a new container of capacity [s] right after
    [DoReallocate] has run on the empty temporary. *)
Lemma relocate_empty_leaves s (ptrs : list Z) : forall (Ts0 : list ColType),
  length ptrs = length Ts0 ->
  zip_with (fun (leaf : TupleVecLeaf.t V) pNew =>
              let '(_, fresh) :=
                TupleVecLeaf.DoUninitializedMoveAndDestruct leaf 0 0 (fresh_region s) 0 in
              TupleVecLeaf.mk pNew fresh)
           (map (fun _ => TupleVecLeaf.mk nullptr []) Ts0) ptrs
    = map (fun pNew => TupleVecLeaf.mk pNew (fresh_region s)) ptrs.
Proof.
  induction ptrs as [|p ptrs IH]; intros [|T Ts0] Hlen; simpl in *; try lia; try reflexivity.
  f_equal. apply IH. lia.
Qed.

Lemma moved_out_spec s (ls : list (TupleVecLeaf.t V)) : forall (ptrs : list Z),
  0 <= s -> length ptrs = length ls ->
  Forall (fun leaf => length (TupleVecLeaf.cells leaf) = Z.to_nat s) ls ->
  map TupleVecLeaf.mpData (map snd (moved_out s ls ptrs)) = ptrs /\
  length (map snd (moved_out s ls ptrs)) = length ls /\
  forall j leaf, ls !! j = Some leaf ->
    exists leaf', map snd (moved_out s ls ptrs) !! j = Some leaf' /\
      take (Z.to_nat s) (TupleVecLeaf.cells leaf')
        = take (Z.to_nat s) (TupleVecLeaf.cells leaf).
Proof.
  induction ls as [|leaf0 ls IH]; intros [|p ptrs] Hs Hlen Hall; simpl in *; try lia.
  - repeat split. intros j leaf Hj. discriminate.
  - inversion Hall as [|? ? Hl0 Hall']; subst.
    destruct (IH ptrs Hs ltac:(lia) Hall') as (Hp & Hlen' & Hcol).
    unfold moved_out in *. cbn [zip_with map].
    pose proof (uninitialized_move_to_spec 0 s (TupleVecLeaf.cells leaf0) 0 (fresh_region s))
      as Hmv.
    destruct (uninitialized_move_to 0 s (TupleVecLeaf.cells leaf0) 0 (fresh_region s))
      as [s0 d0].
    destruct Hmv as (_ & Hld & _ & Hrd); try lia.
    { unfold fresh_region. rewrite length_replicate. lia. }
    cbn [map snd fst TupleVecLeaf.mpData TupleVecLeaf.with_cells] in *.
    split; [f_equal; exact Hp|]. split; [simpl; f_equal; exact Hlen'|].
    intros [|j] leaf Hj; simpl in Hj.
    + injection Hj as <-. eexists. split; [reflexivity|]. cbn.
      apply region_ext.
      * rewrite !length_take, Hld. unfold fresh_region. rewrite length_replicate. lia.
      * intros x Hx. rewrite length_take in Hx. rewrite !read_take.
        destruct (Z.ltb_spec x (Z.of_nat (Z.to_nat s))); [|reflexivity].
        rewrite Hrd. zbool. f_equal. lia.
    + apply Hcol. exact Hj.
Qed.


Lemma with_cells_id (leaf : TupleVecLeaf.t V) :
  TupleVecLeaf.with_cells leaf (TupleVecLeaf.cells leaf) = leaf.
Proof. destruct leaf. reflexivity. Qed.

Lemma shrink_empty_pairs : forall (Ts0 : list ColType),
  let ls := map (fun _ => @TupleVecLeaf.mk V nullptr []) Ts0 in
  map snd
    (zip_with (fun (other leaf : TupleVecLeaf.t V) =>
                 let '(s0, d0) := uninitialized_move_to 0 0 (TupleVecLeaf.cells other)
                                    0 (TupleVecLeaf.cells leaf) in
                 (TupleVecLeaf.with_cells other s0, TupleVecLeaf.with_cells leaf d0))
              ls ls) = ls.
Proof.
  induction Ts0 as [|T Ts0 IH]; [reflexivity|]. simpl in *. f_equal. exact IH.
Qed.

(** C8 (as the code has it).  [shrink_to_fit] builds a temporary from the
    elements and swaps it in, whatever the capacity.  On a container whose
    capacity equals its size [s > 0] it therefore allocates a block for
    [s] elements: if that allocation succeeds, size, capacity and the
    content of every column are as before, while the allocation pointer,
    its byte size and the leaf pointers are those of the new block, and
    the old block is released; if it throws, the container is as it was.
    The container in its default state (size and capacity 0, null
    pointers) is left as it is, and no allocation takes place. *)
Theorem shrink_to_fit_at_capacity (h : A) (v : vec) :
  well_formed Ts v -> size v = capacity v ->
  shrink_to_fit Ts h (empty_vec (V:=V) Ts) = Done tt h (empty_vec Ts) /\
  (0 < size v -> DoAllocate Ts h (size v) 0 = None ->
     shrink_to_fit Ts h v = Threw h v) /\
  (0 < size v ->
   forall h1 p bytes ptrs,
     DoAllocate Ts h (size v) 0 = Some (h1, (p, bytes), ptrs) ->
     exists v',
       shrink_to_fit Ts h v
         = Done tt (if negb (mpData v =? nullptr)
                    then deallocate (deallocate h1 nullptr 0) (mpData v) (internalDataSize v)
                    else deallocate h1 nullptr 0) v' /\
       size v' = size v /\
       capacity v' = capacity v /\
       (forall j, column v' j = column v j) /\
       mpData v' = p /\
       internalDataSize v' = bytes /\
       leaf_pointers v' = ptrs).
Proof.
  intros Hwf Hfull. unfold size, capacity in *.
  destruct (well_formed_size_t Ts v Hwf) as [Hs Hc]. unfold is_size_t in Hs, Hc.
  assert (Hsz : wrap (mNumElements v - 0) = mNumElements v)
    by (apply wrap_index; unfold is_size_t; lia).
  split; [|split].
  - unfold shrink_to_fit, DoInitFromIterator_move, DoConditionalReallocate.
    change (TupleVecIter.diff (end_ (empty_vec (V:=V) Ts)) (begin_ (empty_vec Ts))) with 0.
    cbn. rewrite shrink_empty_pairs. reflexivity.
  - intros Hpos Hnone.
    unfold shrink_to_fit, DoInitFromIterator_move, DoConditionalReallocate, DoReallocate.
    unfold TupleVecIter.diff, end_, begin_, size. cbn [TupleVecIter.mIndex].
    rewrite Hsz. cbn [empty_vec mNumCapacity].
    destruct (Z.gtb_spec (mNumElements v) 0); [|lia].
    rewrite Hnone. reflexivity.
  - intros Hpos h1 p bytes ptrs Halloc.
    pose proof (DoAllocate_length Ts h _ _ _ _ _ Halloc) as Hlen.
    destruct Hwf as (_ & _ & Hleaves & Hcells). rewrite <- Hfull in Hcells.
    destruct (moved_out_spec (mNumElements v) (leaves v) ptrs) as (Hp & Hl & Hcol);
      try lia; auto.
    exists (mkImpl (map snd (moved_out (mNumElements v) (leaves v) ptrs))
              p (mNumElements v) (mNumElements v) bytes).
    split; [|split; [|split; [|split; [|split; [|split]]]]]; try reflexivity.
    + unfold shrink_to_fit, DoInitFromIterator_move, DoConditionalReallocate, DoReallocate.
      unfold TupleVecIter.diff, end_, begin_, size. cbn [TupleVecIter.mIndex].
      rewrite Hsz. cbn [empty_vec mNumCapacity].
      destruct (Z.gtb_spec (mNumElements v) 0); [|lia].
      rewrite Halloc. cbn [leaves empty_vec].
      rewrite relocate_empty_leaves by exact Hlen.
      cbn. reflexivity.
    + simpl. exact Hfull.
    + intros j. unfold column. cbn [leaves mNumElements].
      destruct (leaves v !! j) as [leaf|] eqn:Hj.
      * destruct (Hcol j leaf Hj) as (leaf' & -> & E). exact E.
      * rewrite (lookup_ge_None_2 _ j); [reflexivity|].
        rewrite Hl. apply lookup_ge_None_1. exact Hj.
    + exact Hp.
Qed.

End ShrinkProofs.

(* ===================================================================== *)
(** ** The operations on concrete containers *)
(* ===================================================================== *)

Lemma two_columns_well_formed : well_formed [int_t; int_t] two_columns.
Proof.
  unfold well_formed, two_columns, SIZE_MAX_plus_1. simpl.
  repeat split; try lia. repeat constructor.
Defined.

Lemma one_column_well_formed : well_formed [int_t] one_column.
Proof.
  unfold well_formed, one_column, SIZE_MAX_plus_1. simpl.
  repeat split; try lia. repeat constructor.
Defined.

(** Erasing rows 0 and 1 of [two_columns] leaves the row (30, 3). *)
Lemma erase_range_witness :
  well_formed [int_t; int_t] two_columns /\
  size (fst (erase two_columns (two_columns_at 0) (two_columns_at 2))) = 1 /\
  column (fst (erase two_columns (two_columns_at 0) (two_columns_at 2))) 0 = [Live 30] /\
  column (fst (erase two_columns (two_columns_at 0) (two_columns_at 2))) 1 = [Live 3].
Proof.
  split; [exact two_columns_well_formed|].
  destruct (erase_range [int_t; int_t] two_columns (two_columns_at 0) (two_columns_at 2)
              two_columns_well_formed ltac:(simpl; lia) ltac:(simpl; lia))
    as (Hsize & _ & _ & Hcol & _).
  split; [exact Hsize|]. split; rewrite Hcol; reflexivity.
Defined.

(** The scenario of the specification: [erase_unsorted] at index 0 of
    [10, 20, 30] leaves [30, 20]. *)
Lemma erase_unsorted_spec_witness :
  well_formed [int_t] one_column /\
  size (fst (erase_unsorted one_column (one_column_at 0))) = 2 /\
  column (fst (erase_unsorted one_column (one_column_at 0))) 0 = [Live 30; Live 20] /\
  column (fst (erase_unsorted one_column (one_column_at 0))) 0
    ≡ₚ delete 0%nat (column one_column 0).
Proof.
  split; [exact one_column_well_formed|].
  destruct (erase_unsorted_spec [int_t] one_column (one_column_at 0)
              one_column_well_formed ltac:(simpl; lia))
    as (Hsize & _ & _ & _ & Hcol & Hperm & _).
  split; [exact Hsize|]. split; [rewrite Hcol; reflexivity|]. exact (Hperm 0%nat).
Defined.

(** C4 as stated fails at the last position: after [erase_unsorted] at
    index 2 of [10, 20, 30] slot 2 is destroyed; it does not hold the
    value that was at index [s - 1 = 2]. *)
Lemma erase_unsorted_counterexample :
  at_ one_column 2 = [Live 30] /\
  at_ (fst (erase_unsorted one_column (one_column_at 2))) 2 = [Raw] /\
  at_ (fst (erase_unsorted one_column (one_column_at 2))) 2 <> at_ one_column 2.
Proof. split; [reflexivity|]. split; [reflexivity|]. discriminate. Qed.

(** [clear] on [two_columns], and [erase] of the empty range at index 1. *)
Lemma clear_and_empty_erase_witness :
  well_formed [int_t; int_t] two_columns /\
  size (clear two_columns) = 0 /\
  capacity (clear two_columns) = 4 /\
  leaf_pointers (clear two_columns) = [4096; 4112] /\
  at_ (clear two_columns) 0 = [Raw; Raw] /\
  erase two_columns (two_columns_at 1) (two_columns_at 1) = (two_columns, two_columns_at 1).
Proof.
  split; [exact two_columns_well_formed|].
  destruct (clear_and_empty_erase [int_t; int_t] two_columns (two_columns_at 1)
              (two_columns_at 1) two_columns_well_formed
              ltac:(unfold is_size_t, SIZE_MAX_plus_1; simpl; lia) eq_refl)
    as (H1 & H2 & _ & _ & H5 & H6 & _ & H8).
  split; [exact H1|]. split; [exact H2|]. split; [exact H5|].
  split; [exact (H6 0 ltac:(simpl; lia))|]. exact H8.
Defined.


(** [shrink_to_fit] on [one_column], whose capacity is its size. *)
Lemma shrink_to_fit_at_capacity_witness :
  well_formed [int_t] one_column /\ size one_column = capacity one_column /\
  exists h' v',
    shrink_to_fit [int_t] one_column_heap one_column = Done tt h' v' /\
    size v' = 3 /\ capacity v' = 3 /\
    column v' 0 = [Live 10; Live 20; Live 30] /\
    mpData v' = 4108.
Proof.
  split; [exact one_column_well_formed|]. split; [reflexivity|].
  destruct (shrink_to_fit_at_capacity [int_t] one_column_heap one_column
              one_column_well_formed eq_refl) as (_ & _ & Hgo).
  destruct (Hgo ltac:(simpl; lia) (mkBump 4120 [(4108, 12); (4096, 12)]) 4108 12 [4108]
              eq_refl) as (v' & Hrun & Hsize & Hcap & Hcol & Hp & _).
  eexists. exists v'. split; [exact Hrun|]. split; [exact Hsize|]. split; [exact Hcap|].
  split; [rewrite Hcol; reflexivity|exact Hp].
Defined.

(** C8 as stated fails: on [one_column], whose capacity equals its size,
    [shrink_to_fit] allocates a block (the break of the heap advances) and
    the allocation pointer and the leaf pointer change. *)
Lemma shrink_to_fit_counterexample :
  size one_column = capacity one_column /\
  exists h' v',
    shrink_to_fit [int_t] one_column_heap one_column = Done tt h' v' /\
    bump_next h' <> bump_next one_column_heap /\
    mpData v' <> mpData one_column /\
    leaf_pointers v' <> leaf_pointers one_column.
Proof.
  split; [reflexivity|]. do 2 eexists.
  split; [vm_compute; reflexivity|]. repeat split; discriminate.
Qed.

(** C2 on the code.  On an arena with room for eight bytes two
    [push_back]s of an [int] fill a block for two rows.  The third
    [push_back] needs a block for six rows; the allocation throws.  The
    heap and with it the old block, the capacity, the allocation pointer
    and the leaf with its region are as before the call, but the size is
    3: it is no longer the size before the call, it exceeds the capacity,
    and [validate] rejects the container. *)
Theorem push_back_failed_allocation :
  exists h2 v2 v3,
    push_back_all [int_t] small_arena (empty_vec [int_t]) [[10]; [20]] = Done tt h2 v2 /\
    size v2 = 2 /\ capacity v2 = 2 /\ validate v2 = true /\
    push_back [int_t] h2 v2 [30] = Threw h2 v3 /\
    arena_live h2 = [(4096, 8)] /\
    mpData v3 = mpData v2 /\ leaves v3 = leaves v2 /\ capacity v3 = capacity v2 /\
    size v3 = 3 /\ size v3 <> size v2 /\ size v3 > capacity v3 /\
    validate v3 = false.
Proof.
  do 3 eexists. split; [vm_compute; reflexivity|].
  split; [reflexivity|]. split; [reflexivity|]. split; [reflexivity|].
  split; [vm_compute; reflexivity|].
  repeat split; try reflexivity. discriminate.
Qed.


Lemma int_columns_well_formed : Forall well_formed_type [int_t; int_t].
Proof.
  repeat constructor; try (exists 2; simpl; lia); simpl; lia.
Defined.

(** C9 as stated fails when the layout does not fit [std::size_t]: for
    two [int] columns and the capacity 2^62 the size of the first column,
    4 * 2^62, wraps to 0.  The specified offset of the second column is
    2^64 and the specified total 2^65; [DoAllocate] requests a block of 0
    bytes and gives both columns the address of that block, so that the
    regions of the two columns are the same. *)
Lemma layout_computation_counterexample :
  Forall well_formed_type [int_t; int_t] /\
  spec_offsets [int_t; int_t] (2 ^ 62) = [0; 2 ^ 64] /\
  spec_total [int_t; int_t] (2 ^ 62) = 2 ^ 65 /\
  CalculateAllocationSize int_t 0 (2 ^ 62) = 0 /\
  DoAllocate [int_t; int_t] (mkBump 4096 []) (2 ^ 62) 0
    = Some (mkBump 4096 [(4096, 0)], (4096, 0), [4096; 4096]) /\
  DoAllocate [int_t; int_t] (mkBump 4096 []) (2 ^ 62) 0
    <> layout_result [int_t; int_t] (mkBump 4096 []) (2 ^ 62) 0.
Proof.
  split; [exact int_columns_well_formed|].
  split; [vm_compute; reflexivity|]. split; [vm_compute; reflexivity|].
  split; [vm_compute; reflexivity|]. split; [vm_compute; reflexivity|].
  vm_compute. discriminate.
Qed.

(* ===================================================================== *)
(** ** Relocation into a new block *)
(* ===================================================================== *)

Section Relocate.
Context {V A : Type} `{Allocator A} {EV : MoveAssignable V}.
Variable Ts : list ColType.

Local Abbreviation vec := (TupleVecImpl V).

Lemma read_fresh_region r x : read_slot (fresh_region (V:=V) r) x = Raw.
Proof. unfold fresh_region. rewrite read_replicate. destruct (_ && _); reflexivity. Qed.

Lemma length_fresh_region r : length (fresh_region (V:=V) r) = Z.to_nat r.
Proof. unfold fresh_region. apply length_replicate. Qed.

Lemma DoUninitializedMoveAndDestruct_spec (leaf : TupleVecLeaf.t V) b e dst d :
  0 <= b <= e -> e <= Z.of_nat (length (TupleVecLeaf.cells leaf)) ->
  0 <= d -> d + (e - b) <= Z.of_nat (length dst) ->
  let res := TupleVecLeaf.DoUninitializedMoveAndDestruct leaf b e dst d in
  TupleVecLeaf.mpData (fst res) = TupleVecLeaf.mpData leaf /\
  length (TupleVecLeaf.cells (fst res)) = length (TupleVecLeaf.cells leaf) /\
  length (snd res) = length dst /\
  (forall x, read_slot (TupleVecLeaf.cells (fst res)) x =
     if (b <=? x) && (x <? e) then Raw else read_slot (TupleVecLeaf.cells leaf) x) /\
  (forall x, read_slot (snd res) x =
     if (d <=? x) && (x <? d + (e - b)) then read_slot (TupleVecLeaf.cells leaf) (x - d + b)
     else read_slot dst x).
Proof.
  intros Hbe He Hd Hfit. unfold TupleVecLeaf.DoUninitializedMoveAndDestruct.
  pose proof (uninitialized_move_to_spec b e (TupleVecLeaf.cells leaf) d dst Hbe He Hd Hfit)
    as Hmv.
  destruct (uninitialized_move_to b e (TupleVecLeaf.cells leaf) d dst) as [s0 d0].
  cbn [fst snd] in *. destruct Hmv as (Hl1 & Hl2 & Hr1 & Hr2).
  destruct (destroy_spec b e s0) as [Hl3 Hr3]; try lia.
  cbn. split; [reflexivity|]. split; [lia|]. split; [exact Hl2|]. split; [|exact Hr2].
  intros x. rewrite Hr3, Hr1. zbool.
Qed.

Lemma zip_with_leaves_lookup {B} (f : TupleVecLeaf.t V -> B -> TupleVecLeaf.t V)
    (ls : list (TupleVecLeaf.t V)) (bs : list B) :
  length bs = length ls ->
  length (zip_with f ls bs) = length ls /\
  forall j leaf, ls !! j = Some leaf ->
    exists b, bs !! j = Some b /\ zip_with f ls bs !! j = Some (f leaf b).
Proof.
  intros Hlen. split; [rewrite length_zip_with; lia|].
  intros j leaf Hj.
  destruct (bs !! j) as [b|] eqn:Hb.
  - exists b. split; [reflexivity|]. rewrite lookup_zip_with, Hj. simpl. rewrite Hb. reflexivity.
  - apply lookup_ge_None_1 in Hb. apply lookup_lt_Some in Hj. lia.
Qed.

Lemma zip_with_leaves_Forall {B} (P : TupleVecLeaf.t V -> Prop)
    (f : TupleVecLeaf.t V -> B -> TupleVecLeaf.t V) (ls : list (TupleVecLeaf.t V)) :
  forall (bs : list B),
  (forall leaf b, In leaf ls -> P (f leaf b)) ->
  Forall P (zip_with f ls bs).
Proof.
  induction ls as [|leaf ls IH]; intros [|b bs] Hf; simpl; try constructor.
  - apply Hf. left. reflexivity.
  - apply IH. intros. apply Hf. right. assumption.
Qed.

Lemma zip_with_new_pointers (f : TupleVecLeaf.t V -> Z -> TupleVecLeaf.t V)
    (ls : list (TupleVecLeaf.t V)) :
  forall (ptrs : list Z),
  length ptrs = length ls ->
  (forall leaf p, In leaf ls -> TupleVecLeaf.mpData (f leaf p) = p) ->
  map TupleVecLeaf.mpData (zip_with f ls ptrs) = ptrs.
Proof.
  induction ls as [|leaf ls IH]; intros [|p ptrs] Hlen Hf; simpl in *; try lia; [reflexivity|].
  rewrite Hf by (left; reflexivity). f_equal. apply IH; [lia|].
  intros. apply Hf. right. assumption.
Qed.

(** The container [DoReallocate] leaves when the allocation succeeds:
    every column holds its first [o] elements at the start of a region of
    [r] raw slots behind its new pointer. *)
Lemma DoReallocate_run (h : A) (v : vec) o r h1 p bytes ptrs :
  length (leaves v) = length Ts ->
  Forall (fun leaf => length (TupleVecLeaf.cells leaf) = Z.to_nat (mNumCapacity v)) (leaves v) ->
  0 <= o <= mNumCapacity v -> o <= r ->
  DoAllocate Ts h r 0 = Some (h1, (p, bytes), ptrs) ->
  exists v',
    DoReallocate Ts h v o r
      = Done tt (deallocate h1 (mpData v) (internalDataSize v)) v' /\
    mNumElements v' = mNumElements v /\ mNumCapacity v' = r /\
    mpData v' = p /\ internalDataSize v' = bytes /\
    leaf_pointers v' = ptrs /\
    length (leaves v') = length Ts /\
    Forall (fun leaf => length (TupleVecLeaf.cells leaf) = Z.to_nat r) (leaves v') /\
    forall j leaf, leaves v !! j = Some leaf ->
      exists leaf', leaves v' !! j = Some leaf' /\
        forall x, read_slot (TupleVecLeaf.cells leaf') x =
          if (0 <=? x) && (x <? o) then read_slot (TupleVecLeaf.cells leaf) x else Raw.
Proof.
  intros Hleaves Hcells Ho Hor Halloc.
  pose proof (DoAllocate_length Ts h _ _ _ _ _ Halloc) as Hlen.
  unfold DoReallocate. rewrite Halloc. cbn [fst snd].
  set (f := fun (leaf : TupleVecLeaf.t V) (pNew : Z) =>
              let '(_, fresh) :=
                TupleVecLeaf.DoUninitializedMoveAndDestruct leaf 0 o (fresh_region r) 0 in
              TupleVecLeaf.mk pNew fresh).
  assert (Hf : forall leaf pNew, In leaf (leaves v) ->
            TupleVecLeaf.mpData (f leaf pNew) = pNew /\
            length (TupleVecLeaf.cells (f leaf pNew)) = Z.to_nat r /\
            forall x, read_slot (TupleVecLeaf.cells (f leaf pNew)) x =
              if (0 <=? x) && (x <? o) then read_slot (TupleVecLeaf.cells leaf) x else Raw).
  { intros leaf pNew Hin. rewrite List.Forall_forall in Hcells.
    pose proof (Hcells leaf Hin) as Hl.
    pose proof (DoUninitializedMoveAndDestruct_spec leaf 0 o (fresh_region r) 0) as Hsp.
    unfold f.
    destruct (TupleVecLeaf.DoUninitializedMoveAndDestruct leaf 0 o (fresh_region r) 0)
      as [leaf1 fresh].
    destruct Hsp as (_ & _ & Hl2 & _ & Hr2); try lia.
    { rewrite length_fresh_region. lia. }
    cbn [fst snd] in *. cbn. split; [reflexivity|].
    split; [rewrite Hl2; apply length_fresh_region|].
    intros x. rewrite Hr2, read_fresh_region. zbool. f_equal. lia. }
  eexists. split; [reflexivity|]. cbn.
  destruct (zip_with_leaves_lookup f (leaves v) ptrs ltac:(lia)) as [Hzl Hzj].
  repeat split; auto.
  - unfold leaf_pointers. cbn. apply zip_with_new_pointers; [lia|].
    intros leaf q Hin. apply (Hf leaf q Hin).
  - lia.
  - apply zip_with_leaves_Forall. intros leaf b Hin. apply (Hf leaf b Hin).
  - intros j leaf Hj. destruct (Hzj j leaf Hj) as (b & Hb & Hz).
    exists (f leaf b). split; [exact Hz|].
    apply Hf. apply list_elem_of_In. eapply list_elem_of_lookup_2. exact Hj.
Qed.

End Relocate.

(* ===================================================================== *)
(** ** Appending and removing at the end *)
(* ===================================================================== *)

Section BackProofs.
Context {V A : Type} `{Allocator A} {EV : MoveAssignable V}.
Variable Ts : list ColType.

Local Abbreviation vec := (TupleVecImpl V).

(** A column is determined by what its first [size()] slots read. *)
Lemma column_reads (v' : vec) j leaf' (l : list (slot V)) :
  leaves v' !! j = Some leaf' ->
  Z.of_nat (length l) = mNumElements v' ->
  mNumElements v' <= Z.of_nat (length (TupleVecLeaf.cells leaf')) ->
  (forall x, 0 <= x < mNumElements v' ->
     read_slot (TupleVecLeaf.cells leaf') x = read_slot l x) ->
  column v' j = l.
Proof.
  intros Hj Hl Hfit Hrd. unfold column. rewrite Hj. apply region_ext.
  - rewrite length_take. lia.
  - intros x Hx. rewrite length_take in Hx. rewrite read_take.
    destruct (Z.ltb_spec x (Z.of_nat (Z.to_nat (mNumElements v')))); [|lia].
    apply Hrd. lia.
Qed.

Lemma read_column (v : vec) j leaf x :
  leaves v !! j = Some leaf ->
  read_slot (column v j) x =
    if x <? Z.of_nat (Z.to_nat (mNumElements v)) then read_slot (TupleVecLeaf.cells leaf) x
    else Raw.
Proof. intros Hj. unfold column. rewrite Hj. apply read_take. Qed.

Lemma length_column (v : vec) j leaf :
  well_formed Ts v -> leaves v !! j = Some leaf ->
  Z.of_nat (length (column v j)) = mNumElements v.
Proof.
  intros Hwf Hj. unfold column. rewrite Hj, length_take.
  assert (Hin : In leaf (leaves v))
    by (apply list_elem_of_In; eapply list_elem_of_lookup_2; exact Hj).
  rewrite (well_formed_cells Ts v leaf Hwf Hin).
  destruct Hwf as (Hs & _). lia.
Qed.

Lemma read_singleton (s : slot V) x :
  read_slot [s] x = if x =? 0 then s else Raw.
Proof.
  unfold read_slot. destruct (Z.ltb_spec x 0), (Z.eqb_spec x 0); try lia; try reflexivity.
  - subst. reflexivity.
  - destruct (Z.to_nat x) as [|k] eqn:E; [lia|]. reflexivity.
Qed.

(** The leaves after the pack expansion that constructs one row. *)
Lemma each_leaf_arg_lookup f (args : list V) (v : vec) j leaf arg :
  leaves v !! j = Some leaf -> args !! j = Some arg ->
  leaves (each_leaf_arg f args v) !! j
    = Some (TupleVecLeaf.with_cells leaf (f arg (TupleVecLeaf.cells leaf))).
Proof.
  intros Hj Ha. unfold each_leaf_arg. cbn.
  rewrite lookup_zip_with, Hj. simpl. rewrite Ha. reflexivity.
Qed.

Lemma each_leaf_arg_well_formed f (args : list V) (v : vec) :
  well_formed Ts v -> length args = length Ts ->
  (forall arg c, length (f arg c) = length c) ->
  well_formed Ts (each_leaf_arg f args v).
Proof.
  intros (Hs & Hc & Hl & Hcells) Hargs Hf. unfold well_formed, each_leaf_arg. cbn.
  repeat split; try lia.
  - rewrite length_zip_with. lia.
  - apply zip_with_leaves_Forall. intros leaf b Hin. cbn. rewrite Hf.
    rewrite List.Forall_forall in Hcells. auto.
Qed.

Lemma each_leaf_arg_pointers f (args : list V) (v : vec) :
  length args = length (leaves v) ->
  leaf_pointers (each_leaf_arg f args v) = leaf_pointers v.
Proof.
  intros Hlen. unfold leaf_pointers, each_leaf_arg. cbn.
  apply zip_leaves_pointers; auto.
Qed.

(** What a [push_back] that completes leaves: with room the row is
    constructed in place; on a full container the elements move to a
    block for [2 * (size + 1)] rows first. *)
Lemma push_back_run (h : A) (v : vec) (args : list V) :
  well_formed Ts v -> size v + 1 < 2 ^ 63 -> length args = length Ts ->
  (size v < capacity v ->
   exists v',
     push_back Ts h v args = Done tt h v' /\
     well_formed Ts v' /\ size v' = size v + 1 /\
     (forall j arg, args !! j = Some arg -> column v' j = column v j ++ [Live arg]) /\
     capacity v' = capacity v /\ mpData v' = mpData v /\
     leaf_pointers v' = leaf_pointers v) /\
  (size v = capacity v ->
   forall h1 p bytes ptrs,
     DoAllocate Ts h (2 * (size v + 1)) 0 = Some (h1, (p, bytes), ptrs) ->
     exists v',
       push_back Ts h v args
         = Done tt (deallocate h1 (mpData v) (internalDataSize v)) v' /\
       well_formed Ts v' /\ size v' = size v + 1 /\
       (forall j arg, args !! j = Some arg -> column v' j = column v j ++ [Live arg]) /\
       capacity v' = 2 * (size v + 1) /\ mpData v' = p /\
       leaf_pointers v' = ptrs).
Proof.
  intros Hwf Hfit Hargs. unfold size, capacity in *.
  pose proof Hwf as (Hs & Hc & Hl & Hcells).
  set (s := mNumElements v) in *.
  assert (Hreq : wrap (s + 1) = s + 1)
    by (apply wrap_small; unfold is_size_t, SIZE_MAX_plus_1; lia).
  (* the row written at [s] into regions that keep the first [s] slots *)
  assert (Hrow : forall (v2 : vec),
    mNumElements v2 = s + 1 -> s + 1 <= mNumCapacity v2 ->
    mNumCapacity v2 < SIZE_MAX_plus_1 ->
    length (leaves v2) = length Ts ->
    Forall (fun leaf => length (TupleVecLeaf.cells leaf) = Z.to_nat (mNumCapacity v2))
      (leaves v2) ->
    (forall j leaf, leaves v !! j = Some leaf ->
       exists leaf2, leaves v2 !! j = Some leaf2 /\
         forall x, 0 <= x < s ->
           read_slot (TupleVecLeaf.cells leaf2) x = read_slot (TupleVecLeaf.cells leaf) x) ->
    let v' := each_leaf_arg (fun arg => write_slot s (Live arg)) args v2 in
    well_formed Ts v' /\ mNumElements v' = s + 1 /\
    (forall j arg, args !! j = Some arg -> column v' j = column v j ++ [Live arg])).
  { intros v2 Hs2 Hc2 Hc2' Hl2 Hcells2 Hkeep v'.
    assert (Hwf2 : well_formed Ts v2) by (unfold well_formed; repeat split; auto; lia).
    split; [|split; [exact Hs2|]].
    - apply each_leaf_arg_well_formed; auto. intros. apply length_write_slot.
    - intros j arg Harg.
      destruct (leaves v !! j) as [leaf|] eqn:Hj.
      2:{ apply lookup_ge_None_1 in Hj. apply lookup_lt_Some in Harg. lia. }
      destruct (Hkeep j leaf Hj) as (leaf2 & Hj2 & Hrd).
      assert (Hin2 : In leaf2 (leaves v2))
        by (apply list_elem_of_In; eapply list_elem_of_lookup_2; exact Hj2).
      pose proof (well_formed_cells Ts v2 leaf2 Hwf2 Hin2) as Hlen2.
      pose proof (length_column v j leaf Hwf Hj) as Hlc. fold s in Hlc.
      eapply column_reads.
      + subst v'. apply each_leaf_arg_lookup; eauto.
      + rewrite length_app. simpl. change (mNumElements v') with (mNumElements v2). lia.
      + cbn. rewrite length_write_slot. change (mNumElements v') with (mNumElements v2). lia.
      + intros x Hx. change (mNumElements v') with (mNumElements v2) in Hx. cbn.
        rewrite read_app by lia. rewrite Hlc.
        destruct (Z.ltb_spec x s).
        * rewrite read_write_ne by lia. rewrite Hrd by lia.
          rewrite (read_column v j leaf x Hj). fold s.
          destruct (Z.ltb_spec x (Z.of_nat (Z.to_nat s))); [reflexivity|lia].
        * replace x with s by lia. rewrite read_write_eq by lia.
          rewrite Z.sub_diag. reflexivity. }
  split.
  - intros Hroom. unfold push_back, DoGrow. fold s. rewrite Hreq.
    destruct (Z.gtb_spec (s + 1) (mNumCapacity v)); [lia|]. cbn [and_then].
    eexists. split; [reflexivity|].
    destruct (Hrow (set_mNumElements (s + 1) v)) as (H1 & H2 & H3);
      cbn; auto; try lia.
    { intros j leaf Hj. exists leaf. split; [exact Hj|reflexivity]. }
    split; [exact H1|]. split; [exact H2|]. split; [exact H3|].
    split; [reflexivity|]. split; [reflexivity|].
    unfold leaf_pointers. apply zip_leaves_pointers; [lia|reflexivity].
  - intros Hfull h1 p bytes ptrs Halloc.
    assert (Hnew : GetNewCapacity (s + 1) = 2 * (s + 1))
      by (apply GetNewCapacity_double; unfold SIZE_MAX_plus_1; lia).
    destruct (DoReallocate_run Ts h (set_mNumElements (s + 1) v) s (2 * (s + 1))
                h1 p bytes ptrs) as (v2 & Hrun & Hs2 & Hc2 & Hp2 & Hb2 & Hptr2 & Hl2 & Hcells2 & Hkeep);
      cbn; auto; try lia.
    unfold push_back, DoGrow. fold s. rewrite Hreq, Hnew.
    destruct (Z.gtb_spec (s + 1) (mNumCapacity v)); [|lia].
    rewrite Hrun. cbn [and_then].
    eexists. split; [reflexivity|].
    destruct (Hrow v2) as (H1 & H2 & H3); auto; try lia.
    { rewrite Hc2. unfold SIZE_MAX_plus_1. lia. }
    { rewrite Hc2. exact Hcells2. }
    { intros j leaf Hj. destruct (Hkeep j leaf Hj) as (leaf2 & Hj2 & Hrd).
      exists leaf2. split; [exact Hj2|]. intros x Hx. rewrite Hrd. zbool. }
    split; [exact H1|]. split; [exact H2|]. split; [exact H3|].
    split; [exact Hc2|]. split; [exact Hp2|].
    rewrite each_leaf_arg_pointers; [exact Hptr2|]. lia.
Qed.


(** Every [push_back] that completes, whichever way. *)
Lemma push_back_Done (h : A) (v : vec) (args : list V) h' v' :
  well_formed Ts v -> size v + 1 < 2 ^ 63 -> length args = length Ts ->
  push_back Ts h v args = Done tt h' v' ->
  well_formed Ts v' /\ size v' = size v + 1 /\
  (forall j arg, args !! j = Some arg -> column v' j = column v j ++ [Live arg]).
Proof.
  intros Hwf Hfit Hargs Hrun.
  destruct (push_back_run h v args Hwf Hfit Hargs) as [Hroom Hfull].
  pose proof Hwf as (Hs & _). unfold size, capacity in *.
  destruct (Z_lt_le_dec (mNumElements v) (mNumCapacity v)) as [Hlt|Hge].
  - destruct (Hroom Hlt) as (v0 & E & H1 & H2 & H3 & _).
    rewrite E in Hrun. injection Hrun as _ <-. auto.
  - assert (Heq : mNumElements v = mNumCapacity v) by lia.
    destruct (DoAllocate Ts h (2 * (mNumElements v + 1)) 0) as [[[h1 [p bytes]] ptrs]|] eqn:Ha.
    + destruct (Hfull Heq h1 p bytes ptrs eq_refl) as (v0 & E & H1 & H2 & H3 & _).
      rewrite E in Hrun. injection Hrun as _ <-. auto.
    + exfalso. pose proof (push_back_cases Ts h v args) as Hc. cbn zeta in Hc.
      rewrite Hrun in Hc. destruct Hc as [_ Hcap].
      rewrite (wrap_small (mNumElements v + 1)) in Hcap
        by (unfold is_size_t, SIZE_MAX_plus_1; lia).
      unfold push_back, DoGrow, DoReallocate in Hrun.
      rewrite (wrap_small (mNumElements v + 1)) in Hrun
        by (unfold is_size_t, SIZE_MAX_plus_1; lia).
      destruct (Z.gtb_spec (mNumElements v + 1) (mNumCapacity v)); [|lia].
      rewrite GetNewCapacity_double in Hrun by (unfold SIZE_MAX_plus_1; lia).
      rewrite Ha in Hrun. discriminate.
Qed.

Lemma each_leaf_well_formed g (v : vec) :
  well_formed Ts v -> (forall c, length (g c) = length c) ->
  well_formed Ts (each_leaf g v).
Proof.
  intros (Hs & Hc & Hl & Hcells) Hg. unfold well_formed, each_leaf. cbn.
  repeat split; try lia.
  - rewrite length_map. exact Hl.
  - apply Forall_map. eapply Forall_impl; [exact Hcells|].
    intros leaf Hlen. cbn. rewrite Hg. exact Hlen.
Qed.

Lemma length_destroy first last (a : list (slot V)) : length (destroy first last a) = length a.
Proof.
  unfold destroy. generalize (Z.to_nat (last - first)) as cnt.
  intros cnt. revert a. generalize 0 as k. induction cnt as [|c IH]; intros k a; [reflexivity|].
  cbn [for_each_offset]. rewrite IH. apply length_write_slot.
Qed.

Lemma well_formed_resized (v : vec) n :
  well_formed Ts v -> 0 <= n <= mNumCapacity v -> well_formed Ts (set_mNumElements n v).
Proof. intros (Hs & Hc & Hl & Hcells) Hn. unfold well_formed. cbn. auto. Qed.

(** What [pop_back] leaves. *)
Lemma pop_back_spec (v : vec) :
  well_formed Ts v -> 0 < size v ->
  well_formed Ts (pop_back v) /\
  size (pop_back v) = size v - 1 /\
  (forall j, column (pop_back v) j = take (Z.to_nat (size v - 1)) (column v j)) /\
  at_ (pop_back v) (size v - 1) = map (fun _ => Raw) (leaves v).
Proof.
  intros Hwf Hpos. unfold size in *. pose proof Hwf as (Hs & Hc & Hl & Hcells).
  assert (Hw : wrap (mNumElements v - 1) = mNumElements v - 1)
    by (apply wrap_small; unfold is_size_t; lia).
  unfold pop_back. rewrite Hw.
  split; [|split; [reflexivity|split]].
  - apply each_leaf_well_formed; [apply well_formed_resized; auto; lia|].
    intros. apply length_destroy.
  - intros j. destruct (leaves v !! j) as [leaf|] eqn:Hj.
    + assert (Hin : In leaf (leaves v))
        by (apply list_elem_of_In; eapply list_elem_of_lookup_2; exact Hj).
      pose proof (well_formed_cells Ts v leaf Hwf Hin) as Hlen.
      destruct (destroy_spec (mNumElements v - 1) (mNumElements v) (TupleVecLeaf.cells leaf))
        as [Hl1 Hr1]; try lia.
      eapply column_reads.
      * unfold each_leaf. cbn. rewrite list_lookup_fmap, Hj. reflexivity.
      * cbn. rewrite length_take. rewrite Nat2Z.inj_min.
        rewrite (length_column v j leaf Hwf Hj). lia.
      * cbn. lia.
      * intros x Hx. cbn in Hx |- *. rewrite Hr1, read_take.
        rewrite (read_column v j leaf x Hj). zbool.
    + unfold column, each_leaf. cbn. rewrite list_lookup_fmap, Hj. cbn.
      rewrite take_nil. reflexivity.
  - rewrite at_each_leaf. apply map_ext_in. intros leaf Hin.
    pose proof (well_formed_cells Ts v leaf Hwf Hin) as Hlen.
    destruct (destroy_spec (mNumElements v - 1) (mNumElements v) (TupleVecLeaf.cells leaf))
      as [_ Hr1]; try lia.
    rewrite Hr1. zbool.
Qed.

End BackProofs.

(* ===================================================================== *)
(** ** Further properties of the iterator and of the layout walkers *)
(* ===================================================================== *)

(** X1.  Stepping an iterator forth and back returns to it, also across
    the wrap-around of the index: [--(++it)], [++(--it)], [(it + n) - n]
    and [(it - n) + n] are [it] itself, pointers included. *)
Theorem iterator_round_trips (it : TupleVecIter.t) (n : size_type) :
  is_size_t (TupleVecIter.mIndex it) ->
  TupleVecIter.decr (TupleVecIter.incr it) = it /\
  TupleVecIter.incr (TupleVecIter.decr it) = it /\
  TupleVecIter.minus (TupleVecIter.plus it n) n = it /\
  TupleVecIter.plus (TupleVecIter.minus it n) n = it /\
  TupleVecIter.minus_l n (TupleVecIter.plus_l n it) = it.
Proof.
  intros Hi. destruct it as [i ptrs]. cbn in Hi.
  unfold TupleVecIter.decr, TupleVecIter.incr, TupleVecIter.minus, TupleVecIter.plus,
    TupleVecIter.minus_l, TupleVecIter.plus_l, TupleVecIter.sub_assign,
    TupleVecIter.add_assign. cbn.
  assert (E1 : forall k, wrap (wrap (i + k) - k) = i).
  { intros k. rewrite wrap_sub_idemp_l. replace (i + k - k) with i by lia.
    apply wrap_small. exact Hi. }
  assert (E2 : forall k, wrap (wrap (i - k) + k) = i).
  { intros k. rewrite wrap_add_idemp_l. replace (i - k + k) with i by lia.
    apply wrap_small. exact Hi. }
  rewrite !E1, !E2. repeat split.
Qed.

Lemma iterator_round_trips_witness :
  is_size_t (TupleVecIter.mIndex (two_columns_at 0)) /\
  TupleVecIter.incr (TupleVecIter.decr (two_columns_at 0)) = two_columns_at 0 /\
  TupleVecIter.mIndex (TupleVecIter.decr (two_columns_at 0)) = 2 ^ 64 - 1.
Proof.
  assert (Hi : is_size_t (TupleVecIter.mIndex (two_columns_at 0)))
    by (unfold is_size_t, SIZE_MAX_plus_1; simpl; lia).
  split; [exact Hi|].
  destruct (iterator_round_trips (two_columns_at 0) 1 Hi) as (_ & H2 & _).
  split; [exact H2|reflexivity].
Defined.

(** X2.  The relational operators compare the indices only.  Of two
    iterators over the same storage exactly one of [a < b], [a == b],
    [a > b] holds; [<=] and [>=] are the negations of [>] and [<]; and
    [a < b] holds exactly when [b - a] is a positive offset that leads
    from [a] to [b]. *)
Theorem iterator_order (a b : TupleVecIter.t) :
  is_size_t (TupleVecIter.mIndex a) -> is_size_t (TupleVecIter.mIndex b) ->
  TupleVecIter.mpData0 a = TupleVecIter.mpData0 b ->
  (TupleVecIter.lt a b = true /\ TupleVecIter.eq a b = false /\ TupleVecIter.gt a b = false \/
   TupleVecIter.lt a b = false /\ TupleVecIter.eq a b = true /\ TupleVecIter.gt a b = false \/
   TupleVecIter.lt a b = false /\ TupleVecIter.eq a b = false /\ TupleVecIter.gt a b = true) /\
  TupleVecIter.le a b = negb (TupleVecIter.gt a b) /\
  TupleVecIter.ge a b = negb (TupleVecIter.lt a b) /\
  TupleVecIter.gt a b = TupleVecIter.lt b a /\
  (TupleVecIter.lt a b = true <->
     0 < TupleVecIter.diff b a /\
     TupleVecIter.mIndex a + TupleVecIter.diff b a = TupleVecIter.mIndex b).
Proof.
  intros Ha Hb Hp. unfold is_size_t in *.
  unfold TupleVecIter.lt, TupleVecIter.gt, TupleVecIter.le, TupleVecIter.ge,
    TupleVecIter.eq, TupleVecIter.diff. rewrite Hp, (Z.eqb_refl (TupleVecIter.mpData0 b)).
  set (i := TupleVecIter.mIndex a) in *. set (j := TupleVecIter.mIndex b) in *.
  rewrite andb_true_r, !Z.gtb_ltb, Z.geb_leb.
  split; [|split; [|split; [|split]]].
  - destruct (Z.ltb_spec i j), (Z.eqb_spec i j), (Z.ltb_spec j i); try lia; auto.
  - destruct (Z.leb_spec i j), (Z.ltb_spec j i); try lia; reflexivity.
  - destruct (Z.leb_spec j i), (Z.ltb_spec i j); try lia; reflexivity.
  - reflexivity.
  - split.
    + intros Hlt. apply Z.ltb_lt in Hlt.
      rewrite (wrap_small (j - i)) by (unfold is_size_t; lia). lia.
    + intros [Hpos Hsum]. apply Z.ltb_lt. lia.
Qed.

Lemma iterator_order_witness :
  is_size_t (TupleVecIter.mIndex (two_columns_at 1)) /\
  TupleVecIter.lt (two_columns_at 1) (two_columns_at 3) = true /\
  TupleVecIter.diff (two_columns_at 3) (two_columns_at 1) = 2.
Proof.
  assert (H1 : is_size_t (TupleVecIter.mIndex (two_columns_at 1)))
    by (unfold is_size_t, SIZE_MAX_plus_1; simpl; lia).
  assert (H3 : is_size_t (TupleVecIter.mIndex (two_columns_at 3)))
    by (unfold is_size_t, SIZE_MAX_plus_1; simpl; lia).
  split; [exact H1|].
  destruct (iterator_order (two_columns_at 1) (two_columns_at 3) H1 H3 eq_refl)
    as (_ & _ & _ & _ & Hlt).
  split; [apply Hlt; split; reflexivity|reflexivity].
Defined.

(** X3.  The two walkers of the layout agree, whatever the column types:
    the leaf pointers [DoAllocate] writes for a block are the ones
    [SetNewData] computes for the same block, the byte size it returns is
    [GetTotalAllocationSize], and it hands exactly that size to the
    allocator (or leaves the heap alone for capacity 0). *)
Theorem layout_walkers_agree {A : Type} `{Allocator A} (Ts : list ColType) (h : A)
    (capacity offset : size_type) h' ptr bytes ppNewLeaf :
  DoAllocate Ts h capacity offset = Some (h', (ptr, bytes), ppNewLeaf) ->
  ppNewLeaf = SetNewData Ts ptr capacity offset /\
  bytes = GetTotalAllocationSize Ts capacity offset /\
  length ppNewLeaf = length Ts /\
  (if capacity =? 0 then h' = h /\ ptr = nullptr
   else allocate h bytes = Some (ptr, h')).
Proof.
  revert offset ppNewLeaf.
  induction Ts as [|T Ts' IH]; intros offset ppNewLeaf E; simpl in E.
  - destruct (capacity =? 0).
    + injection E as <- <- <- <-. auto.
    + destruct (allocate h offset) as [[q h1]|] eqn:Ea; [|discriminate].
      injection E as <- <- <- <-. auto.
  - destruct (DoAllocate Ts' h capacity (CalculateAllocationSize T offset capacity))
      as [[[h1 [q b]] l]|] eqn:E1; [|discriminate].
    injection E as <- <- <- <-. cbn [fst].
    destruct (IH _ _ E1) as (-> & -> & Hlen & Hal).
    cbn [SetNewData GetTotalAllocationSize length]. auto.
Qed.

Lemma layout_walkers_agree_witness :
  DoAllocate [int_t; double_t; char_t] (mkBump 4096 []) 3 0
    = Some (mkBump 4139 [(4096, 43)], (4096, 43), [4096; 4112; 4136]) /\
  SetNewData [int_t; double_t; char_t] 4096 3 0 = [4096; 4112; 4136] /\
  GetTotalAllocationSize [int_t; double_t; char_t] 3 0 = 43.
Proof.
  assert (E : DoAllocate [int_t; double_t; char_t] (mkBump 4096 []) 3 0
              = Some (mkBump 4139 [(4096, 43)], (4096, 43), [4096; 4112; 4136]))
    by reflexivity.
  split; [exact E|].
  destruct (layout_walkers_agree _ _ _ _ _ _ _ _ E) as (H1 & H2 & _).
  split; [symmetry; exact H1|symmetry; exact H2].
Defined.

(* ===================================================================== *)
(** ** The compile-time lookups *)
(* ===================================================================== *)

Lemma wrap_mod_2_26 x : wrap x mod 2 ^ 26 = x mod 2 ^ 26.
Proof.
  unfold wrap, SIZE_MAX_plus_1.
  replace (2 ^ 64) with (2 ^ 26 * 2 ^ 38) by reflexivity.
  rewrite Z.rem_mul_r by lia.
  rewrite (Z.mul_comm (2 ^ 26)), Z.mod_add by lia.
  apply Z.mod_mod. lia.
Qed.

Lemma hashCalc_base33 ch : hashCalc ch = base33 ch mod 2 ^ 26.
Proof.
  induction ch as [|c rest IH]; [reflexivity|].
  cbn [hashCalc base33]. change (Z.shiftl 1 26) with (2 ^ 26).
  rewrite wrap_mod_2_26.
  rewrite <- (Zplus_mod_idemp_l (wrap c)), wrap_mod_2_26, Zplus_mod_idemp_l.
  rewrite <- (Zplus_mod_idemp_r (wrap _)), wrap_mod_2_26, Zplus_mod_idemp_r.
  rewrite IH.
  rewrite <- (Zplus_mod_idemp_r (_ * 33)), Z.mul_mod_idemp_l, Zplus_mod_idemp_r by lia.
  f_equal. lia.
Qed.

(** X4.  The tag hash of a literal is its value in base 33 (first
    character lowest) reduced modulo 2^26, so it lies below 2^26; for up
    to four ASCII characters no reduction takes place.  It is not
    injective: raising the first character by 33 and lowering the second
    by one yields the same tag (["ca"] and ["Bb"] are both 3300). *)
Theorem hashCalc_properties (ch rest : list Z) (c x : Z) :
  0 <= hashCalc ch < 2 ^ 26 /\
  hashCalc ch = base33 ch mod 2 ^ 26 /\
  ((length ch <= 4)%nat -> Forall (fun k => 0 <= k < 128) ch -> hashCalc ch = base33 ch) /\
  hashCalc ((c + 33) :: x :: rest) = hashCalc (c :: (x + 1) :: rest) /\
  hashCalc [99; 97] = 3300 /\ hashCalc [66; 98] = 3300.
Proof.
  split; [|split; [|split; [|split]]].
  - rewrite hashCalc_base33. apply Z.mod_pos_bound. lia.
  - apply hashCalc_base33.
  - intros Hlen Hascii. rewrite hashCalc_base33. apply Z.mod_small.
    assert (Hb : forall l : list Z, Forall (fun k => 0 <= k < 128) l ->
              0 <= base33 l /\ 32 * base33 l <= 127 * (33 ^ Z.of_nat (length l) - 1)).
    { induction l as [|k l IHl]; intros Hl; [simpl; lia|].
      inversion Hl as [|? ? Hk Hl']; subst. specialize (IHl Hl').
      cbn [base33 length]. rewrite Nat2Z.inj_succ, Z.pow_succ_r by lia. lia. }
    specialize (Hb ch Hascii).
    assert (Hmono : 33 ^ Z.of_nat (length ch) <= 33 ^ 4)
      by (apply Z.pow_le_mono_r; lia).
    change (33 ^ 4) with 1185921 in Hmono. change (2 ^ 26) with 67108864. lia.
  - rewrite !hashCalc_base33. f_equal. cbn [base33]. lia.
  - split; reflexivity.
Qed.

(** The hash of the two-character literal ["ab"], as the repository's
    test expects it. *)
Lemma hashCalc_properties_witness :
  (length [97; 98] <= 4)%nat /\ Forall (fun k => 0 <= k < 128) [97; 98] /\
  hashCalc [97; 98] = 97 + 33 * 98.
Proof.
  assert (Hl : (length [97; 98] <= 4)%nat) by (simpl; lia).
  assert (Ha : Forall (fun k => 0 <= k < 128) [97; 98]) by (repeat constructor; lia).
  split; [exact Hl|]. split; [exact Ha|].
  destruct (hashCalc_properties [97; 98] [] 0 0) as (_ & _ & Hsmall & _).
  rewrite (Hsmall Hl Ha). reflexivity.
Defined.

Section TypeIndexProofs.
Context {X : Type} `{EqDecision X}.

Lemma DuplicateTypeCheck_spec (T : X) Ts : DuplicateTypeCheck T Ts = true <-> In T Ts.
Proof.
  induction Ts as [|T0 Ts' IH]; simpl; [split; [discriminate|tauto]|].
  destruct (decide (T0 = T)) as [->|Hne]; [tauto|].
  rewrite IH. split; [auto|intros [E|Hin]; [contradiction|exact Hin]].
Qed.

Lemma tuplevec_index_absent (T : X) Ts :
  ~ In T Ts -> tuplevec_index T Ts = Some (length Ts).
Proof.
  induction Ts as [|T0 Ts' IH]; intros Hn; [reflexivity|]. simpl in *.
  destruct (decide (T0 = T)) as [->|Hne]; [tauto|].
  rewrite IH by tauto. reflexivity.
Qed.

(** X5.  The index of a type among the column types: a type that does not
    occur gets the number of columns (no column); a type that occurs once
    gets its position; a type that occurs twice or more is rejected, by
    the duplicate check of the first occurrence.  Duplicates among the
    other types do no harm.  A position found is the one
    [tuplevec_element] maps back to the type, and [index_lookup_helper]
    does the same for tag values. *)
Theorem tuplevec_index_spec (T : X) (Ts l1 l2 : list X) :
  (~ In T Ts -> tuplevec_index T Ts = Some (length Ts)) /\
  (~ In T l1 -> ~ In T l2 -> tuplevec_index T (l1 ++ T :: l2) = Some (length l1)) /\
  (~ In T l1 -> In T l2 -> tuplevec_index T (l1 ++ T :: l2) = None) /\
  (forall i, tuplevec_index T Ts = Some i -> (i < length Ts)%nat ->
     tuplevec_element i Ts = Some T) /\
  (forall (val : Z) (Ns : list Z), index_lookup_helper val Ns = tuplevec_index val Ns).
Proof.
  split; [apply tuplevec_index_absent|]. split; [|split; [|split]].
  - intros H1 H2. induction l1 as [|T0 l1 IH]; simpl in *.
    + destruct (decide (T = T)) as [_|Hne]; [|contradiction].
      destruct (DuplicateTypeCheck T l2) eqn:E; [|reflexivity].
      apply DuplicateTypeCheck_spec in E. contradiction.
    + destruct (decide (T0 = T)) as [->|Hne]; [tauto|].
      rewrite IH by tauto. reflexivity.
  - intros H1 H2. induction l1 as [|T0 l1 IH]; simpl in *.
    + destruct (decide (T = T)) as [_|Hne]; [|contradiction].
      apply DuplicateTypeCheck_spec in H2. rewrite H2. reflexivity.
    + destruct (decide (T0 = T)) as [->|Hne]; [tauto|].
      rewrite IH by tauto. reflexivity.
  - induction Ts as [|T0 Ts' IH]; intros i Hi Hlt; simpl in *; [lia|].
    destruct (decide (T0 = T)) as [->|Hne].
    + destruct (DuplicateTypeCheck T Ts'); [discriminate|].
      injection Hi as <-. reflexivity.
    + destruct (tuplevec_index T Ts') as [k|] eqn:Ek; [|discriminate].
      injection Hi as <-. apply IH; [reflexivity|lia].
  - intros val Ns. induction Ns as [|N Ns' IH]; [reflexivity|]. simpl.
    assert (Hd : forall l, DuplicateHashCheck val l = DuplicateTypeCheck val l).
    { induction l as [|k l IHl]; [reflexivity|]. simpl. rewrite IHl.
      destruct (Z.eqb_spec k val), (decide (k = val)); try contradiction; reflexivity. }
    rewrite IH, Hd.
    destruct (Z.eqb_spec N val), (decide (N = val)); try contradiction; reflexivity.
Qed.

End TypeIndexProofs.

(** The types [(int, float, int)], by name: [float] is found at 1, [int]
    is rejected, [double] gets 3. *)
Lemma tuplevec_index_spec_witness :
  ~ In 2 [0; 1; 0] /\
  tuplevec_index 2 [0; 1; 0] = Some 3%nat /\
  tuplevec_index 1 [0; 1; 0] = Some 1%nat /\
  tuplevec_index 0 [0; 1; 0] = None.
Proof.
  assert (Hn : ~ In 2 [0; 1; 0]) by (simpl; intros [E|[E|[E|[]]]]; discriminate).
  split; [exact Hn|].
  destruct (tuplevec_index_spec 2 [0; 1; 0] [] []) as (Habs & _).
  split; [exact (Habs Hn)|]. split; reflexivity.
Defined.

(* ===================================================================== *)
(** ** Where the columns of a block lie *)
(* ===================================================================== *)

(** The specified offsets put the regions of the columns one after the
    other. *)
Lemma regions_of_offsets Ts capacity p hi : forall prev,
  Forall well_formed_type Ts -> 0 <= capacity -> 0 <= prev -> 0 <= p ->
  p + spec_total_from prev Ts capacity <= hi -> hi < SIZE_MAX_plus_1 ->
  regions_in_block Ts (map (fun o => wrap (p + o)) (spec_offsets_from prev Ts capacity))
    capacity (p + prev) hi.
Proof.
  induction Ts as [|T Ts' IH]; intros prev Hwf Hc Hprev Hp Htot Hhi; simpl; [exact I|].
  inversion Hwf as [|? ? [Ha Hs] Hwf']; subst. simpl in Htot.
  pose proof (align_up_bounds prev (alignof T) (proj1 (alignment_pos _ Ha))) as Hb.
  pose proof (spec_total_from_ge Ts' capacity
                (align_up prev (alignof T) + sizeof T * capacity) Hwf' Hc) as Hge.
  assert (Hsz : 0 <= sizeof T * capacity) by nia.
  rewrite wrap_small by (unfold is_size_t; lia).
  split; [lia|]. split; [lia|].
  rewrite <- Z.add_assoc. apply IH; auto; lia.
Qed.

(** When the layout fits, the block that [DoAllocate] returns has the
    specified size and holds the regions of the columns one after the
    other. *)
Lemma DoAllocate_regions {A : Type} `{Allocator A} Ts (h : A) r h1 p bytes ptrs :
  layout_fits Ts r -> DoAllocate Ts h r 0 = Some (h1, (p, bytes), ptrs) ->
  block_inside p bytes ->
  bytes = spec_total Ts r /\ regions_in_block Ts ptrs r p (p + bytes).
Proof.
  intros (Htypes & Hr & Hfit) Halloc [Hp Hend].
  rewrite (DoAllocate_layout Ts h r 0 Htypes Hr ltac:(lia) Hfit) in Halloc.
  unfold layout_result in Halloc.
  destruct (r =? 0).
  - injection Halloc as <- <- <- <-. split; [reflexivity|].
    pose proof (regions_of_offsets Ts r nullptr (nullptr + spec_total_from 0 Ts r) 0
                  Htypes Hr ltac:(lia) Hp ltac:(lia) Hend) as R.
    rewrite Z.add_0_r in R. exact R.
  - destruct (allocate h (spec_total_from 0 Ts r)) as [[ptr h']|]; [|discriminate].
    injection Halloc as <- <- <- <-. split; [reflexivity|].
    pose proof (regions_of_offsets Ts r ptr (ptr + spec_total_from 0 Ts r) 0
                  Htypes Hr ltac:(lia) Hp ltac:(lia) Hend) as R.
    rewrite Z.add_0_r in R. exact R.
Qed.

(* ===================================================================== *)
(** ** Growing and shrinking *)
(* ===================================================================== *)

Section GrowProofs.
Context {V A : Type} `{Allocator A} {EV : MoveAssignable V}.
Variable Ts : list ColType.

Local Abbreviation vec := (TupleVecImpl V).

Lemma lookup_leaf_In (v : vec) j leaf : leaves v !! j = Some leaf -> In leaf (leaves v).
Proof. intros Hj. apply list_elem_of_In. eapply list_elem_of_lookup_2. exact Hj. Qed.

Lemma column_out_of_range (v : vec) j : leaves v !! j = None -> column v j = [].
Proof. intros Hj. unfold column. rewrite Hj. reflexivity. Qed.

(** Two containers of one size whose regions read alike below the size
    have the same columns. *)
Lemma same_columns (v v' : vec) :
  well_formed Ts v -> well_formed Ts v' -> mNumElements v' = mNumElements v ->
  (forall j leaf, leaves v !! j = Some leaf ->
     exists leaf', leaves v' !! j = Some leaf' /\
       forall x, 0 <= x < mNumElements v ->
         read_slot (TupleVecLeaf.cells leaf') x = read_slot (TupleVecLeaf.cells leaf) x) ->
  forall j, column v' j = column v j.
Proof.
  intros Hwf Hwf' Hsize Hkeep j.
  destruct (leaves v !! j) as [leaf|] eqn:Hj.
  - destruct (Hkeep j leaf Hj) as (leaf' & Hj' & Hrd).
    pose proof (well_formed_cells Ts v' leaf' Hwf' (lookup_leaf_In v' j leaf' Hj')) as Hlen.
    pose proof Hwf' as (Hs' & _).
    eapply column_reads; [exact Hj'| | |].
    + rewrite (length_column Ts v j leaf Hwf Hj). lia.
    + lia.
    + intros x Hx. rewrite Hrd by lia. rewrite (read_column v j leaf x Hj).
      destruct (Z.ltb_spec x (Z.of_nat (Z.to_nat (mNumElements v)))); [reflexivity|lia].
  - rewrite (column_out_of_range v j Hj). apply column_out_of_range.
    apply lookup_ge_None_2. apply lookup_ge_None_1 in Hj.
    destruct Hwf as (_ & _ & Hl & _), Hwf' as (_ & _ & Hl' & _). lia.
Qed.

(** Rows constructed behind the old ones, in regions that kept them. *)
Lemma appended_rows (v v2 : vec) (f : V -> list (slot V) -> list (slot V)) n (args : list V) :
  well_formed Ts v -> mNumElements v <= n ->
  well_formed Ts v2 -> mNumElements v2 = n ->
  length args = length Ts ->
  (forall j leaf, leaves v !! j = Some leaf ->
     exists leaf2, leaves v2 !! j = Some leaf2 /\
       forall x, 0 <= x < mNumElements v ->
         read_slot (TupleVecLeaf.cells leaf2) x = read_slot (TupleVecLeaf.cells leaf) x) ->
  (forall arg c, length (f arg c) = length c) ->
  (forall arg c x, n <= Z.of_nat (length c) -> 0 <= x < n ->
     read_slot (f arg c) x = if x <? mNumElements v then read_slot c x else Live arg) ->
  well_formed Ts (each_leaf_arg f args v2) /\
  mNumElements (each_leaf_arg f args v2) = n /\
  forall j arg, args !! j = Some arg ->
    column (each_leaf_arg f args v2) j
      = column v j ++ replicate (Z.to_nat (n - mNumElements v)) (Live arg).
Proof.
  intros Hwf Hsn Hwf2 Hs2 Hargs Hkeep Hlenf Hrdf.
  split; [apply each_leaf_arg_well_formed; auto|]. split; [exact Hs2|].
  intros j arg Harg.
  pose proof Hwf as (Hs & Hc & Hl & Hcells).
  destruct (leaves v !! j) as [leaf|] eqn:Hj.
  2:{ apply lookup_ge_None_1 in Hj. apply lookup_lt_Some in Harg. lia. }
  destruct (Hkeep j leaf Hj) as (leaf2 & Hj2 & Hrd).
  pose proof (well_formed_cells Ts v2 leaf2 Hwf2 (lookup_leaf_In v2 j leaf2 Hj2)) as Hlen2.
  pose proof (length_column Ts v j leaf Hwf Hj) as Hlc.
  pose proof Hwf2 as (Hs2' & _).
  eapply column_reads.
  - apply each_leaf_arg_lookup; eauto.
  - rewrite length_app, length_replicate.
    change (mNumElements (each_leaf_arg f args v2)) with (mNumElements v2). lia.
  - cbn. rewrite Hlenf. lia.
  - intros x Hx. change (mNumElements (each_leaf_arg f args v2)) with (mNumElements v2) in Hx.
    cbn. rewrite Hrdf by lia. rewrite read_app by lia. rewrite Hlc.
    destruct (Z.ltb_spec x (mNumElements v)).
    + rewrite Hrd by lia. rewrite (read_column v j leaf x Hj).
      destruct (Z.ltb_spec x (Z.of_nat (Z.to_nat (mNumElements v)))); [reflexivity|lia].
    + rewrite read_replicate. zbool.
Qed.

Lemma length_uninitialized_fill first last value (a : list (slot V)) :
  length (uninitialized_fill first last value a) = length a.
Proof.
  unfold uninitialized_fill, uninitialized_fill_n.
  generalize (Z.to_nat (last - first)) as cnt. intros cnt. revert a. generalize 0 as k.
  induction cnt as [|c IH]; intros k a; [reflexivity|].
  cbn [for_each_offset]. rewrite IH. apply length_write_slot.
Qed.

Lemma read_uninitialized_fill s n value (a : list (slot V)) x :
  0 <= s <= n -> n <= Z.of_nat (length a) -> 0 <= x < n ->
  read_slot (uninitialized_fill s n value a) x = if x <? s then read_slot a x else Live value.
Proof.
  intros Hsn Hfit Hx. unfold uninitialized_fill.
  destruct (uninitialized_fill_n_spec s (n - s) value a) as [_ Hr]; try lia.
  rewrite Hr. zbool.
Qed.

(** The container after a completed reallocation is well formed. *)
Lemma DoReallocate_well_formed (v' : vec) r :
  0 <= mNumElements v' <= r -> r < SIZE_MAX_plus_1 -> mNumCapacity v' = r ->
  length (leaves v') = length Ts ->
  Forall (fun leaf => length (TupleVecLeaf.cells leaf) = Z.to_nat r) (leaves v') ->
  well_formed Ts v'.
Proof.
  intros Hs Hr Hc Hl Hcells. unfold well_formed. rewrite Hc. auto.
Qed.

(** What [reserve] does, in its three cases. *)
Lemma reserve_run (h : A) (v : vec) (n : size_type) :
  well_formed Ts v -> 0 <= n < SIZE_MAX_plus_1 ->
  (n <= capacity v -> reserve Ts h v n = Done tt h v) /\
  (capacity v < n -> DoAllocate Ts h n 0 = None -> reserve Ts h v n = Threw h v) /\
  (capacity v < n ->
   forall h1 p bytes ptrs,
     DoAllocate Ts h n 0 = Some (h1, (p, bytes), ptrs) ->
     exists v',
       reserve Ts h v n = Done tt (deallocate h1 (mpData v) (internalDataSize v)) v' /\
       well_formed Ts v' /\ size v' = size v /\ capacity v' = n /\
       (forall j, column v' j = column v j) /\
       mpData v' = p /\ internalDataSize v' = bytes /\ leaf_pointers v' = ptrs).
Proof.
  intros Hwf Hn. pose proof Hwf as (Hs & Hc & Hl & Hcells). unfold size, capacity.
  split; [|split].
  - intros Hle. unfold reserve, DoConditionalReallocate.
    destruct (Z.gtb_spec n (mNumCapacity v)); [lia|reflexivity].
  - intros Hlt Hfail. unfold reserve, DoConditionalReallocate, DoReallocate.
    destruct (Z.gtb_spec n (mNumCapacity v)); [|lia]. rewrite Hfail. reflexivity.
  - intros Hlt h1 p bytes ptrs Halloc.
    destruct (DoReallocate_run Ts h v (mNumElements v) n h1 p bytes ptrs)
      as (v' & Hrun & Hs' & Hc' & Hp' & Hb' & Hptr' & Hl' & Hcells' & Hkeep); auto; try lia.
    exists v'. unfold reserve, DoConditionalReallocate.
    destruct (Z.gtb_spec n (mNumCapacity v)); [|lia].
    assert (Hwf' : well_formed Ts v')
      by (apply (DoReallocate_well_formed v' n); auto; lia).
    split; [exact Hrun|]. split; [exact Hwf'|]. split; [exact Hs'|]. split; [exact Hc'|].
    split; [|auto].
    apply same_columns; auto.
    intros j leaf Hj. destruct (Hkeep j leaf Hj) as (leaf' & Hj' & Hrd).
    exists leaf'. split; [exact Hj'|]. intros x Hx. rewrite Hrd. zbool.
Qed.

(** What [resize] does with the values [args] for arguments, in its
    three cases.  For [n] up to the size it cuts: the rows from [n] on are destroyed, every column
    keeps its first [n] elements, and heap, capacity and pointers stay.
    For [n] up to the capacity it appends [n - size] copies of its
    argument to every column, in place.  Beyond the capacity it does the
    same in a block for [max(GetNewCapacity(capacity), n)] rows, when
    that block is granted, and releases the old block. *)
Lemma resize_run (h : A) (v : vec) (n : size_type) (args : list V) :
  well_formed Ts v -> 0 <= n < SIZE_MAX_plus_1 -> length args = length Ts ->
  (n <= size v ->
   exists v',
     resize Ts h v n args = Done tt h v' /\
     well_formed Ts v' /\ size v' = n /\ capacity v' = capacity v /\
     leaf_pointers v' = leaf_pointers v /\
     (forall j, column v' j = take (Z.to_nat n) (column v j)) /\
     (forall k, n <= k < size v -> at_ v' k = map (fun _ => Raw) (leaves v))) /\
  (size v < n <= capacity v ->
   exists v',
     resize Ts h v n args = Done tt h v' /\
     well_formed Ts v' /\ size v' = n /\ capacity v' = capacity v /\
     leaf_pointers v' = leaf_pointers v /\
     (forall j arg, args !! j = Some arg ->
        column v' j = column v j ++ replicate (Z.to_nat (n - size v)) (Live arg))) /\
  (capacity v < n ->
   forall h1 p bytes ptrs,
     DoAllocate Ts h (Z.max (GetNewCapacity (capacity v)) n) 0 = Some (h1, (p, bytes), ptrs) ->
     exists v',
       resize Ts h v n args = Done tt (deallocate h1 (mpData v) (internalDataSize v)) v' /\
       well_formed Ts v' /\ size v' = n /\
       capacity v' = Z.max (GetNewCapacity (capacity v)) n /\
       leaf_pointers v' = ptrs /\
       (forall j arg, args !! j = Some arg ->
          column v' j = column v j ++ replicate (Z.to_nat (n - size v)) (Live arg))).
Proof.
  intros Hwf Hn Hargs. pose proof Hwf as (Hs & Hc & Hl & Hcells). unfold size, capacity.
  set (s := mNumElements v) in *.
  split; [|split].
  - intros Hle. unfold resize. fold s.
    destruct (Z.gtb_spec n s); [lia|].
    eexists. split; [reflexivity|].
    split; [apply each_leaf_well_formed;
              [apply well_formed_resized; auto; lia|intros; apply length_destroy]|].
    split; [reflexivity|]. split; [reflexivity|].
    split; [rewrite leaf_pointers_each_leaf; reflexivity|]. split.
    + intros j. destruct (leaves v !! j) as [leaf|] eqn:Hj.
      * pose proof (well_formed_cells Ts v leaf Hwf (lookup_leaf_In v j leaf Hj)) as Hlen.
        destruct (destroy_spec n s (TupleVecLeaf.cells leaf)) as [Hl1 Hr1]; try lia.
        eapply column_reads.
        -- unfold each_leaf. cbn. rewrite list_lookup_fmap, Hj. reflexivity.
        -- cbn. rewrite length_take, Nat2Z.inj_min.
           rewrite (length_column Ts v j leaf Hwf Hj). fold s. lia.
        -- cbn. lia.
        -- intros x Hx. cbn in Hx |- *. rewrite Hr1, read_take.
           rewrite (read_column v j leaf x Hj). fold s. zbool.
      * rewrite (column_out_of_range v j Hj), take_nil. apply column_out_of_range.
        unfold each_leaf. cbn. rewrite list_lookup_fmap, Hj. reflexivity.
    + intros k Hk. rewrite at_each_leaf. apply map_ext_in. intros leaf Hin.
      pose proof (well_formed_cells Ts v leaf Hwf Hin) as Hlen.
      destruct (destroy_spec n s (TupleVecLeaf.cells leaf)) as [_ Hr1]; try lia.
      rewrite Hr1. zbool.
  - intros Hin. unfold resize. fold s.
    destruct (Z.gtb_spec n s); [|lia].
    destruct (Z.gtb_spec n (mNumCapacity v)); [lia|]. cbn [and_then].
    eexists. split; [reflexivity|].
    destruct (appended_rows v (set_mNumElements n v)
                (fun arg => uninitialized_fill s n arg) n args) as (R1 & R2 & R3); auto.
    + fold s. lia.
    + apply well_formed_resized; auto. lia.
    + intros j leaf Hj. exists leaf. split; [exact Hj|reflexivity].
    + intros. apply length_uninitialized_fill.
    + intros arg c x Hfit Hx. fold s. apply read_uninitialized_fill; lia.
    + split; [exact R1|]. split; [exact R2|]. split; [reflexivity|].
      split; [rewrite each_leaf_arg_pointers; [reflexivity|cbn; lia]|]. exact R3.
  - intros Hlt h1 p bytes ptrs Halloc.
    set (r := Z.max (GetNewCapacity (mNumCapacity v)) n) in *.
    assert (Hr : n <= r < SIZE_MAX_plus_1).
    { subst r. unfold GetNewCapacity.
      destruct (_ >? _); [pose proof (wrap_range (2 * mNumCapacity v)) as Hw;
                          unfold is_size_t in Hw|]; lia. }
    destruct (DoReallocate_run Ts h (set_mNumElements n v) s r h1 p bytes ptrs)
      as (v2 & Hrun & Hs2 & Hc2 & Hp2 & Hb2 & Hptr2 & Hl2 & Hcells2 & Hkeep);
      cbn; auto; try lia.
    unfold resize. fold s r.
    destruct (Z.gtb_spec n s); [|lia].
    destruct (Z.gtb_spec n (mNumCapacity v)); [|lia].
    rewrite Hrun. cbn [and_then].
    eexists. split; [reflexivity|].
    cbn in Hs2.
    destruct (appended_rows v v2 (fun arg => uninitialized_fill s n arg) n args)
      as (R1 & R2 & R3); auto.
    + fold s. lia.
    + apply (DoReallocate_well_formed v2 r); auto; lia.
    + intros j leaf Hj. destruct (Hkeep j leaf Hj) as (leaf2 & Hj2 & Hrd).
      exists leaf2. split; [exact Hj2|]. intros x Hx. rewrite Hrd. fold s in Hx. zbool.
    + intros. apply length_uninitialized_fill.
    + intros arg c x Hfit Hx. fold s. apply read_uninitialized_fill; lia.
    + split; [exact R1|]. split; [exact R2|]. split; [exact Hc2|].
      split; [rewrite each_leaf_arg_pointers; [exact Hptr2|lia]|]. exact R3.
Qed.

End GrowProofs.

(* ===================================================================== *)
(** ** Insertion that moves to a larger block, and its inverse *)
(* ===================================================================== *)

Section SpliceProofs.
Context {V A : Type} `{Allocator A} {EV : MoveAssignable V}.
Variable Ts : list ColType.

Local Abbreviation vec := (TupleVecImpl V).

(** A region that reads as "old prefix, [n] copies, old rest" of another
    region has the column with the copies spliced in at [p]. *)
Lemma splice_column p n s arg (a a' : list (slot V)) :
  0 <= p <= s -> 0 <= n ->
  s <= Z.of_nat (length a) -> s + n <= Z.of_nat (length a') ->
  (forall x, x < s + n ->
     read_slot a' x =
       if x <? p then read_slot a x
       else if x <? p + n then Live arg
       else read_slot a (x - n)) ->
  take (Z.to_nat (s + n)) a'
    = take (Z.to_nat p) (take (Z.to_nat s) a) ++ replicate (Z.to_nat n) (Live arg)
        ++ drop (Z.to_nat p) (take (Z.to_nat s) a).
Proof.
  intros Hp Hn Hfit Hfit' Hrd. apply region_ext.
  - rewrite !length_app, !length_take, length_replicate, length_drop, length_take. lia.
  - intros x Hx. rewrite length_take in Hx.
    rewrite read_take.
    destruct (Z.ltb_spec x (Z.of_nat (Z.to_nat (s + n)))); [|lia].
    rewrite Hrd by lia.
    rewrite read_app by lia. rewrite !length_take.
    destruct (Z.ltb_spec x p).
    + destruct (Z.ltb_spec x (Z.of_nat (Z.to_nat p `min` (Z.to_nat s `min` length a))));
        [|lia].
      rewrite !read_take. zbool.
    + destruct (Z.ltb_spec x (Z.of_nat (Z.to_nat p `min` (Z.to_nat s `min` length a))));
        [lia|].
      rewrite read_app by lia. rewrite length_replicate, read_replicate.
      replace (Z.of_nat (Z.to_nat p `min` (Z.to_nat s `min` length a))) with p by lia.
      destruct (Z.ltb_spec x (p + n)).
      * destruct (Z.ltb_spec (x - p) (Z.of_nat (Z.to_nat n))); [|lia].
        destruct (Z.leb_spec 0 (x - p)); [|lia]. reflexivity.
      * destruct (Z.ltb_spec (x - p) (Z.of_nat (Z.to_nat n))); [lia|].
        rewrite read_drop by lia. rewrite read_take.
        destruct (Z.ltb_spec (x - p - Z.of_nat (Z.to_nat n) + Z.of_nat (Z.to_nat p))
                    (Z.of_nat (Z.to_nat s))); [|lia].
        f_equal. lia.
Qed.

(** Cutting the copies out of the spliced column gives the column back. *)
Lemma splice_cut {X} (p n : nat) (c : list X) (x : X) :
  (p <= length c)%nat ->
  take p (take p c ++ replicate n x ++ drop p c)
    ++ drop (p + n) (take p c ++ replicate n x ++ drop p c) = c.
Proof.
  intros Hp.
  assert (Hlt : length (take p c) = p) by (rewrite length_take; lia).
  rewrite take_app_length' by (symmetry; exact Hlt).
  rewrite <- drop_drop.
  rewrite drop_app_length' by (symmetry; exact Hlt).
  rewrite drop_app_length' by (symmetry; apply length_replicate).
  apply take_drop.
Qed.

(** One leaf of the reallocating [insert]: the part before [p] and the
    part from [p] on are relocated around a gap of [n] slots, which is
    filled. *)
Lemma insert_relocate_spec (leaf : TupleVecLeaf.t V) p n s r (arg : V) (pNew : Z) :
  0 <= p <= s -> 0 <= n -> s <= Z.of_nat (length (TupleVecLeaf.cells leaf)) -> s + n <= r ->
  let res :=
    (let '(leaf1, fresh1) :=
       TupleVecLeaf.DoUninitializedMoveAndDestruct leaf 0 p (fresh_region r) 0 in
     let '(_, fresh2) :=
       TupleVecLeaf.DoUninitializedMoveAndDestruct leaf1 p s fresh1 (p + n) in
     TupleVecLeaf.mk pNew (uninitialized_fill p (p + n) arg fresh2)) in
  TupleVecLeaf.mpData res = pNew /\
  length (TupleVecLeaf.cells res) = Z.to_nat r /\
  forall x, x < s + n ->
    read_slot (TupleVecLeaf.cells res) x =
      if x <? p then read_slot (TupleVecLeaf.cells leaf) x
      else if x <? p + n then Live arg
      else read_slot (TupleVecLeaf.cells leaf) (x - n).
Proof.
  intros Hp Hn Hfit Hr.
  pose proof (DoUninitializedMoveAndDestruct_spec leaf 0 p (fresh_region r) 0) as S1.
  destruct (TupleVecLeaf.DoUninitializedMoveAndDestruct leaf 0 p (fresh_region r) 0)
    as [leaf1 fresh1] eqn:E1.
  cbn [fst snd] in S1. rewrite length_fresh_region in S1.
  destruct S1 as (_ & Hl1 & Hlf1 & Hr1 & Hrf1); try lia.
  pose proof (DoUninitializedMoveAndDestruct_spec leaf1 p s fresh1 (p + n)) as S2.
  destruct (TupleVecLeaf.DoUninitializedMoveAndDestruct leaf1 p s fresh1 (p + n))
    as [leaf2 fresh2] eqn:E2.
  cbn [fst snd] in S2.
  destruct S2 as (_ & _ & Hlf2 & _ & Hrf2); try lia.
  cbn zeta. cbn [TupleVecLeaf.mpData TupleVecLeaf.cells].
  split; [reflexivity|].
  unfold uninitialized_fill.
  destruct (uninitialized_fill_n_spec p (p + n - p) arg fresh2) as [Hl3 Hr3]; try lia.
  split; [lia|].
  intros x Hx. rewrite Hr3, Hrf2, Hrf1, Hr1, read_fresh_region.
  destruct (Z.ltb_spec x 0).
  - unfold read_slot. destruct (Z.ltb_spec x 0); [|lia].
    destruct (Z.ltb_spec (x - n) 0); [|lia]. zbool.
  - zbool; f_equal; lia.
Qed.

Lemma zip_args_new_pointers (g : TupleVecLeaf.t V * V -> Z -> TupleVecLeaf.t V) :
  forall (ls : list (TupleVecLeaf.t V)) (args : list V) (ptrs : list Z),
  length args = length ls -> length ptrs = length ls ->
  (forall la p, TupleVecLeaf.mpData (g la p) = p) ->
  map TupleVecLeaf.mpData (zip_with g (zip ls args) ptrs) = ptrs.
Proof.
  induction ls as [|leaf ls IH]; intros [|arg args] [|p ptrs] Ha Hp Hg; simpl in *;
    try lia; [reflexivity|].
  rewrite Hg, IH by (auto; lia). reflexivity.
Qed.

Lemma zip_args_lookup (g : TupleVecLeaf.t V * V -> Z -> TupleVecLeaf.t V)
    (ls : list (TupleVecLeaf.t V)) (args : list V) (ptrs : list Z) j leaf arg p :
  ls !! j = Some leaf -> args !! j = Some arg -> ptrs !! j = Some p ->
  zip_with g (zip ls args) ptrs !! j = Some (g (leaf, arg) p).
Proof.
  intros Hl Ha Hp.
  assert (Hz : zip ls args !! j = Some (leaf, arg))
    by (apply lookup_zip_with_Some; eauto).
  rewrite lookup_zip_with, Hz. simpl. rewrite Hp. reflexivity.
Qed.

Lemma zip_args_Forall (P : TupleVecLeaf.t V -> Prop)
    (g : TupleVecLeaf.t V * V -> Z -> TupleVecLeaf.t V) :
  forall (ls : list (TupleVecLeaf.t V)) (args : list V) (ptrs : list Z),
  (forall leaf arg p, In leaf ls -> P (g (leaf, arg) p)) ->
  Forall P (zip_with g (zip ls args) ptrs).
Proof.
  induction ls as [|leaf ls IH]; intros [|arg args] [|p ptrs] Hg; simpl; try constructor.
  - apply Hg. left. reflexivity.
  - apply IH. intros. apply Hg. right. assumption.
Qed.

(** The iterator [begin() + p] of a container with the column pointers
    [ptrs]. *)
Lemma begin_plus (v' : vec) p :
  0 <= p < SIZE_MAX_plus_1 ->
  TupleVecIter.plus (begin_ v') p = TupleVecIter.mk p (leaf_pointers v').
Proof.
  intros Hp. unfold TupleVecIter.plus, TupleVecIter.add_assign, begin_. cbn.
  f_equal. apply wrap_small. exact Hp.
Qed.

(** What [insert(pos, n, args...)] leaves when it completes: in place
    when the rows fit, otherwise in a block for
    [max(GetNewCapacity(capacity), size + n)] rows. *)
Lemma insert_run (h : A) (v : vec) (pos : TupleVecIter.t) (n : size_type) (args : list V) :
  well_formed Ts v ->
  0 <= TupleVecIter.mIndex pos <= size v ->
  0 <= n -> size v + n < SIZE_MAX_plus_1 ->
  length args = length Ts ->
  let p := TupleVecIter.mIndex pos in
  let s := size v in
  let r := Z.max (GetNewCapacity (capacity v)) (s + n) in
  (s + n <= capacity v ->
   0 < n \/ p = s \/ (forall x : V, self_move_assign x = Live x) ->
   exists v',
     insert Ts h v pos n args = Done (TupleVecIter.mk p (leaf_pointers v')) h v' /\
     well_formed Ts v' /\ size v' = s + n /\ capacity v' = capacity v /\
     leaf_pointers v' = leaf_pointers v /\
     (forall j arg, args !! j = Some arg ->
        column v' j = take (Z.to_nat p) (column v j) ++ replicate (Z.to_nat n) (Live arg)
                        ++ drop (Z.to_nat p) (column v j))) /\
  (capacity v < s + n ->
   forall h1 p0 bytes ptrs,
     DoAllocate Ts h r 0 = Some (h1, (p0, bytes), ptrs) ->
     exists v',
       insert Ts h v pos n args
         = Done (TupleVecIter.mk p (leaf_pointers v'))
             (deallocate h1 (mpData v) (internalDataSize v)) v' /\
       well_formed Ts v' /\ size v' = s + n /\ capacity v' = r /\
       mpData v' = p0 /\ internalDataSize v' = bytes /\ leaf_pointers v' = ptrs /\
       (forall j arg, args !! j = Some arg ->
          column v' j = take (Z.to_nat p) (column v j) ++ replicate (Z.to_nat n) (Live arg)
                          ++ drop (Z.to_nat p) (column v j))).
Proof.
  intros Hwf Hp Hn Hsn Hargs p s r. unfold size, capacity in *. fold p s in Hp, Hsn.
  pose proof Hwf as (Hs & Hc & Hl & Hcells). fold s in Hs.
  assert (Hcap : forall leaf, In leaf (leaves v) ->
            Z.of_nat (length (TupleVecLeaf.cells leaf)) = mNumCapacity v).
  { intros leaf Hin. rewrite (well_formed_cells Ts v leaf Hwf Hin). lia. }
  assert (Hpw : wrap (p - 0) = p) by (apply wrap_index; unfold is_size_t; lia).
  assert (Hnew : wrap (s + n) = s + n) by (apply wrap_small; unfold is_size_t; lia).
  assert (Hlast : wrap (p + n) = p + n) by (apply wrap_small; unfold is_size_t; lia).
  split.
  - intros Hroom Hself.
    set (f := fun (leaf : TupleVecLeaf.t V) (arg : V) =>
                if p =? s
                then TupleVecLeaf.with_cells leaf
                       (uninitialized_fill s (s + n) arg (TupleVecLeaf.cells leaf))
                else TupleVecLeaf.DoInsertAndFill p n s arg leaf).
    assert (Hf : forall leaf arg, In leaf (leaves v) ->
              TupleVecLeaf.mpData (f leaf arg) = TupleVecLeaf.mpData leaf /\
              length (TupleVecLeaf.cells (f leaf arg)) = length (TupleVecLeaf.cells leaf) /\
              forall x, x < s + n ->
                read_slot (TupleVecLeaf.cells (f leaf arg)) x =
                  if x <? p then read_slot (TupleVecLeaf.cells leaf) x
                  else if x <? p + n then Live arg
                  else read_slot (TupleVecLeaf.cells leaf) (x - n)).
    { intros leaf arg Hin. pose proof (Hcap leaf Hin) as Hlen. unfold f.
      destruct (Z.eqb_spec p s) as [E|E].
      - unfold uninitialized_fill.
        destruct (uninitialized_fill_n_spec s (s + n - s) arg (TupleVecLeaf.cells leaf))
          as [Hl0 Hr0]; try lia.
        cbn. split; [reflexivity|]. split; [exact Hl0|].
        intros x Hx. rewrite Hr0.
        destruct (Z.ltb_spec x 0).
        + unfold read_slot. destruct (Z.ltb_spec x 0); [|lia]. zbool.
        + zbool.
      - apply DoInsertAndFill_spec; try lia.
        destruct Hself as [H0|[H0|H0]]; [left; lia|lia|right; right; exact H0]. }
    assert (Hptrs : map TupleVecLeaf.mpData (zip_with f (leaves v) args)
                      = map TupleVecLeaf.mpData (leaves v)).
    { assert (Hptr : forall ls (args0 : list V), length args0 = length ls ->
                (forall leaf, In leaf ls -> In leaf (leaves v)) ->
                map TupleVecLeaf.mpData (zip_with f ls args0) = map TupleVecLeaf.mpData ls).
      { induction ls as [|leaf ls IH]; intros [|arg args0] Hlen Hsub; simpl in *;
          try lia; [reflexivity|].
        destruct (Hf leaf arg (Hsub leaf (or_introl eq_refl))) as [-> _].
        rewrite IH by (auto; lia). reflexivity. }
      apply Hptr; auto; lia. }
    exists (set_leaves (zip_with f (leaves v) args) (set_mNumElements (s + n) v)).
    split; [|split; [|split; [reflexivity|split; [reflexivity|split; [exact Hptrs|]]]]].
    + unfold insert. unfold TupleVecIter.diff, cbegin. cbn [TupleVecIter.mIndex].
      fold p s. rewrite Hpw, Hnew.
      destruct (Z.gtb_spec (s + n) (mNumCapacity v)); [lia|]. cbn [orb].
      rewrite !begin_plus by lia.
      subst f. destruct (Z.eqb_spec p s) as [E|E]; cbn [negb]; reflexivity.
    + unfold well_formed. cbn. split; [lia|]. split; [lia|].
      split; [rewrite length_zip_with; lia|].
      apply zip_with_leaves_Forall. intros leaf arg Hin.
      destruct (Hf leaf arg Hin) as (_ & Hlen & _). rewrite Hlen.
      rewrite List.Forall_forall in Hcells. auto.
    + intros j arg Harg.
      destruct (leaves v !! j) as [leaf|] eqn:Hj.
      * pose proof (lookup_leaf_In v j leaf Hj) as Hin.
        destruct (Hf leaf arg Hin) as (_ & Hlf & Hrf).
        unfold column. cbn. rewrite (zip_leaves_lookup f _ _ j leaf arg Hj Harg), Hj.
        fold s. pose proof (Hcap leaf Hin). apply splice_column; try lia. exact Hrf.
      * apply lookup_ge_None_1 in Hj. apply lookup_lt_Some in Harg. lia.
  - intros Hfull h1 p0 bytes ptrs Halloc.
    assert (Hr : s + n <= r < SIZE_MAX_plus_1).
    { subst r. unfold GetNewCapacity.
      destruct (_ >? _); [pose proof (wrap_range (2 * mNumCapacity v)) as Hw;
                          unfold is_size_t in Hw|]; lia. }
    pose proof (DoAllocate_length Ts h r 0 h1 (p0, bytes) ptrs Halloc) as Hlptrs.
    set (g := fun '((leaf, arg) : TupleVecLeaf.t V * V) (pNew : Z) =>
                let '(leaf1, fresh1) :=
                  TupleVecLeaf.DoUninitializedMoveAndDestruct leaf 0 p (fresh_region r) 0 in
                let '(_, fresh2) :=
                  TupleVecLeaf.DoUninitializedMoveAndDestruct leaf1 p s fresh1 (p + n) in
                TupleVecLeaf.mk pNew (uninitialized_fill p (p + n) arg fresh2)).
    assert (Hg : forall leaf arg pNew, In leaf (leaves v) ->
              TupleVecLeaf.mpData (g (leaf, arg) pNew) = pNew /\
              length (TupleVecLeaf.cells (g (leaf, arg) pNew)) = Z.to_nat r /\
              forall x, x < s + n ->
                read_slot (TupleVecLeaf.cells (g (leaf, arg) pNew)) x =
                  if x <? p then read_slot (TupleVecLeaf.cells leaf) x
                  else if x <? p + n then Live arg
                  else read_slot (TupleVecLeaf.cells leaf) (x - n)).
    { intros leaf arg pNew Hin. pose proof (Hcap leaf Hin).
      apply (insert_relocate_spec leaf p n s r arg pNew); lia. }
    exists (mkImpl (zip_with g (zip (leaves v) args) ptrs) p0 (s + n) r bytes).
    assert (Hptrs : leaf_pointers (mkImpl (zip_with g (zip (leaves v) args) ptrs)
                                     p0 (s + n) r bytes) = ptrs).
    { unfold leaf_pointers. cbn. apply zip_args_new_pointers; try lia.
      intros [leaf arg] pNew. unfold g.
      destruct (TupleVecLeaf.DoUninitializedMoveAndDestruct leaf 0 p _ 0) as [leaf1 fresh1].
      destruct (TupleVecLeaf.DoUninitializedMoveAndDestruct leaf1 p s _ _) as [leaf2 fresh2].
      reflexivity. }
    split; [|split; [|split; [reflexivity|split; [reflexivity|split; [reflexivity|
      split; [reflexivity|split; [exact Hptrs|]]]]]]].
    + unfold insert. unfold TupleVecIter.diff, cbegin. cbn [TupleVecIter.mIndex].
      fold p s. rewrite Hpw, Hnew, Hlast.
      destruct (Z.gtb_spec (s + n) (mNumCapacity v)); [|lia]. cbn [orb].
      fold r. rewrite Halloc. rewrite begin_plus by lia. reflexivity.
    + unfold well_formed. cbn. split; [lia|]. split; [lia|].
      split.
      * rewrite length_zip_with, length_zip. lia.
      * apply zip_args_Forall. intros leaf arg pNew Hin.
        destruct (Hg leaf arg pNew Hin) as (_ & Hlen & _). exact Hlen.
    + intros j arg Harg.
      destruct (leaves v !! j) as [leaf|] eqn:Hj.
      2:{ apply lookup_ge_None_1 in Hj. apply lookup_lt_Some in Harg. lia. }
      destruct (ptrs !! j) as [pNew|] eqn:Hpj.
      2:{ apply lookup_ge_None_1 in Hpj. apply lookup_lt_Some in Harg. lia. }
      pose proof (lookup_leaf_In v j leaf Hj) as Hin.
      destruct (Hg leaf arg pNew Hin) as (_ & Hlg & Hrg).
      unfold column. cbn.
      rewrite (zip_args_lookup g _ _ _ j leaf arg pNew Hj Harg Hpj), Hj.
      fold s. pose proof (Hcap leaf Hin). apply splice_column; try lia. exact Hrg.
Qed.

End SpliceProofs.

(* ===================================================================== *)
(** ** Operations that are other operations *)
(* ===================================================================== *)

Section Relations.
Context {V A : Type} `{Allocator A} {EV : MoveAssignable V}.
Variable Ts : list ColType.

Local Abbreviation vec := (TupleVecImpl V).

(** What [erase] leaves of a well-formed container. *)
Lemma erase_columns (v : vec) (first last : TupleVecIter.t) :
  well_formed Ts v ->
  0 <= TupleVecIter.mIndex first < TupleVecIter.mIndex last ->
  TupleVecIter.mIndex last <= mNumElements v ->
  let f := TupleVecIter.mIndex first in
  let l := TupleVecIter.mIndex last in
  let v' := fst (erase v first last) in
  well_formed Ts v' /\
  mNumElements v' = mNumElements v - (l - f) /\
  mNumCapacity v' = mNumCapacity v /\
  leaf_pointers v' = leaf_pointers v /\
  (forall j, column v' j = take (Z.to_nat f) (column v j) ++ drop (Z.to_nat l) (column v j)) /\
  snd (erase v first last) = TupleVecIter.mk f (leaf_pointers v).
Proof.
  intros Hwf Hfl Hls f l v'. subst v'.
  rewrite (erase_unfold Ts v first last Hwf Hfl Hls). fold f l. cbn [fst snd].
  pose proof Hwf as (Hs & Hc & Hl & Hcells).
  set (s := mNumElements v) in *.
  assert (Hcap : forall leaf, In leaf (leaves v) ->
            s <= Z.of_nat (length (TupleVecLeaf.cells leaf))).
  { intros leaf Hin. rewrite (well_formed_cells Ts v leaf Hwf Hin). lia. }
  split; [|split; [reflexivity|split; [reflexivity|split; [|split; [|reflexivity]]]]].
  - unfold well_formed, each_leaf. cbn. split; [lia|]. split; [lia|].
    split; [rewrite length_map; exact Hl|].
    apply Forall_map. rewrite List.Forall_forall in Hcells. apply List.Forall_forall.
    intros leaf Hin. cbn.
    destruct (erase_cells_spec f l s (TupleVecLeaf.cells leaf)) as [Hlen _];
      try (subst f l; lia). { apply Hcap, Hin. }
    cbn zeta in Hlen. rewrite Hlen. apply Hcells, Hin.
  - rewrite leaf_pointers_each_leaf. reflexivity.
  - intros j. destruct (leaves v !! j) as [leaf|] eqn:Hj.
    + rewrite (column_each_leaf _ _ j leaf) by exact Hj.
      rewrite (column_lookup v j leaf Hj). cbn [mNumElements set_mNumElements].
      apply erase_column; try (subst f l; lia).
      apply Hcap. eapply lookup_leaf_In. exact Hj.
    + unfold column, each_leaf. simpl. rewrite list_lookup_fmap, Hj. simpl.
      rewrite take_nil, drop_nil. reflexivity.
Qed.

Lemma write_slot_twice i (x y : slot V) (a : list (slot V)) :
  write_slot i x (write_slot i y a) = write_slot i x a.
Proof.
  unfold write_slot. destruct (i <? 0); [reflexivity|]. apply list_insert_insert_eq.
Qed.

Lemma uninitialized_fill_one p (arg : V) (a : list (slot V)) :
  uninitialized_fill p (p + 1) arg a = write_slot p (Live arg) a.
Proof.
  unfold uninitialized_fill, uninitialized_fill_n.
  replace (p + 1 - p) with 1 by lia.
  change (Z.to_nat 1) with 1%nat. cbn [for_each_offset]. rewrite Z.add_0_r. reflexivity.
Qed.

Lemma fill_one p (arg : V) (a : list (slot V)) :
  fill p (p + 1) arg a = write_slot p (Live arg) a.
Proof.
  unfold fill. replace (p + 1 - p) with 1 by lia.
  change (Z.to_nat 1) with 1%nat. cbn [for_each_offset]. rewrite Z.add_0_r. reflexivity.
Qed.

Lemma destroy_one p (a : list (slot V)) : destroy p (p + 1) a = write_slot p Raw a.
Proof.
  unfold destroy. replace (p + 1 - p) with 1 by lia.
  change (Z.to_nat 1) with 1%nat. cbn [for_each_offset]. rewrite Z.add_0_r. reflexivity.
Qed.

(** [DoInsertValue] is [DoInsertAndFill] for one element. *)
Lemma DoInsertValue_DoInsertAndFill p s (arg : V) (leaf : TupleVecLeaf.t V) :
  0 <= p < s -> s < SIZE_MAX_plus_1 ->
  TupleVecLeaf.DoInsertValue p s arg leaf = TupleVecLeaf.DoInsertAndFill p 1 s arg leaf.
Proof.
  intros Hp Hs. unfold TupleVecLeaf.DoInsertValue, TupleVecLeaf.DoInsertAndFill. cbn zeta.
  rewrite (wrap_small (s - p)) by (unfold is_size_t; lia).
  rewrite destroy_one, write_slot_twice.
  destruct (Z.ltb_spec 1 (s - p)) as [Hlt|Hge].
  - rewrite fill_one. reflexivity.
  - assert (E : p = s - 1) by lia. subst p.
    replace (1 - (s - (s - 1))) with 0 by lia.
    replace (s + 1 - (s - (s - 1))) with s by lia.
    assert (Ef : forall a : list (slot V),
              fill (s - 1) s arg a = write_slot (s - 1) (Live arg) a).
    { intros a. rewrite <- (fill_one (s - 1) arg a). f_equal. lia. }
    rewrite Ef. change (wrap 0) with 0.
    unfold move_backward. replace (s - 1 - (s - 1)) with 0 by lia. reflexivity.
Qed.

(** The iterator one past [pos]. *)
Lemma plus_one_index (pos : TupleVecIter.t) :
  0 <= TupleVecIter.mIndex pos -> TupleVecIter.mIndex pos + 1 < SIZE_MAX_plus_1 ->
  TupleVecIter.mIndex (TupleVecIter.plus pos 1) = TupleVecIter.mIndex pos + 1.
Proof.
  intros H0 H1. unfold TupleVecIter.plus, TupleVecIter.add_assign. cbn.
  apply wrap_small. unfold is_size_t. lia.
Qed.

End Relations.

(* ===================================================================== *)
(** ** Properties of the modifiers *)
(* ===================================================================== *)

Section Modifiers.
Context {V A : Type} `{Allocator A} {EV : MoveAssignable V}.
Variable Ts : list ColType.

Local Abbreviation vec := (TupleVecImpl V).

(** X8.  [pop_back()] on a non-empty well-formed container: one row
    less, every column its old content without the last element, the slot
    of the removed row destroyed in every column; capacity, allocation
    and column pointers stay. *)
Theorem pop_back_removes_last (v : vec) :
  well_formed Ts v -> 0 < size v ->
  well_formed Ts (pop_back v) /\
  size (pop_back v) = size v - 1 /\
  (forall j, column (pop_back v) j = take (Z.to_nat (size v - 1)) (column v j)) /\
  at_ (pop_back v) (size v - 1) = map (fun _ => Raw) (leaves v) /\
  capacity (pop_back v) = capacity v /\
  mpData (pop_back v) = mpData v /\
  leaf_pointers (pop_back v) = leaf_pointers v.
Proof.
  intros Hwf Hpos.
  destruct (pop_back_spec Ts v Hwf Hpos) as (H1 & H2 & H3 & H4).
  split; [exact H1|]. split; [exact H2|]. split; [exact H3|]. split; [exact H4|].
  split; [reflexivity|]. split; [reflexivity|].
  unfold pop_back. rewrite leaf_pointers_each_leaf. reflexivity.
Qed.

(** [pop_back] undoes a [push_back] of values: whenever the [push_back]
    has room or gets its block, [back()] of the result is the row pushed,
    and the [pop_back] that follows gives back the size and every
    column. *)
Lemma push_back_pop_back_values (h : A) (v : vec) (args : list V) :
  well_formed Ts v -> size v + 1 < 2 ^ 63 -> length args = length Ts ->
  size v < capacity v \/ is_Some (DoAllocate Ts h (2 * (size v + 1)) 0) ->
  exists h' v',
    push_back Ts h v args = Done tt h' v' /\
    back v' = map Live args /\
    well_formed Ts (pop_back v') /\
    size (pop_back v') = size v /\
    (forall j, column (pop_back v') j = column v j).
Proof.
  intros Hwf Hfit Hargs Hcan.
  destruct (push_back_run Ts h v args Hwf Hfit Hargs) as [Hroom Hfull].
  pose proof Hwf as (Hs & Hc & Hl & Hcells).
  assert (Hrun : exists h' v', push_back Ts h v args = Done tt h' v').
  { unfold size, capacity in *.
    destruct (Z_lt_le_dec (mNumElements v) (mNumCapacity v)) as [Hlt|Hge].
    - destruct (Hroom Hlt) as (v' & E & _). eauto.
    - destruct Hcan as [Hlt|[[[h1 [p bytes]] ptrs] Ha]]; [lia|].
      destruct (Hfull ltac:(lia) h1 p bytes ptrs Ha) as (v' & E & _). eauto. }
  destruct Hrun as (h' & v' & Hrun). exists h', v'. split; [exact Hrun|].
  destruct (push_back_Done Ts h v args h' v' Hwf Hfit Hargs Hrun) as (Hwf' & Hs' & Hcol').
  unfold size in *.
  destruct (pop_back_spec Ts v' Hwf' ltac:(unfold size; lia)) as (P1 & P2 & P3 & _).
  unfold size in *.
  pose proof Hwf' as (_ & _ & Hl' & _).
  split; [|split; [exact P1|split; [lia|]]].
  - unfold back, at_, size. rewrite Hs'.
    replace (mNumElements v + 1 - 1) with (mNumElements v) by lia.
    rewrite wrap_small by (unfold is_size_t, SIZE_MAX_plus_1; lia).
    apply list_eq. intros j. rewrite !list_lookup_fmap.
    destruct (args !! j) as [arg|] eqn:Ha.
    + destruct (leaves v' !! j) as [leaf'|] eqn:Hj'.
      2:{ apply lookup_ge_None_1 in Hj'. apply lookup_lt_Some in Ha. lia. }
      cbn. f_equal.
      destruct (leaves v !! j) as [leaf|] eqn:Hj.
      2:{ apply lookup_ge_None_1 in Hj. apply lookup_lt_Some in Ha. lia. }
      pose proof (read_column v' j leaf' (mNumElements v) Hj') as Hr.
      rewrite (Hcol' j arg Ha), Hs' in Hr.
      rewrite read_app in Hr by lia.
      rewrite (length_column Ts v j leaf Hwf Hj) in Hr.
      rewrite Z.ltb_irrefl, Z.sub_diag in Hr.
      destruct (Z.ltb_spec (mNumElements v) (Z.of_nat (Z.to_nat (mNumElements v + 1))));
        [|lia].
      rewrite <- Hr. reflexivity.
    + destruct (leaves v' !! j) as [leaf'|] eqn:Hj'; [|reflexivity].
      apply lookup_ge_None_1 in Ha. apply lookup_lt_Some in Hj'. lia.
  - intros j. rewrite P3, Hs'.
    replace (mNumElements v + 1 - 1) with (mNumElements v) by lia.
    destruct (args !! j) as [arg|] eqn:Ha.
    + rewrite (Hcol' j arg Ha).
      destruct (leaves v !! j) as [leaf|] eqn:Hj.
      2:{ apply lookup_ge_None_1 in Hj. apply lookup_lt_Some in Ha. lia. }
      pose proof (length_column Ts v j leaf Hwf Hj) as Hlc.
      rewrite take_app_length'; [reflexivity|lia].
    + apply lookup_ge_None_1 in Ha.
      rewrite (column_out_of_range v' j) by (apply lookup_ge_None_2; lia).
      rewrite (column_out_of_range v j) by (apply lookup_ge_None_2; lia).
      apply take_nil.
Qed.

(** [erase] undoes an [insert] of values: whenever
    [insert(pos, n, args...)] has room or gets its block, erasing the [n] rows from the iterator it
    returns gives back the size and every column. *)
Lemma insert_then_erase_values (h : A) (v : vec) (pos : TupleVecIter.t) (n : size_type)
    (args : list V) :
  well_formed Ts v ->
  0 <= TupleVecIter.mIndex pos <= size v ->
  0 < n -> size v + n < SIZE_MAX_plus_1 ->
  length args = length Ts ->
  size v + n <= capacity v \/
    is_Some (DoAllocate Ts h (Z.max (GetNewCapacity (capacity v)) (size v + n)) 0) ->
  exists it h' v',
    insert Ts h v pos n args = Done it h' v' /\
    TupleVecIter.mIndex it = TupleVecIter.mIndex pos /\
    size (fst (erase v' it (TupleVecIter.plus it n))) = size v /\
    (forall j, column (fst (erase v' it (TupleVecIter.plus it n))) j = column v j).
Proof.
  intros Hwf Hp Hn Hsn Hargs Hcan.
  destruct (insert_run Ts h v pos n args Hwf Hp ltac:(lia) Hsn Hargs) as [Hroom Hre].
  pose proof Hwf as (Hs & Hc & Hl & Hcells).
  set (p := TupleVecIter.mIndex pos) in *.
  assert (Hrun : exists h' v',
            insert Ts h v pos n args = Done (TupleVecIter.mk p (leaf_pointers v')) h' v' /\
            well_formed Ts v' /\ mNumElements v' = mNumElements v + n /\
            (forall j arg, args !! j = Some arg ->
               column v' j = take (Z.to_nat p) (column v j) ++ replicate (Z.to_nat n) (Live arg)
                               ++ drop (Z.to_nat p) (column v j))).
  { unfold size, capacity in *.
    destruct (Z_le_gt_dec (mNumElements v + n) (mNumCapacity v)) as [Hle|Hgt].
    - destruct (Hroom Hle (or_introl Hn)) as (v' & E & W & S & _ & _ & C). eauto 10.
    - destruct Hcan as [Hle|[[[h1 [p0 bytes]] ptrs] Ha]]; [lia|].
      destruct (Hre ltac:(lia) h1 p0 bytes ptrs Ha) as (v' & E & W & S & _ & _ & _ & _ & C).
      eauto 10. }
  destruct Hrun as (h' & v' & Hrun & Hwf' & Hs' & Hcol').
  exists (TupleVecIter.mk p (leaf_pointers v')), h', v'.
  split; [exact Hrun|]. split; [reflexivity|].
  unfold size in *.
  assert (Hlast : TupleVecIter.mIndex
                    (TupleVecIter.plus (TupleVecIter.mk p (leaf_pointers v')) n) = p + n).
  { unfold TupleVecIter.plus, TupleVecIter.add_assign. cbn.
    apply wrap_small. unfold is_size_t. lia. }
  destruct (erase_columns Ts v' (TupleVecIter.mk p (leaf_pointers v'))
              (TupleVecIter.plus (TupleVecIter.mk p (leaf_pointers v')) n) Hwf')
    as (_ & E2 & _ & _ & E5 & _).
  { rewrite Hlast. cbn. lia. }
  { rewrite Hlast. lia. }
  rewrite Hlast in E2, E5. cbn [TupleVecIter.mIndex] in E2, E5.
  split; [lia|].
  intros j. rewrite E5.
  pose proof Hwf' as (_ & _ & Hl' & _).
  destruct (args !! j) as [arg|] eqn:Ha.
  - rewrite (Hcol' j arg Ha).
    destruct (leaves v !! j) as [leaf|] eqn:Hj.
    2:{ apply lookup_ge_None_1 in Hj. apply lookup_lt_Some in Ha. lia. }
    pose proof (length_column Ts v j leaf Hwf Hj) as Hlc.
    rewrite Z2Nat.inj_add by lia.
    apply splice_cut. lia.
  - apply lookup_ge_None_1 in Ha.
    rewrite (column_out_of_range v' j) by (apply lookup_ge_None_2; lia).
    rewrite (column_out_of_range v j) by (apply lookup_ge_None_2; lia).
    rewrite take_nil, drop_nil. reflexivity.
Qed.

(** On values [emplace(pos, args...)] is [insert(pos, 1, args...)]: the
    same outcome, heap and container, in all three branches, although the
    in-place branch runs [DoInsertValue] where [insert] runs
    [DoInsertAndFill]. *)
Lemma emplace_insert_values (h : A) (v : vec) (pos : TupleVecIter.t) (args : list V) :
  0 <= TupleVecIter.mIndex pos <= size v -> size v + 1 < SIZE_MAX_plus_1 ->
  emplace Ts h v pos args = insert Ts h v pos 1 args.
Proof.
  intros Hp Hs. unfold size in *. unfold emplace, insert.
  unfold TupleVecIter.diff, cbegin. cbn [TupleVecIter.mIndex].
  set (p := TupleVecIter.mIndex pos) in *. set (s := mNumElements v) in *.
  rewrite (wrap_index p) by (unfold is_size_t; lia).
  rewrite (wrap_small (s + 1)) by (unfold is_size_t; lia).
  rewrite (wrap_small (p + 1)) by (unfold is_size_t; lia).
  destruct (s + 1 >? mNumCapacity v) eqn:Egrow; cbn [orb].
  - destruct (DoAllocate Ts h _ 0) as [[[h1 al] ptrs]|]; [|reflexivity].
    assert (E : forall (la : TupleVecLeaf.t V * V) (pNew : Z),
              (let '(leaf, arg) := la in
               fun pNew : Z =>
               let '(leaf1, fresh1) :=
                 TupleVecLeaf.DoUninitializedMoveAndDestruct leaf 0 p
                   (fresh_region (Z.max (GetNewCapacity (mNumCapacity v)) (s + 1))) 0 in
               let '(_, fresh2) :=
                 TupleVecLeaf.DoUninitializedMoveAndDestruct leaf1 p s fresh1 (p + 1) in
               TupleVecLeaf.mk pNew (write_slot p (Live arg) fresh2)) pNew
              = (let '(leaf, arg) := la in
                 fun pNew : Z =>
                 let '(leaf1, fresh1) :=
                   TupleVecLeaf.DoUninitializedMoveAndDestruct leaf 0 p
                     (fresh_region (Z.max (GetNewCapacity (mNumCapacity v)) (s + 1))) 0 in
                 let '(_, fresh2) :=
                   TupleVecLeaf.DoUninitializedMoveAndDestruct leaf1 p s fresh1 (p + 1) in
                 TupleVecLeaf.mk pNew (uninitialized_fill p (p + 1) arg fresh2)) pNew).
    { intros [leaf arg] pNew.
      destruct (TupleVecLeaf.DoUninitializedMoveAndDestruct leaf 0 p _ 0) as [leaf1 fresh1].
      destruct (TupleVecLeaf.DoUninitializedMoveAndDestruct leaf1 p s _ _) as [leaf2 fresh2].
      rewrite uninitialized_fill_one. reflexivity. }
    rewrite (zip_with_ext _ _ _ _ _ _ E eq_refl eq_refl). reflexivity.
  - destruct (Z.eqb_spec p s) as [Eend|Emid]; cbn [negb].
    + unfold each_leaf_arg.
      rewrite (zip_with_ext
                 (fun leaf arg => TupleVecLeaf.with_cells leaf
                    (write_slot s (Live arg) (TupleVecLeaf.cells leaf)))
                 (fun leaf arg => TupleVecLeaf.with_cells leaf
                    (uninitialized_fill s (s + 1) arg (TupleVecLeaf.cells leaf)))
                 (leaves (set_mNumElements (s + 1) v)) (leaves (set_mNumElements (s + 1) v))
                 args args); try reflexivity.
      intros leaf arg. rewrite uninitialized_fill_one. reflexivity.
    + rewrite (zip_with_ext
                 (fun leaf arg => TupleVecLeaf.DoInsertValue p s arg leaf)
                 (fun leaf arg => TupleVecLeaf.DoInsertAndFill p 1 s arg leaf)
                 (leaves (set_mNumElements (s + 1) v)) (leaves (set_mNumElements (s + 1) v))
                 args args); try reflexivity.
      intros leaf arg. apply DoInsertValue_DoInsertAndFill; lia.
Qed.

(** X13.  Erasing the whole range is [clear()]: [erase(begin(), end())]
    leaves exactly the container [clear()] leaves and returns its
    [begin()]. *)
Theorem erase_all_is_clear (v : vec) :
  well_formed Ts v ->
  erase v (begin_ v) (end_ v) = (clear v, begin_ (clear v)).
Proof.
  intros Hwf. pose proof Hwf as (Hs & Hc & Hl & Hcells).
  assert (Hb : begin_ (clear v) = TupleVecIter.mk 0 (leaf_pointers v)).
  { unfold begin_, clear. rewrite leaf_pointers_each_leaf. reflexivity. }
  rewrite Hb.
  destruct (Z.eq_dec (mNumElements v) 0) as [E0|Epos].
  - unfold erase, clear. unfold TupleVecIter.neq, begin_, end_, size. cbn.
    rewrite E0, Z.eqb_refl. cbn.
    f_equal.
    unfold each_leaf, set_leaves, set_mNumElements. cbn.
    destruct v as [ls p0 n0 c0 b0]. cbn in *. subst n0. f_equal.
    rewrite <- (map_id ls) at 1. apply map_ext. intros leaf.
    unfold destroy. cbn. destruct leaf; reflexivity.
  - rewrite (erase_unfold Ts v (begin_ v) (end_ v) Hwf);
      [|unfold begin_, end_, size; cbn; lia|unfold end_, size; cbn; lia].
    unfold begin_, end_, size. cbn [TupleVecIter.mIndex].
    f_equal. unfold clear.
    replace (mNumElements v - (mNumElements v - 0)) with 0 by lia.
    unfold each_leaf. f_equal. apply map_ext. intros leaf. f_equal. f_equal.
    unfold std_move. rewrite Z.sub_diag. reflexivity.
Qed.

(** X14.  [erase(pos)] removes one row: a well-formed container one row
    shorter in which every column is its old content with the element at
    [pos] deleted and the order kept; capacity and pointers stay, and the
    iterator returned is at the index of [pos]. *)
Theorem erase_at_spec (v : vec) (pos : TupleVecIter.t) :
  well_formed Ts v -> 0 <= TupleVecIter.mIndex pos < size v ->
  well_formed Ts (fst (erase_at v pos)) /\
  size (fst (erase_at v pos)) = size v - 1 /\
  capacity (fst (erase_at v pos)) = capacity v /\
  leaf_pointers (fst (erase_at v pos)) = leaf_pointers v /\
  (forall j, column (fst (erase_at v pos)) j
               = delete (Z.to_nat (TupleVecIter.mIndex pos)) (column v j)) /\
  snd (erase_at v pos) = TupleVecIter.mk (TupleVecIter.mIndex pos) (leaf_pointers v).
Proof.
  intros Hwf Hp. unfold size, capacity in *. pose proof Hwf as (Hs & Hc & Hl & Hcells).
  assert (Hlast : TupleVecIter.mIndex (TupleVecIter.plus pos 1) = TupleVecIter.mIndex pos + 1)
    by (apply plus_one_index; lia).
  unfold erase_at.
  destruct (erase_columns Ts v pos (TupleVecIter.plus pos 1) Hwf)
    as (E1 & E2 & E3 & E4 & E5 & E6); try (rewrite Hlast; lia).
  rewrite Hlast in E2, E5.
  split; [exact E1|]. split; [lia|]. split; [exact E3|]. split; [exact E4|].
  split; [|exact E6].
  intros j. rewrite E5, delete_take_drop.
  replace (Z.to_nat (TupleVecIter.mIndex pos + 1)) with (S (Z.to_nat (TupleVecIter.mIndex pos)))
    by lia.
  reflexivity.
Qed.

End Modifiers.

(* ===================================================================== *)
(** ** Filling and copying *)
(* ===================================================================== *)

Section FillProofs.
Context {V A : Type} `{Allocator A} {EV : MoveAssignable V}.
Variable Ts : list ColType.

Local Abbreviation vec := (TupleVecImpl V).

Lemma length_fill first last value (a : list (slot V)) :
  length (fill first last value a) = length a.
Proof.
  unfold fill. generalize (Z.to_nat (last - first)) as cnt. intros cnt. revert a.
  generalize 0 as k. induction cnt as [|c IH]; intros k a; [reflexivity|].
  cbn [for_each_offset]. rewrite IH. apply length_write_slot.
Qed.

(** A column whose slots below the size all hold [arg]. *)
Lemma filled_column (v' : vec) j leaf' (arg : V) n :
  leaves v' !! j = Some leaf' -> mNumElements v' = n -> 0 <= n ->
  n <= Z.of_nat (length (TupleVecLeaf.cells leaf')) ->
  (forall x, 0 <= x < n -> read_slot (TupleVecLeaf.cells leaf') x = Live arg) ->
  column v' j = replicate (Z.to_nat n) (Live arg).
Proof.
  intros Hj Hn H0 Hfit Hrd. eapply column_reads; [exact Hj| | |].
  - rewrite length_replicate. lia.
  - lia.
  - intros x Hx. rewrite Hrd by lia. rewrite read_replicate. zbool.
Qed.

Lemma empty_vec_well_formed : well_formed Ts (empty_vec (V:=V) Ts).
Proof.
  unfold well_formed, empty_vec. cbn. split; [lia|]. split; [unfold SIZE_MAX_plus_1; lia|].
  split; [apply length_map|]. apply Forall_map. apply List.Forall_forall.
  intros T _. reflexivity.
Qed.

Lemma zip_with_cells_id (g : V -> list (slot V) -> list (slot V)) :
  (forall arg c, g arg c = c) ->
  forall (ls : list (TupleVecLeaf.t V)) (args : list V),
  length args = length ls ->
  zip_with (fun leaf arg => TupleVecLeaf.with_cells leaf (g arg (TupleVecLeaf.cells leaf)))
    ls args = ls.
Proof.
  intros Hg. induction ls as [|leaf ls IH]; intros [|arg args] Hlen; simpl in *;
    try lia; [reflexivity|].
  rewrite Hg, IH by lia. destruct leaf; reflexivity.
Qed.

(** What the constructor from a count and a row builds. *)
Lemma construct_fill_run (h : A) (n : size_type) (args : list V) h1 p bytes ptrs :
  0 < n < SIZE_MAX_plus_1 -> length args = length Ts ->
  DoAllocate Ts h n 0 = Some (h1, (p, bytes), ptrs) ->
  exists v',
    construct_fill Ts h n args = Done tt (deallocate h1 nullptr 0) v' /\
    well_formed Ts v' /\ size v' = n /\ capacity v' = n /\
    mpData v' = p /\ internalDataSize v' = bytes /\ leaf_pointers v' = ptrs /\
    (forall j arg, args !! j = Some arg -> column v' j = replicate (Z.to_nat n) (Live arg)).
Proof.
  intros Hn Hargs Halloc.
  pose proof empty_vec_well_formed as (_ & _ & Hl0 & Hcells0).
  destruct (DoReallocate_run Ts h (empty_vec (V:=V) Ts) 0 n h1 p bytes ptrs)
    as (v1 & Hrun & Hs1 & Hc1 & Hp1 & Hb1 & Hptr1 & Hl1 & Hcells1 & _); auto; try (cbn; lia).
  cbn in Hrun, Hs1.
  unfold construct_fill, DoInitFillArgs, DoConditionalReallocate. cbn [mNumCapacity empty_vec].
  destruct (Z.gtb_spec n 0); [|lia]. rewrite Hrun. cbn [and_then].
  eexists. split; [reflexivity|].
  assert (Hwf2 : well_formed Ts (set_mNumElements n v1)).
  { apply (DoReallocate_well_formed Ts _ n); cbn; auto; lia. }
  split.
  { apply each_leaf_arg_well_formed; auto. intros. apply length_uninitialized_fill. }
  split; [reflexivity|]. split; [exact Hc1|]. split; [exact Hp1|]. split; [exact Hb1|].
  split; [rewrite each_leaf_arg_pointers; [exact Hptr1|cbn; lia]|].
  intros j arg Harg.
  destruct (leaves v1 !! j) as [leaf1|] eqn:Hj.
  2:{ apply lookup_ge_None_1 in Hj. apply lookup_lt_Some in Harg. lia. }
  pose proof (well_formed_cells Ts _ leaf1 Hwf2 (lookup_leaf_In _ j leaf1 Hj)) as Hlen.
  cbn in Hlen.
  eapply filled_column.
  - apply each_leaf_arg_lookup; [exact Hj|exact Harg].
  - reflexivity.
  - lia.
  - cbn. rewrite length_uninitialized_fill. lia.
  - intros x Hx. cbn. rewrite read_uninitialized_fill by lia. zbool.
Qed.

(** X15.  The constructor from a count and a row: for [n = 0] nothing is
    allocated and the container is the empty one; for [n > 0] one block
    for exactly [n] rows is requested, and when it is granted the
    container is well formed with size and capacity [n] and every column
    holds [n] copies of its argument, provided the layout for [n] rows
    fits [std::size_t] and the block lies in the address space: the
    regions of the columns then lie in the block one after the other;
    when the block is refused the constructor throws with nothing
    allocated. *)
Theorem construct_fill_spec (h : A) (n : size_type) (args : list V) :
  0 <= n < SIZE_MAX_plus_1 -> length args = length Ts ->
  (n = 0 -> construct_fill Ts h n args = Done tt h (empty_vec Ts)) /\
  (0 < n -> DoAllocate Ts h n 0 = None ->
     construct_fill Ts h n args = Threw h (empty_vec Ts)) /\
  (0 < n ->
   forall h1 p bytes ptrs,
     DoAllocate Ts h n 0 = Some (h1, (p, bytes), ptrs) ->
     layout_fits Ts n -> block_inside p bytes ->
     exists v',
       construct_fill Ts h n args = Done tt (deallocate h1 nullptr 0) v' /\
       well_formed Ts v' /\ size v' = n /\ capacity v' = n /\
       mpData v' = p /\ internalDataSize v' = bytes /\ leaf_pointers v' = ptrs /\
       regions_in_block Ts (leaf_pointers v') (capacity v') p (p + bytes) /\
       (forall j arg, args !! j = Some arg ->
          column v' j = replicate (Z.to_nat n) (Live arg))).
Proof.
  intros Hn Hargs. split; [|split].
  - intros ->. unfold construct_fill, DoInitFillArgs, DoConditionalReallocate. cbn.
    f_equal. unfold each_leaf_arg, set_leaves, empty_vec. cbn. f_equal.
    apply (zip_with_cells_id (fun arg => uninitialized_fill 0 0 arg)).
    + intros arg c. reflexivity.
    + rewrite length_map. exact Hargs.
  - intros Hpos Hfail.
    unfold construct_fill, DoInitFillArgs, DoConditionalReallocate, DoReallocate.
    cbn [mNumCapacity empty_vec]. destruct (Z.gtb_spec n 0); [|lia].
    rewrite Hfail. reflexivity.
  - intros Hpos h1 p bytes ptrs Halloc Hfits Hblock.
    destruct (construct_fill_run h n args h1 p bytes ptrs)
      as (v' & Hrun & Hwf' & Hs' & Hc' & Hp' & Hb' & Hptr' & Hcol'); auto; try lia.
    destruct (DoAllocate_regions Ts h n h1 p bytes ptrs Hfits Halloc Hblock) as [_ Hreg].
    exists v'. rewrite Hptr', Hc'. auto 10.
Qed.

(** X16.  [assign(n, args...)] makes every column [n] copies of its
    argument.  Up to the capacity it works in place: heap, capacity and
    pointers stay.  Beyond the capacity a container built for exactly [n]
    rows takes the place of the old one, which is destroyed, provided the
    layout for [n] rows fits [std::size_t] and the block lies in the
    address space: the regions of the columns then lie in the block one
    after the other; if that block is refused the container is
    unchanged. *)
Theorem assign_spec (h : A) (v : vec) (n : size_type) (args : list V) :
  well_formed Ts v -> 0 <= n < SIZE_MAX_plus_1 -> length args = length Ts ->
  (n <= capacity v ->
   exists v',
     assign Ts h v n args = Done tt h v' /\
     well_formed Ts v' /\ size v' = n /\ capacity v' = capacity v /\
     mpData v' = mpData v /\ leaf_pointers v' = leaf_pointers v /\
     (forall j arg, args !! j = Some arg ->
        column v' j = replicate (Z.to_nat n) (Live arg))) /\
  (capacity v < n -> DoAllocate Ts h n 0 = None -> assign Ts h v n args = Threw h v) /\
  (capacity v < n ->
   forall h1 p bytes ptrs,
     DoAllocate Ts h n 0 = Some (h1, (p, bytes), ptrs) ->
     layout_fits Ts n -> block_inside p bytes ->
     exists v',
       assign Ts h v n args = Done tt (destructor (deallocate h1 nullptr 0) v) v' /\
       well_formed Ts v' /\ size v' = n /\ capacity v' = n /\
       mpData v' = p /\ leaf_pointers v' = ptrs /\
       regions_in_block Ts (leaf_pointers v') (capacity v') p (p + bytes) /\
       (forall j arg, args !! j = Some arg ->
          column v' j = replicate (Z.to_nat n) (Live arg))).
Proof.
  intros Hwf Hn Hargs. pose proof Hwf as (Hs & Hc & Hl & Hcells).
  unfold size, capacity. set (s := mNumElements v) in *.
  assert (Hcap : forall leaf, In leaf (leaves v) ->
            Z.of_nat (length (TupleVecLeaf.cells leaf)) = mNumCapacity v).
  { intros leaf Hin. rewrite (well_formed_cells Ts v leaf Hwf Hin). lia. }
  split; [|split].
  - intros Hle. unfold assign. fold s.
    destruct (Z.gtb_spec n (mNumCapacity v)); [lia|].
    destruct (Z.gtb_spec n s) as [Hgrow|Hcut].
    + eexists. split; [reflexivity|].
      split.
      { apply well_formed_resized; [|cbn; lia].
        apply each_leaf_arg_well_formed; auto.
        - apply each_leaf_arg_well_formed; auto. intros. apply length_fill.
        - intros. apply length_uninitialized_fill. }
      split; [reflexivity|]. split; [reflexivity|]. split; [reflexivity|].
      split.
      { change (leaf_pointers (set_mNumElements n ?x)) with (leaf_pointers x).
        rewrite !each_leaf_arg_pointers; [reflexivity|lia|].
        unfold each_leaf_arg. cbn. rewrite length_zip_with. lia. }
      intros j arg Harg.
      destruct (leaves v !! j) as [leaf|] eqn:Hj.
      2:{ apply lookup_ge_None_1 in Hj. apply lookup_lt_Some in Harg. lia. }
      pose proof (Hcap leaf (lookup_leaf_In v j leaf Hj)) as Hlen.
      eapply filled_column.
      * change (leaves (set_mNumElements n ?x)) with (leaves x).
        apply each_leaf_arg_lookup; [|exact Harg].
        apply each_leaf_arg_lookup; [exact Hj|exact Harg].
      * reflexivity.
      * lia.
      * cbn. rewrite length_uninitialized_fill, length_fill. lia.
      * intros x Hx. cbn.
        rewrite read_uninitialized_fill by (rewrite ?length_fill; lia).
        destruct (fill_spec 0 s arg (TupleVecLeaf.cells leaf)) as [_ Hr]; try lia.
        rewrite Hr. zbool.
    + set (v1 := each_leaf_arg (fun arg => fill 0 n arg) args v).
      assert (Hwf1 : well_formed Ts v1).
      { apply each_leaf_arg_well_formed; auto. intros. apply length_fill. }
      assert (Hptr1 : leaf_pointers v1 = leaf_pointers v)
        by (apply each_leaf_arg_pointers; lia).
      assert (Hcol1 : forall j arg leaf, args !! j = Some arg -> leaves v !! j = Some leaf ->
                Z.of_nat (length (column v1 j)) = s /\
                forall x, 0 <= x < n -> read_slot (column v1 j) x = Live arg).
      { intros j arg leaf Harg Hj.
        pose proof (Hcap leaf (lookup_leaf_In v j leaf Hj)) as Hlen.
        pose proof (each_leaf_arg_lookup (fun arg => fill 0 n arg) args v j leaf arg Hj Harg)
          as Hj1. fold v1 in Hj1.
        split; [exact (length_column Ts v1 j _ Hwf1 Hj1)|].
        intros x Hx. rewrite (read_column v1 j _ x Hj1). cbn.
        destruct (fill_spec 0 n arg (TupleVecLeaf.cells leaf)) as [_ Hr]; try lia.
        rewrite Hr. fold s. zbool. }
      destruct (Z.eq_dec n s) as [Esame|Eless].
      * exists v1. split.
        { assert (Hneq : TupleVecIter.neq (TupleVecIter.plus (begin_ v1) n) (end_ v1) = false).
          { unfold TupleVecIter.neq, TupleVecIter.plus, TupleVecIter.add_assign,
              TupleVecIter.mpData0, begin_, end_, size.
            cbn [TupleVecIter.mIndex TupleVecIter.mpData].
            rewrite Z.add_0_l, (wrap_small n) by (unfold is_size_t; lia).
            change (mNumElements v1) with s.
            destruct (Z.eqb_spec n s); [|lia]. rewrite Z.eqb_refl. reflexivity. }
          unfold erase. rewrite Hneq. reflexivity. }
        split; [exact Hwf1|]. split; [cbn; lia|]. split; [reflexivity|].
        split; [reflexivity|]. split; [exact Hptr1|].
        intros j arg Harg.
        destruct (leaves v !! j) as [leaf|] eqn:Hj.
        2:{ apply lookup_ge_None_1 in Hj. apply lookup_lt_Some in Harg. lia. }
        destruct (Hcol1 j arg leaf Harg Hj) as [Hlc Hrc].
        apply region_ext; [rewrite length_replicate; lia|].
        intros x Hx. rewrite Hrc by lia. rewrite read_replicate. zbool.
      * assert (Hfirst : TupleVecIter.mIndex (TupleVecIter.plus (begin_ v1) n) = n).
        { unfold TupleVecIter.plus, TupleVecIter.add_assign, begin_. cbn.
          apply wrap_small. unfold is_size_t. lia. }
        destruct (erase_columns Ts v1 (TupleVecIter.plus (begin_ v1) n) (end_ v1) Hwf1)
          as (E1 & E2 & E3 & E4 & E5 & _).
        { rewrite Hfirst. unfold end_, size. cbn. fold s. lia. }
        { unfold end_, size. cbn. lia. }
        assert (Hend : TupleVecIter.mIndex (end_ v1) = s) by reflexivity.
        rewrite Hfirst, Hend in E2, E5.
        change (mNumElements v1) with s in E2.
        assert (Hp1 : mpData (fst (erase v1 (TupleVecIter.plus (begin_ v1) n) (end_ v1)))
                      = mpData v).
        { rewrite (erase_unfold Ts v1 (TupleVecIter.plus (begin_ v1) n) (end_ v1) Hwf1);
            [reflexivity|rewrite Hfirst, Hend; lia|rewrite Hend; cbn; lia]. }
        eexists. split; [reflexivity|].
        split; [exact E1|]. split; [lia|]. split; [exact E3|]. split; [exact Hp1|].
        split; [rewrite E4; exact Hptr1|].
        intros j arg Harg. rewrite E5.
        destruct (leaves v !! j) as [leaf|] eqn:Hj.
        2:{ apply lookup_ge_None_1 in Hj. apply lookup_lt_Some in Harg. lia. }
        destruct (Hcol1 j arg leaf Harg Hj) as [Hlc Hrc].
        rewrite drop_ge by lia. rewrite app_nil_r.
        apply region_ext; [rewrite length_take, length_replicate; lia|].
        intros x Hx. rewrite length_take in Hx. rewrite read_take, read_replicate.
        destruct (Z.ltb_spec x (Z.of_nat (Z.to_nat n))); [|lia].
        rewrite Hrc by lia. zbool.
  - intros Hlt Hfail. unfold assign.
    destruct (Z.gtb_spec n (mNumCapacity v)); [|lia].
    unfold construct_fill, DoInitFillArgs, DoConditionalReallocate, DoReallocate.
    cbn [mNumCapacity empty_vec]. destruct (Z.gtb_spec n 0); [|lia].
    rewrite Hfail. reflexivity.
  - intros Hlt h1 p bytes ptrs Halloc Hfits Hblock.
    destruct (construct_fill_run h n args h1 p bytes ptrs)
      as (v' & Hrun & Hwf' & Hs' & Hc' & Hp' & _ & Hptr' & Hcol'); auto; try lia.
    destruct (DoAllocate_regions Ts h n h1 p bytes ptrs Hfits Halloc Hblock) as [_ Hreg].
    exists v'. unfold assign.
    destruct (Z.gtb_spec n (mNumCapacity v)); [|lia].
    unfold capacity in Hc'. rewrite Hrun, Hptr', Hc'. cbn. auto 10.
Qed.

(** Copy construction from one region into another. *)
Lemma uninitialized_copy_to_spec first last (src : list (slot V)) d (dst : list (slot V)) :
  0 <= first <= last -> 0 <= d -> d + (last - first) <= Z.of_nat (length dst) ->
  length (uninitialized_copy_to first last src d dst) = length dst /\
  forall x, read_slot (uninitialized_copy_to first last src d dst) x =
    if (d <=? x) && (x <? d + (last - first)) then read_slot src (x - d + first)
    else read_slot dst x.
Proof.
  intros Hfl Hd Hdst. unfold uninitialized_copy_to.
  set (body := fun (k : Z) (d0 : list (slot V)) =>
                 write_slot (d + k) (read_slot src (first + k)) d0).
  assert (Hgen : forall cnt : nat, Z.of_nat cnt <= last - first ->
    length (for_each_offset cnt 0 body dst) = length dst /\
    forall x, read_slot (for_each_offset cnt 0 body dst) x =
      if (d <=? x) && (x <? d + Z.of_nat cnt) then read_slot src (x - d + first)
      else read_slot dst x).
  { induction cnt as [|c IH]; intros Hc.
    - simpl. split; [reflexivity|]. intros x. zbool.
    - rewrite for_each_offset_snoc, Z.add_0_l.
      destruct IH as (Hl1 & Hr1); [lia|].
      generalize dependent (for_each_offset c 0 body dst). intros res Hl1 Hr1.
      unfold body.
      split; [rewrite length_write_slot; exact Hl1|].
      intros x. destruct (Z.eq_dec x (d + Z.of_nat c)) as [->|Hne].
      + rewrite read_write_eq by lia. zbool. f_equal. lia.
      + rewrite read_write_ne by lia. rewrite Hr1. zbool. }
  specialize (Hgen (Z.to_nat (last - first)) ltac:(lia)).
  replace (Z.of_nat (Z.to_nat (last - first))) with (last - first) in Hgen by lia.
  exact Hgen.
Qed.

(** X17.  The copy constructor: the copy of an empty container is the
    empty container, with nothing allocated; otherwise one block for
    exactly [size()] rows is requested, and when it is granted the copy
    is well formed, has the size of the original, a capacity equal to
    that size whatever the capacity of the original, and the same
    columns; when it is refused the constructor throws with nothing
    allocated. *)
Theorem copy_construct_spec (h : A) (x : vec) :
  well_formed Ts x ->
  (size x = 0 -> copy_construct Ts h x = Done tt h (empty_vec Ts)) /\
  (0 < size x -> DoAllocate Ts h (size x) 0 = None ->
     copy_construct Ts h x = Threw h (empty_vec Ts)) /\
  (0 < size x ->
   forall h1 p bytes ptrs,
     DoAllocate Ts h (size x) 0 = Some (h1, (p, bytes), ptrs) ->
     exists v',
       copy_construct Ts h x = Done tt (deallocate h1 nullptr 0) v' /\
       well_formed Ts v' /\ size v' = size x /\ capacity v' = size x /\
       mpData v' = p /\ internalDataSize v' = bytes /\ leaf_pointers v' = ptrs /\
       (forall j, column v' j = column x j)).
Proof.
  intros Hwf. pose proof Hwf as (Hs & Hc & Hl & Hcells). unfold size.
  set (s := mNumElements x) in *.
  assert (Hdiff : TupleVecIter.diff (end_ x) (begin_ x) = s).
  { unfold TupleVecIter.diff, end_, begin_, size. cbn. fold s.
    apply wrap_index. unfold is_size_t. lia. }
  pose proof empty_vec_well_formed as (_ & _ & Hl0 & Hcells0).
  split; [|split].
  - intros E0. unfold copy_construct, DoInitFromIterator. rewrite Hdiff.
    unfold DoConditionalReallocate. cbn [mNumCapacity empty_vec]. rewrite E0. cbn [and_then Z.gtb Z.compare].
    f_equal. unfold end_, begin_, size. cbn [TupleVecIter.mIndex]. fold s. rewrite E0.
    unfold set_leaves, set_mNumElements, empty_vec. cbn. f_equal.
    assert (Hid : forall (ls ls' : list (TupleVecLeaf.t V)), length ls' = length ls ->
              zip_with (fun leaf other =>
                          TupleVecLeaf.with_cells leaf
                            (uninitialized_copy_to 0 0 (TupleVecLeaf.cells other) 0
                               (TupleVecLeaf.cells leaf))) ls ls' = ls).
    { induction ls as [|leaf ls IH]; intros [|other ls'] Hlen; simpl in *;
        try lia; [reflexivity|].
      rewrite IH by lia. destruct leaf; reflexivity. }
    apply Hid. rewrite length_map. exact Hl.
  - intros Hpos Hfail. unfold copy_construct, DoInitFromIterator. rewrite Hdiff.
    unfold DoConditionalReallocate, DoReallocate. cbn [mNumCapacity empty_vec].
    destruct (Z.gtb_spec s 0); [|lia]. rewrite Hfail. reflexivity.
  - intros Hpos h1 p bytes ptrs Halloc.
    destruct (DoReallocate_run Ts h (empty_vec (V:=V) Ts) 0 s h1 p bytes ptrs)
      as (v1 & Hrun & Hs1 & Hc1 & Hp1 & Hb1 & Hptr1 & Hl1 & Hcells1 & _);
      auto; try (cbn; lia).
    cbn in Hrun, Hs1.
    unfold copy_construct, DoInitFromIterator. rewrite Hdiff.
    unfold DoConditionalReallocate. cbn [mNumCapacity empty_vec].
    destruct (Z.gtb_spec s 0); [|lia]. rewrite Hrun. cbn [and_then].
    unfold end_, begin_, size. cbn [TupleVecIter.mIndex]. fold s.
    eexists. split; [reflexivity|].
    set (f := fun (leaf other : TupleVecLeaf.t V) =>
                TupleVecLeaf.with_cells leaf
                  (uninitialized_copy_to 0 s (TupleVecLeaf.cells other) 0
                     (TupleVecLeaf.cells leaf))).
    assert (Hf : forall leaf other, In leaf (leaves v1) ->
              length (TupleVecLeaf.cells (f leaf other)) = Z.to_nat s /\
              forall k, read_slot (TupleVecLeaf.cells (f leaf other)) k =
                if (0 <=? k) && (k <? s) then read_slot (TupleVecLeaf.cells other) k
                else read_slot (TupleVecLeaf.cells leaf) k).
    { intros leaf other Hin. rewrite List.Forall_forall in Hcells1.
      pose proof (Hcells1 leaf Hin) as Hlen. unfold f. cbn.
      destruct (uninitialized_copy_to_spec 0 s (TupleVecLeaf.cells other) 0
                  (TupleVecLeaf.cells leaf)) as [Hl2 Hr2]; try lia.
      split; [lia|]. intros k. rewrite Hr2. zbool; f_equal; lia. }
    assert (Hwf' : well_formed Ts (set_leaves (zip_with f (leaves v1) (leaves x))
                                     (set_mNumElements s v1))).
    { unfold well_formed. cbn. rewrite Hc1. split; [lia|]. split; [lia|].
      split; [rewrite length_zip_with; lia|].
      apply zip_with_leaves_Forall. intros leaf other Hin. apply Hf, Hin. }
    split; [exact Hwf'|]. split; [reflexivity|]. split; [exact Hc1|].
    split; [exact Hp1|]. split; [exact Hb1|].
    split.
    { unfold leaf_pointers. cbn. rewrite <- Hptr1. unfold leaf_pointers.
      assert (Hptr : forall (ls ls' : list (TupleVecLeaf.t V)), length ls' = length ls ->
                map TupleVecLeaf.mpData (zip_with f ls ls') = map TupleVecLeaf.mpData ls).
      { induction ls as [|leaf ls IH]; intros [|other ls'] Hlen; simpl in *;
          try lia; [reflexivity|]. rewrite IH by lia. reflexivity. }
      apply Hptr. lia. }
    apply (same_columns Ts x _ Hwf Hwf'); [reflexivity|].
    intros j other Hj.
    destruct (leaves v1 !! j) as [leaf|] eqn:Hj1.
    2:{ apply lookup_ge_None_1 in Hj1. apply lookup_lt_Some in Hj. lia. }
    exists (f leaf other). split.
    + cbn. rewrite lookup_zip_with, Hj1. simpl. rewrite Hj. reflexivity.
    + intros k Hk. destruct (Hf leaf other (lookup_leaf_In v1 j leaf Hj1)) as [_ Hr].
      rewrite Hr. fold s in Hk. zbool.
Qed.

End FillProofs.

(* ===================================================================== *)
(** ** Rows in, columns out; giving capacity back *)
(* ===================================================================== *)

Section RowsProofs.
Context {V A : Type} `{Allocator A} {EV : MoveAssignable V}.
Variable Ts : list ColType.

Local Abbreviation vec := (TupleVecImpl V).

(** A sequence of [push_back]s on an allocator that never refuses. *)
Lemma push_back_all_run (Hnf : forall (h : A) bytes, is_Some (allocate h bytes))
    (rows : list (list V)) :
  forall (h : A) (v : vec),
  well_formed Ts v ->
  size v + Z.of_nat (length rows) < 2 ^ 63 ->
  Forall (fun row => length row = length Ts) rows ->
  exists h' v',
    push_back_all Ts h v rows = Done tt h' v' /\
    well_formed Ts v' /\
    size v' = size v + Z.of_nat (length rows) /\
    forall j, (j < length Ts)%nat -> column v' j = column v j ++ rows_column j rows.
Proof.
  induction rows as [|args rows' IH]; intros h v Hwf Hlen Hrows.
  - exists h, v. cbn. split; [reflexivity|]. split; [exact Hwf|]. split; [lia|].
    intros j _. rewrite app_nil_r. reflexivity.
  - inversion Hrows as [|? ? Hargs Hrows']; subst. cbn [length] in Hlen.
    pose proof Hwf as (Hs & _). unfold size in *.
    destruct (push_back_run Ts h v args Hwf ltac:(unfold size; lia) Hargs) as [Hroom Hfull].
    assert (Hrun : exists h1 v1, push_back Ts h v args = Done tt h1 v1).
    { unfold size, capacity in *.
      destruct (Z_lt_le_dec (mNumElements v) (mNumCapacity v)) as [Hlt|Hge].
      - destruct (Hroom Hlt) as (v1 & E & _). eauto.
      - destruct (DoAllocate_total Hnf Ts h (2 * (mNumElements v + 1)) 0)
          as [[[h1 [p bytes]] ptrs] Ha].
        destruct (Hfull ltac:(lia) h1 p bytes ptrs Ha) as (v1 & E & _). eauto. }
    destruct Hrun as (h1 & v1 & Hrun).
    destruct (push_back_Done Ts h v args h1 v1 Hwf ltac:(unfold size; lia) Hargs Hrun)
      as (Hwf1 & Hs1 & Hcol1).
    unfold size in *.
    destruct (IH h1 v1 Hwf1 ltac:(lia) Hrows') as (h' & v' & E & Hwf' & Hs' & Hcol').
    exists h', v'. cbn [push_back_all]. rewrite Hrun. cbn [and_then].
    split; [exact E|]. split; [exact Hwf'|].
    split; [unfold size in *; cbn [length]; lia|].
    intros j Hj. rewrite (Hcol' j Hj).
    destruct (args !! j) as [arg|] eqn:Ha.
    2:{ apply lookup_ge_None_1 in Ha. lia. }
    rewrite (Hcol1 j arg Ha). unfold rows_column. cbn [map]. rewrite Ha.
    rewrite <- app_assoc. reflexivity.
Qed.

(** X18.  Rows in, columns out: on an allocator that never refuses,
    pushing the rows [rows] one after the other onto the empty container
    completes and leaves a well-formed container with one row per
    [push_back]; column [j] holds the [j]-th components of the rows in
    the order they were pushed, and [at(k)] refers to the components of
    the [k]-th row. *)
Theorem push_back_all_columns (Hnf : forall (h : A) bytes, is_Some (allocate h bytes))
    (h : A) (rows : list (list V)) :
  Forall (fun row => length row = length Ts) rows ->
  Z.of_nat (length rows) < 2 ^ 63 ->
  exists h' v',
    push_back_all Ts h (empty_vec Ts) rows = Done tt h' v' /\
    well_formed Ts v' /\
    size v' = Z.of_nat (length rows) /\
    (forall j, (j < length Ts)%nat -> column v' j = rows_column j rows) /\
    (forall (k : nat) row, rows !! k = Some row -> at_ v' (Z.of_nat k) = map Live row).
Proof.
  intros Hrows Hlen.
  destruct (push_back_all_run Hnf rows h (empty_vec Ts) (empty_vec_well_formed Ts)
              ltac:(cbn; lia) Hrows) as (h' & v' & E & Hwf' & Hs' & Hcol').
  exists h', v'. cbn in Hs'. unfold size in *.
  split; [exact E|]. split; [exact Hwf'|]. split; [exact Hs'|].
  assert (Hcols : forall j, (j < length Ts)%nat -> column v' j = rows_column j rows).
  { intros j Hj. rewrite (Hcol' j Hj).
    unfold column, empty_vec. cbn. rewrite list_lookup_fmap.
    destruct (Ts !! j); cbn; reflexivity. }
  split; [exact Hcols|].
  intros k row Hk. pose proof Hwf' as (_ & _ & Hl' & _).
  rewrite List.Forall_forall in Hrows.
  assert (Hrow : length row = length Ts).
  { apply Hrows. apply list_elem_of_In. eapply list_elem_of_lookup_2. exact Hk. }
  apply lookup_lt_Some in Hk as Hklt.
  unfold at_. apply list_eq. intros j. rewrite !list_lookup_fmap.
  destruct (leaves v' !! j) as [leaf'|] eqn:Hj'.
  - apply lookup_lt_Some in Hj' as Hjlt.
    destruct (row !! j) as [x|] eqn:Hx.
    2:{ apply lookup_ge_None_1 in Hx. lia. }
    cbn. f_equal.
    pose proof (read_column v' j leaf' (Z.of_nat k) Hj') as Hr.
    rewrite (Hcols j ltac:(lia)) in Hr.
    destruct (Z.ltb_spec (Z.of_nat k) (Z.of_nat (Z.to_nat (mNumElements v')))); [|lia].
    rewrite <- Hr. unfold rows_column, read_slot.
    destruct (Z.ltb_spec (Z.of_nat k) 0); [lia|].
    rewrite Nat2Z.id, list_lookup_fmap, Hk. cbn. rewrite Hx. reflexivity.
  - apply lookup_ge_None_1 in Hj'.
    rewrite (lookup_ge_None_2 row j) by lia. reflexivity.
Qed.

(** Moving the first [s] elements of every leaf into new regions of [s]
    slots. *)
Lemma moved_out_columns s (ls : list (TupleVecLeaf.t V)) : forall (ptrs : list Z),
  0 <= s -> length ptrs = length ls ->
  Forall (fun leaf => s <= Z.of_nat (length (TupleVecLeaf.cells leaf))) ls ->
  map TupleVecLeaf.mpData (map snd (moved_out s ls ptrs)) = ptrs /\
  length (map snd (moved_out s ls ptrs)) = length ls /\
  Forall (fun leaf => length (TupleVecLeaf.cells leaf) = Z.to_nat s)
    (map snd (moved_out s ls ptrs)) /\
  forall j leaf, ls !! j = Some leaf ->
    exists leaf', map snd (moved_out s ls ptrs) !! j = Some leaf' /\
      take (Z.to_nat s) (TupleVecLeaf.cells leaf')
        = take (Z.to_nat s) (TupleVecLeaf.cells leaf).
Proof.
  induction ls as [|leaf0 ls IH]; intros [|p ptrs] Hs Hlen Hall; simpl in *; try lia.
  - repeat split; [constructor|]. intros j leaf Hj. discriminate.
  - inversion Hall as [|? ? Hl0 Hall']; subst.
    destruct (IH ptrs Hs ltac:(lia) Hall') as (Hp & Hlen' & Hcells' & Hcol).
    unfold moved_out in *. cbn [zip_with map].
    pose proof (uninitialized_move_to_spec 0 s (TupleVecLeaf.cells leaf0) 0 (fresh_region s))
      as Hmv.
    destruct (uninitialized_move_to 0 s (TupleVecLeaf.cells leaf0) 0 (fresh_region s))
      as [s0 d0].
    destruct Hmv as (_ & Hld & _ & Hrd); try lia.
    { unfold fresh_region. rewrite length_replicate. lia. }
    cbn [map snd fst TupleVecLeaf.mpData TupleVecLeaf.with_cells] in *.
    split; [f_equal; exact Hp|]. split; [simpl; f_equal; exact Hlen'|].
    split.
    { constructor; [|exact Hcells']. cbn. rewrite Hld. apply length_fresh_region. }
    intros [|j] leaf Hj; simpl in Hj.
    + injection Hj as <-. eexists. split; [reflexivity|]. cbn.
      apply region_ext.
      * rewrite !length_take, Hld. unfold fresh_region. rewrite length_replicate. lia.
      * intros x Hx. rewrite length_take in Hx. rewrite !read_take.
        destruct (Z.ltb_spec x (Z.of_nat (Z.to_nat s))); [|reflexivity].
        rewrite Hrd. zbool. f_equal. lia.
    + apply Hcol. exact Hj.
Qed.

Lemma moved_nothing : forall (Ts0 : list ColType) (ls : list (TupleVecLeaf.t V)),
  length ls = length Ts0 ->
  map snd
    (zip_with (fun (other leaf : TupleVecLeaf.t V) =>
                 let '(s0, d0) := uninitialized_move_to 0 0 (TupleVecLeaf.cells other)
                                    0 (TupleVecLeaf.cells leaf) in
                 (TupleVecLeaf.with_cells other s0, TupleVecLeaf.with_cells leaf d0))
              ls (map (fun _ => @TupleVecLeaf.mk V nullptr []) Ts0))
    = map (fun _ => @TupleVecLeaf.mk V nullptr []) Ts0.
Proof.
  induction Ts0 as [|T Ts0 IH]; intros [|leaf ls] Hlen; simpl in *; try lia; [reflexivity|].
  f_equal. apply IH. lia.
Qed.

(** X19.  [shrink_to_fit()] gives the unused capacity back.  A container
    without elements becomes the empty container and its block, if it
    has one, is released.  Otherwise one block for exactly [size()] rows
    is requested; when it is granted the container is well formed with
    the old size, a capacity equal to the size and the old columns, in
    the new block, and the old block is released; when it is refused the
    container is unchanged. *)
Theorem shrink_to_fit_spec (h : A) (v : vec) :
  well_formed Ts v ->
  (size v = 0 ->
     shrink_to_fit Ts h v
       = Done tt (if negb (mpData v =? nullptr)
                  then deallocate h (mpData v) (internalDataSize v) else h)
           (empty_vec Ts)) /\
  (0 < size v -> DoAllocate Ts h (size v) 0 = None -> shrink_to_fit Ts h v = Threw h v) /\
  (0 < size v ->
   forall h1 p bytes ptrs,
     DoAllocate Ts h (size v) 0 = Some (h1, (p, bytes), ptrs) ->
     exists v',
       shrink_to_fit Ts h v
         = Done tt (if negb (mpData v =? nullptr)
                    then deallocate (deallocate h1 nullptr 0) (mpData v) (internalDataSize v)
                    else deallocate h1 nullptr 0) v' /\
       well_formed Ts v' /\
       size v' = size v /\
       capacity v' = size v /\
       (forall j, column v' j = column v j) /\
       mpData v' = p /\
       internalDataSize v' = bytes /\
       leaf_pointers v' = ptrs).
Proof.
  intros Hwf. unfold size, capacity in *.
  destruct (well_formed_size_t Ts v Hwf) as [Hs Hc]. unfold is_size_t in Hs, Hc.
  pose proof Hwf as (Hsc & _ & Hleaves & Hcells).
  assert (Hsz : wrap (mNumElements v - 0) = mNumElements v)
    by (apply wrap_index; unfold is_size_t; lia).
  split; [|split].
  - intros E0.
    unfold shrink_to_fit, DoInitFromIterator_move, DoConditionalReallocate.
    unfold TupleVecIter.diff, end_, begin_, size. cbn [TupleVecIter.mIndex].
    rewrite Hsz, E0. cbn [empty_vec mNumCapacity Z.gtb Z.compare and_then].
    change (leaves (set_mNumElements 0 (empty_vec (V:=V) Ts)))
      with (map (fun _ => @TupleVecLeaf.mk V nullptr []) Ts).
    rewrite (moved_nothing Ts (leaves v) Hleaves).
    reflexivity.
  - intros Hpos Hnone.
    unfold shrink_to_fit, DoInitFromIterator_move, DoConditionalReallocate, DoReallocate.
    unfold TupleVecIter.diff, end_, begin_, size. cbn [TupleVecIter.mIndex].
    rewrite Hsz. cbn [empty_vec mNumCapacity].
    destruct (Z.gtb_spec (mNumElements v) 0); [|lia].
    rewrite Hnone. reflexivity.
  - intros Hpos h1 p bytes ptrs Halloc.
    pose proof (DoAllocate_length Ts h _ _ _ _ _ Halloc) as Hlen.
    destruct (moved_out_columns (mNumElements v) (leaves v) ptrs)
      as (Hp & Hl & Hcells' & Hcol); try lia.
    { eapply Forall_impl; [exact Hcells|]. intros leaf Hleaf. cbn in Hleaf. lia. }
    exists (mkImpl (map snd (moved_out (mNumElements v) (leaves v) ptrs))
              p (mNumElements v) (mNumElements v) bytes).
    split; [|split; [|split; [|split; [|split; [|split; [|split]]]]]]; try reflexivity.
    + unfold shrink_to_fit, DoInitFromIterator_move, DoConditionalReallocate, DoReallocate.
      unfold TupleVecIter.diff, end_, begin_, size. cbn [TupleVecIter.mIndex].
      rewrite Hsz. cbn [empty_vec mNumCapacity].
      destruct (Z.gtb_spec (mNumElements v) 0); [|lia].
      rewrite Halloc. cbn [leaves empty_vec].
      rewrite relocate_empty_leaves by exact Hlen.
      cbn. reflexivity.
    + unfold well_formed. cbn. split; [lia|]. split; [lia|]. split; [lia|]. exact Hcells'.
    + intros j. unfold column. cbn [leaves mNumElements].
      destruct (leaves v !! j) as [leaf|] eqn:Hj.
      * destruct (Hcol j leaf Hj) as (leaf' & -> & E). exact E.
      * rewrite (lookup_ge_None_2 _ j); [reflexivity|].
        rewrite Hl. apply lookup_ge_None_1. exact Hj.
    + exact Hp.
Qed.

End RowsProofs.

(* ===================================================================== *)
(** ** The self-checks of the container *)
(* ===================================================================== *)

Lemma variadicAnd_eqb (l1 l2 : list Z) :
  length l1 = length l2 ->
  variadicAnd (zip_with Z.eqb l1 l2) = true <-> take 2 l1 = take 2 l2.
Proof.
  destruct l1 as [|a [|a' l1]], l2 as [|b [|b' l2]]; simpl; intros Hlen; try lia;
    rewrite ?take_0;
    repeat match goal with
           | |- context [?x =? ?y] => destruct (Z.eqb_spec x y)
           end;
    simpl; split; intros E; try reflexivity; congruence.
Qed.

Lemma variadicAnd_all (l : list bool) :
  Forall (fun b => b = true) l -> variadicAnd l = true.
Proof.
  intros Hall. destruct l as [|b [|b' l]]; [reflexivity| |].
  - inversion Hall; subst. reflexivity.
  - inversion Hall as [|? ? Hb Hall']; subst. inversion Hall'; subst. reflexivity.
Qed.

Section Checks.
Context {V A : Type} `{Allocator A} {EV : MoveAssignable V}.
Variable Ts : list ColType.

Local Abbreviation vec := (TupleVecImpl V).

(** X20.  [validate_iterator] compares the column pointers of the
    iterator with those of the container for the first two columns only
    (the variadic conjunction reads two conditions).  When these agree
    the result follows the index: valid, current and dereferenceable
    below [size()], valid and current at [size()], nothing beyond; when
    they differ the result is [isf_none].  So [end()] is valid but not
    dereferenceable, and [begin()] is dereferenceable exactly when the
    container has elements.  [validate_iterator_pair] reads the same two
    pointers of its arguments and compares their indices. *)
Theorem validate_iterator_spec (v : vec) (it first last : TupleVecIter.t) :
  length (TupleVecIter.mpData it) = length (leaf_pointers v) ->
  length (TupleVecIter.mpData first) = length (TupleVecIter.mpData last) ->
  (take 2 (TupleVecIter.mpData it) = take 2 (leaf_pointers v) ->
     validate_iterator v it =
       if TupleVecIter.mIndex it <? size v
       then Z.lor (Z.lor isf_valid isf_current) isf_can_dereference
       else if TupleVecIter.mIndex it =? size v then Z.lor isf_valid isf_current
       else isf_none) /\
  (take 2 (TupleVecIter.mpData it) <> take 2 (leaf_pointers v) ->
     validate_iterator v it = isf_none) /\
  validate_iterator v (end_ v) = Z.lor isf_valid isf_current /\
  validate_iterator v (begin_ v) =
    (if 0 <? size v then Z.lor (Z.lor isf_valid isf_current) isf_can_dereference
     else if 0 =? size v then Z.lor isf_valid isf_current else isf_none) /\
  (validate_iterator_pair first last = true <->
     TupleVecIter.mIndex first <= TupleVecIter.mIndex last /\
     take 2 (TupleVecIter.mpData first) = take 2 (TupleVecIter.mpData last)).
Proof.
  intros Hlen Hlen2.
  assert (Hgen : forall it0 : TupleVecIter.t,
            take 2 (TupleVecIter.mpData it0) = take 2 (leaf_pointers v) ->
            length (TupleVecIter.mpData it0) = length (leaf_pointers v) ->
            validate_iterator v it0 =
              if TupleVecIter.mIndex it0 <? size v
              then Z.lor (Z.lor isf_valid isf_current) isf_can_dereference
              else if TupleVecIter.mIndex it0 =? size v then Z.lor isf_valid isf_current
              else isf_none).
  { intros it0 Hsame Hl0. unfold validate_iterator, size.
    apply (variadicAnd_eqb _ _ Hl0) in Hsame. rewrite Hsame. cbn [negb].
    destruct (Z.ltb_spec (TupleVecIter.mIndex it0) (mNumElements v)); [reflexivity|].
    destruct (Z.leb_spec (TupleVecIter.mIndex it0) (mNumElements v)),
      (Z.eqb_spec (TupleVecIter.mIndex it0) (mNumElements v)); try lia; reflexivity. }
  split; [intros Hsame; apply Hgen; assumption|].
  split.
  { intros Hdiff. unfold validate_iterator.
    destruct (variadicAnd (zip_with Z.eqb (TupleVecIter.mpData it) (leaf_pointers v))) eqn:E;
      [|reflexivity].
    apply (variadicAnd_eqb _ _ Hlen) in E. contradiction. }
  split.
  { rewrite (Hgen (end_ v)) by reflexivity. unfold end_. cbn [TupleVecIter.mIndex].
    rewrite Z.ltb_irrefl, Z.eqb_refl. reflexivity. }
  split.
  { rewrite (Hgen (begin_ v)) by reflexivity. reflexivity. }
  unfold validate_iterator_pair. rewrite andb_true_iff, Z.leb_le.
  rewrite (variadicAnd_eqb _ _ Hlen2). reflexivity.
Qed.

(** Where the column pointers of a block lie. *)
Lemma DoAllocate_pointers (h : A) r h1 p bytes ptrs :
  Forall well_formed_type Ts -> 0 <= r -> spec_total Ts r < SIZE_MAX_plus_1 ->
  DoAllocate Ts h r 0 = Some (h1, (p, bytes), ptrs) ->
  0 <= p -> p + bytes < SIZE_MAX_plus_1 ->
  bytes = spec_total Ts r /\ Forall (fun q => p <= q <= p + bytes) ptrs.
Proof.
  intros Htypes Hr Hfit Halloc Hp Hend.
  rewrite (DoAllocate_layout Ts h r 0 Htypes Hr ltac:(lia) Hfit) in Halloc.
  unfold layout_result in Halloc.
  assert (Hoffs : forall total q0, total = spec_total_from 0 Ts r ->
            0 <= q0 -> q0 + total < SIZE_MAX_plus_1 ->
            Forall (fun q => q0 <= q <= q0 + total)
              (map (fun o => wrap (q0 + o)) (spec_offsets_from 0 Ts r))).
  { intros total q0 -> Hq0 Hq1. apply Forall_map. apply Forall_lookup. intros i o Ho.
    assert (Hi : is_Some (Ts !! i)).
    { apply lookup_lt_is_Some. apply lookup_lt_Some in Ho.
      assert (Hl : forall Ts0 q, length (spec_offsets_from q Ts0 r) = length Ts0).
      { induction Ts0 as [|T Ts0 IH]; intros q; simpl; [reflexivity|]. rewrite IH.
        reflexivity. }
      rewrite Hl in Ho. exact Ho. }
    destruct Hi as [T HT].
    destruct (spec_offsets_props Ts r 0 i T o Htypes Hr HT Ho) as (_ & Hlo & Hhi & _).
    assert (HsT : 0 <= sizeof T * r).
    { rewrite List.Forall_forall in Htypes.
      assert (HwT : well_formed_type T).
      { apply Htypes. apply list_elem_of_In. eapply list_elem_of_lookup_2. exact HT. }
      destruct HwT as [_ Hsz]. nia. }
    cbn. rewrite wrap_small by (unfold is_size_t; lia). lia. }
  destruct (r =? 0).
  - injection Halloc as <- <- <- <-. split; [reflexivity|].
    apply Hoffs; [reflexivity|unfold nullptr; lia|exact Hend].
  - destruct (allocate h (spec_total_from 0 Ts r)) as [[ptr h']|]; [|discriminate].
    injection Halloc as <- <- <- <-. split; [reflexivity|].
    apply Hoffs; [reflexivity|lia|exact Hend].
Qed.

(** X21.  [reserve(n)] leaves the container as it is when [n] does not
    exceed the capacity, and when the block for [n] rows is refused (it
    throws then, with the size untouched); when the block is granted,
    the layout for [n] rows fits [std::size_t] and the block lies in the
    address space, the container is well formed with capacity exactly
    [n], the old size and columns, in the new block, where the regions of
    the columns lie one after the other, and the old block is
    released. *)
Theorem reserve_spec (h : A) (v : vec) (n : size_type) :
  well_formed Ts v -> 0 <= n < SIZE_MAX_plus_1 ->
  (n <= capacity v -> reserve Ts h v n = Done tt h v) /\
  (capacity v < n -> DoAllocate Ts h n 0 = None -> reserve Ts h v n = Threw h v) /\
  (capacity v < n ->
   forall h1 p bytes ptrs,
     DoAllocate Ts h n 0 = Some (h1, (p, bytes), ptrs) ->
     layout_fits Ts n -> block_inside p bytes ->
     exists v',
       reserve Ts h v n = Done tt (deallocate h1 (mpData v) (internalDataSize v)) v' /\
       well_formed Ts v' /\ size v' = size v /\ capacity v' = n /\
       (forall j, column v' j = column v j) /\
       mpData v' = p /\ internalDataSize v' = bytes /\ leaf_pointers v' = ptrs /\
       regions_in_block Ts (leaf_pointers v') (capacity v') p (p + bytes)).
Proof.
  intros Hwf Hn. destruct (reserve_run Ts h v n Hwf Hn) as (R1 & R2 & R3).
  split; [exact R1|]. split; [exact R2|].
  intros Hlt h1 p bytes ptrs Halloc Hfits Hblock.
  destruct (R3 Hlt h1 p bytes ptrs Halloc)
    as (v' & Hrun & Hwf' & Hs' & Hc' & Hcol' & Hp' & Hb' & Hptr').
  destruct (DoAllocate_regions Ts h n h1 p bytes ptrs Hfits Halloc Hblock) as [_ Hreg].
  exists v'. rewrite Hptr', Hc'. auto 10.
Qed.

(** A container whose column pointers lie inside its block passes
    [validate()]. *)
Lemma validate_inside (v' : vec) :
  mNumElements v' <= mNumCapacity v' ->
  0 <= mpData v' -> 0 <= internalDataSize v' ->
  mpData v' + internalDataSize v' < SIZE_MAX_plus_1 ->
  Forall (fun q => mpData v' <= q <= mpData v' + internalDataSize v') (leaf_pointers v') ->
  validate v' = true.
Proof.
  intros Hsize Hp Hb Hend Hptrs. unfold validate.
  destruct (Z.gtb_spec (mNumElements v') (mNumCapacity v')); [lia|].
  rewrite (wrap_small (mpData v' + internalDataSize v')) by (unfold is_size_t; lia).
  rewrite !variadicAnd_all; [reflexivity| |].
  - apply Forall_map. eapply Forall_impl; [exact Hptrs|]. intros q Hq. cbn in Hq |- *.
    apply Z.geb_le. lia.
  - apply Forall_map. eapply Forall_impl; [exact Hptrs|]. intros q Hq. cbn in Hq |- *.
    apply Z.leb_le. lia.
Qed.

(** X22.  The container's own [validate()] accepts the empty container,
    and it accepts the container that a reallocating [reserve(n)]
    leaves, for column types with power-of-two alignments, a layout that
    fits [std::size_t] and a block that lies inside the address space. *)
Theorem validate_after_reserve (h : A) (v : vec) (n : size_type) h1 p bytes ptrs :
  well_formed Ts v -> Forall well_formed_type Ts ->
  capacity v < n < SIZE_MAX_plus_1 -> spec_total Ts n < SIZE_MAX_plus_1 ->
  DoAllocate Ts h n 0 = Some (h1, (p, bytes), ptrs) ->
  0 <= p -> p + bytes < SIZE_MAX_plus_1 ->
  validate (empty_vec (V:=V) Ts) = true /\
  exists v',
    reserve Ts h v n = Done tt (deallocate h1 (mpData v) (internalDataSize v)) v' /\
    validate v' = true.
Proof.
  intros Hwf Htypes Hn Hfit Halloc Hp Hend.
  pose proof Hwf as (Hs & Hc & _). unfold capacity in Hn.
  split.
  - apply validate_inside; cbn; unfold nullptr, SIZE_MAX_plus_1; try lia.
    unfold leaf_pointers. cbn. rewrite map_map. apply Forall_map, List.Forall_forall.
    intros T _. cbn. lia.
  - destruct (reserve_run Ts h v n Hwf ltac:(lia)) as (_ & _ & Hre).
    destruct (Hre ltac:(unfold capacity; lia) h1 p bytes ptrs Halloc)
      as (v' & Hrun & Hwf' & Hs' & Hc' & _ & Hp' & Hb' & Hptr').
    exists v'. split; [exact Hrun|].
    destruct (DoAllocate_pointers h n h1 p bytes ptrs Htypes ltac:(lia) Hfit Halloc Hp Hend)
      as [Hbytes Hin].
    pose proof Hwf' as (Hs2 & _).
    pose proof (spec_total_from_ge Ts n 0 Htypes ltac:(lia)) as Hge.
    unfold spec_total in Hbytes.
    apply validate_inside; rewrite ?Hp', ?Hb', ?Hptr'; auto; lia.
Qed.

(** X23.  The removals keep the class invariant: after [clear()], after
    [erase(first, last)] of a non-empty range inside the container and
    after [erase_unsorted(pos)] at a position inside it the container is
    well formed again, with its capacity, and the rows from the new size
    up to the old one are destroyed in every column. *)
Theorem removals_keep_invariant (v : vec) (first last pos : TupleVecIter.t) :
  well_formed Ts v ->
  (well_formed Ts (clear v) /\ capacity (clear v) = capacity v) /\
  (0 <= TupleVecIter.mIndex first < TupleVecIter.mIndex last ->
   TupleVecIter.mIndex last <= size v ->
   well_formed Ts (fst (erase v first last)) /\
   capacity (fst (erase v first last)) = capacity v /\
   forall k, size (fst (erase v first last)) <= k < size v ->
     at_ (fst (erase v first last)) k = map (fun _ => Raw) (leaves v)) /\
  (0 <= TupleVecIter.mIndex pos < size v ->
   well_formed Ts (fst (erase_unsorted v pos)) /\
   capacity (fst (erase_unsorted v pos)) = capacity v /\
   at_ (fst (erase_unsorted v pos)) (size v - 1) = map (fun _ => Raw) (leaves v)).
Proof.
  intros Hwf. pose proof Hwf as (Hs & Hc & Hl & Hcells). unfold size, capacity.
  assert (Hcap : forall leaf, In leaf (leaves v) ->
            mNumElements v <= Z.of_nat (length (TupleVecLeaf.cells leaf))).
  { intros leaf Hin. rewrite (well_formed_cells Ts v leaf Hwf Hin). lia. }
  split; [|split].
  - split; [|reflexivity]. unfold clear.
    apply each_leaf_well_formed; [apply well_formed_resized; auto; lia|].
    intros. apply length_destroy.
  - intros Hfl Hls.
    destruct (erase_columns Ts v first last Hwf Hfl Hls) as (E1 & E2 & E3 & _).
    split; [exact E1|]. split; [exact E3|].
    intros k Hk. rewrite E2 in Hk.
    rewrite (erase_unfold Ts v first last Hwf Hfl Hls). cbn [fst].
    rewrite at_each_leaf. apply map_ext_in. intros leaf Hin.
    destruct (erase_cells_spec (TupleVecIter.mIndex first) (TupleVecIter.mIndex last)
                (mNumElements v) (TupleVecLeaf.cells leaf)) as [_ Hrd]; try lia.
    { apply Hcap, Hin. }
    cbn zeta in Hrd. rewrite Hrd. zbool.
  - intros Hp.
    assert (Hi : wrap (TupleVecIter.mIndex pos - 0) = TupleVecIter.mIndex pos)
      by (apply wrap_index; unfold is_size_t; lia).
    assert (Hn : wrap (mNumElements v - 1) = mNumElements v - 1)
      by (apply wrap_small; unfold is_size_t; lia).
    unfold erase_unsorted. cbn [fst]. unfold TupleVecIter.diff, begin_.
    cbn [TupleVecIter.mIndex]. rewrite Hi, Hn. rewrite each_leaf_compose.
    split; [|split; [reflexivity|]].
    + unfold well_formed, each_leaf. cbn. split; [lia|]. split; [lia|].
      split; [rewrite length_map; exact Hl|].
      apply Forall_map. rewrite List.Forall_forall in Hcells. apply List.Forall_forall.
      intros leaf Hin. cbn.
      destruct (erase_unsorted_cells_spec (TupleVecIter.mIndex pos) (mNumElements v)
                  (TupleVecLeaf.cells leaf)) as [Hlen _]; try lia.
      { apply Hcap, Hin. }
      cbn zeta in Hlen. rewrite Hlen. apply Hcells, Hin.
    + rewrite at_each_leaf. apply map_ext_in. intros leaf Hin.
      destruct (erase_unsorted_cells_spec (TupleVecIter.mIndex pos) (mNumElements v)
                  (TupleVecLeaf.cells leaf)) as [_ Hrd]; try lia.
      { apply Hcap, Hin. }
      cbn zeta in Hrd. rewrite Hrd. rewrite Z.eqb_refl. reflexivity.
Qed.

End Checks.

(* ===================================================================== *)
(** ** Arguments that refer to elements of the container *)
(* ===================================================================== *)

Lemma zip_with_opt_values {X Y Y' R : Type} (f : X -> Y -> option R) (g : X -> Y' -> R) :
  forall (l : list X) (k : list Y) (k' : list Y'),
  length k' = length k ->
  (forall j x y, l !! j = Some x -> k !! j = Some y ->
     exists y', k' !! j = Some y' /\ f x y = Some (g x y')) ->
  zip_with_opt f l k = Some (zip_with g l k').
Proof.
  induction l as [|x l IH]; intros [|y k] [|y' k'] Hlen Hf; simpl in *;
    try reflexivity; try lia.
  destruct (Hf 0%nat x y eq_refl eq_refl) as (y0 & E & F). simpl in E.
  injection E as <-. rewrite F.
  rewrite (IH k k') by (try lia; intros j; exact (Hf (S j))). reflexivity.
Qed.

Lemma zip_with_opt_None {X Y R : Type} (f : X -> Y -> option R) :
  forall (l : list X) (k : list Y) j x y,
  l !! j = Some x -> k !! j = Some y -> f x y = None -> zip_with_opt f l k = None.
Proof.
  induction l as [|x0 l IH]; intros [|y0 k] [|j] x y Hl Hk Hf; simpl in *;
    try discriminate.
  - injection Hl as ->. injection Hk as ->. rewrite Hf. reflexivity.
  - destruct (f x0 y0); [|reflexivity]. rewrite (IH k j x y Hl Hk Hf). reflexivity.
Qed.

Section ReferenceProofs.
Context {V A : Type} `{Allocator A} {EV : MoveAssignable V}.
Variable Ts : list ColType.

Local Abbreviation vec := (TupleVecImpl V).

(** A live element that is read stays what it is when its value is
    written to a slot. *)
Lemma read_arg_write (a : list (slot V)) r x d :
  read_arg a r = Some x -> read_arg (write_slot d (Live x) a) r = Some x.
Proof.
  destruct r as [y|i]; simpl; [auto|].
  destruct (read_slot a i) eqn:E; try discriminate. intros [= ->].
  destruct (Z.eq_dec d i) as [->|Hne].
  - destruct (Z_lt_le_dec i 0).
    { unfold read_slot in E. destruct (Z.ltb_spec i 0); [discriminate|lia]. }
    destruct (Z_lt_le_dec i (Z.of_nat (length a))).
    + rewrite read_write_eq by lia. reflexivity.
    + rewrite read_outside in E by lia. discriminate.
  - rewrite read_write_ne by exact Hne. rewrite E. reflexivity.
Qed.

Lemma uninitialized_fill_from_arg first last r x (a : list (slot V)) :
  read_arg a r = Some x ->
  uninitialized_fill_from (fun c => read_arg c r) first last a
    = Some (uninitialized_fill first last x a).
Proof.
  unfold uninitialized_fill_from, uninitialized_fill, uninitialized_fill_n.
  generalize (Z.to_nat (last - first)) as cnt. generalize 0 as k.
  intros k cnt. revert k a.
  induction cnt as [|cnt IH]; intros k a Hrd; simpl; [reflexivity|].
  unfold copy_construct_from at 1. rewrite Hrd.
  apply IH. apply read_arg_write. exact Hrd.
Qed.

Lemma uninitialized_fill_from_stale first last r x (a : list (slot V)) :
  read_stale r = Some x ->
  uninitialized_fill_from (fun _ => read_stale r) first last a
    = Some (uninitialized_fill first last x a).
Proof.
  intros Hrd.
  unfold uninitialized_fill_from, uninitialized_fill, uninitialized_fill_n.
  rewrite Hrd.
  generalize (Z.to_nat (last - first)) as cnt. generalize 0 as k.
  intros k cnt. revert k a.
  induction cnt as [|cnt IH]; intros k a; simpl; [reflexivity|].
  unfold copy_construct_from at 1. apply IH.
Qed.

Lemma uninitialized_fill_from_dangling first last i (a : list (slot V)) :
  first < last ->
  uninitialized_fill_from (fun _ => read_stale (Own i)) first last a = None.
Proof.
  intros Hlt. unfold uninitialized_fill_from.
  destruct (Z.to_nat (last - first)) as [|cnt] eqn:E; [lia|]. reflexivity.
Qed.

(** Arguments outside the container hold their values whatever the
    container is. *)
Lemma args_in_outside (v : vec) (vals : list V) : args_in v (map Outside vals) vals.
Proof.
  split; [rewrite length_map; reflexivity|].
  intros j leaf r _ Hr. rewrite list_lookup_fmap in Hr.
  destruct (vals !! j) as [x|]; [|discriminate]. injection Hr as <-.
  exists x. split; reflexivity.
Qed.

Lemma each_leaf_ref_values (f : arg_ref V -> list (slot V) -> option (list (slot V)))
    (g : V -> list (slot V) -> list (slot V)) (args : list (arg_ref V)) (vals : list V)
    (v : vec) :
  length vals = length args ->
  (forall j leaf r, leaves v !! j = Some leaf -> args !! j = Some r ->
     exists x, vals !! j = Some x /\
       f r (TupleVecLeaf.cells leaf) = Some (g x (TupleVecLeaf.cells leaf))) ->
  each_leaf_ref f args v = Some (each_leaf_arg g vals v).
Proof.
  intros Hlen Hf. unfold each_leaf_ref, each_leaf_arg.
  rewrite (zip_with_opt_values _
             (fun leaf arg => TupleVecLeaf.with_cells leaf (g arg (TupleVecLeaf.cells leaf)))
             (leaves v) args vals Hlen); [reflexivity|].
  intros j leaf r Hj Hr. destruct (Hf j leaf r Hj Hr) as (x & Hx & E).
  exists x. split; [exact Hx|]. rewrite E. reflexivity.
Qed.

Lemma each_leaf_ref_dangling (f : arg_ref V -> list (slot V) -> option (list (slot V)))
    (args : list (arg_ref V)) (v : vec) j r :
  length (leaves v) = length args -> args !! j = Some r ->
  (forall c, f r c = None) ->
  each_leaf_ref f args v = None.
Proof.
  intros Hlen Hr Hf. unfold each_leaf_ref.
  destruct (leaves v !! j) as [leaf|] eqn:Hj.
  2:{ apply lookup_ge_None_1 in Hj. apply lookup_lt_Some in Hr. lia. }
  rewrite (zip_with_opt_None _ (leaves v) args j leaf r Hj Hr); [reflexivity|].
  rewrite Hf. reflexivity.
Qed.

Lemma zip_pairs_outside {R : Type}
    (f : TupleVecLeaf.t V * arg_ref V -> Z -> option R)
    (g : TupleVecLeaf.t V * V -> Z -> R) :
  (forall leaf x q, f (leaf, Outside x) q = Some (g (leaf, x) q)) ->
  forall (ls : list (TupleVecLeaf.t V)) (vals : list V) (ptrs : list Z),
  zip_with_opt f (zip ls (map Outside vals)) ptrs = Some (zip_with g (zip ls vals) ptrs).
Proof.
  intros Hf. induction ls as [|leaf ls IH]; intros [|x vals] [|q ptrs]; simpl;
    try reflexivity.
  rewrite Hf, IH. reflexivity.
Qed.

Lemma zip_pairs_dangling {R : Type} (f : TupleVecLeaf.t V * arg_ref V -> Z -> option R)
    (ls : list (TupleVecLeaf.t V)) (args : list (arg_ref V)) (ptrs : list Z) j r :
  length ls = length args -> length ptrs = length args -> args !! j = Some r ->
  (forall leaf q, f (leaf, r) q = None) ->
  zip_with_opt f (zip ls args) ptrs = None.
Proof.
  intros Hl Hp Hr Hf.
  destruct (ls !! j) as [leaf|] eqn:Hj.
  2:{ apply lookup_ge_None_1 in Hj. apply lookup_lt_Some in Hr. lia. }
  destruct (ptrs !! j) as [q|] eqn:Hq.
  2:{ apply lookup_ge_None_1 in Hq. apply lookup_lt_Some in Hr. lia. }
  apply (zip_with_opt_None f (zip ls args) ptrs j (leaf, r) q); auto.
  apply lookup_zip_with_Some. eauto.
Qed.

(** *** The calls on values are the calls on references that hold them *)

Lemma push_back_ref_values (h : A) (v : vec) (args : list (arg_ref V)) (vals : list V) :
  args_in v args vals ->
  ((wrap (mNumElements v + 1) >? mNumCapacity v) = true -> args = map Outside vals) ->
  push_back_ref Ts h v args = Some (push_back Ts h v vals).
Proof.
  intros [Hlen Hin] Hout. unfold push_back_ref, push_back.
  destruct (wrap (mNumElements v + 1) >? mNumCapacity v) eqn:Egrow.
  - rewrite (Hout eq_refl).
    destruct (DoGrow Ts h _ _ _ _) as [[] h2 v2|h2 v2]; [|reflexivity].
    cbn [and_then].
    rewrite (each_leaf_ref_values _ (fun arg => write_slot (mNumElements v) (Live arg))
               (map Outside vals) vals v2); [reflexivity|rewrite length_map; reflexivity|].
    intros j leaf r _ Hr. rewrite list_lookup_fmap in Hr.
    destruct (vals !! j) as [x|]; [|discriminate]. injection Hr as <-.
    exists x. split; reflexivity.
  - unfold DoGrow. rewrite Egrow. cbn [and_then].
    rewrite (each_leaf_ref_values _ (fun arg => write_slot (mNumElements v) (Live arg))
               args vals _ Hlen); [reflexivity|].
    intros j leaf r Hj Hr. destruct (Hin j leaf r Hj Hr) as (x & Hx & Hrd).
    exists x. split; [exact Hx|]. unfold copy_construct_from. rewrite Hrd. reflexivity.
Qed.

Lemma resize_ref_values (h : A) (v : vec) (n : size_type) (args : list (arg_ref V))
    (vals : list V) :
  ((n >? mNumElements v) = true -> args_in v args vals) ->
  ((n >? mNumCapacity v) = true -> args = map Outside vals) ->
  resize_ref Ts h v n args = Some (resize Ts h v n vals).
Proof.
  intros Hin Hout. unfold resize_ref, resize.
  destruct (n >? mNumElements v) eqn:Emore; [|reflexivity].
  destruct (Hin eq_refl) as [Hlen Hrd].
  destruct (n >? mNumCapacity v) eqn:Egrow.
  - rewrite (Hout eq_refl).
    destruct (DoReallocate Ts h _ _ _) as [[] h2 v2|h2 v2]; [|reflexivity].
    cbn [and_then].
    rewrite (each_leaf_ref_values _
               (fun arg => uninitialized_fill (mNumElements v) n arg)
               (map Outside vals) vals v2); [reflexivity|rewrite length_map; reflexivity|].
    intros j leaf r _ Hr. rewrite list_lookup_fmap in Hr.
    destruct (vals !! j) as [x|]; [|discriminate]. injection Hr as <-.
    exists x. split; [reflexivity|]. apply uninitialized_fill_from_stale. reflexivity.
  - cbn [and_then].
    rewrite (each_leaf_ref_values _
               (fun arg => uninitialized_fill (mNumElements v) n arg)
               args vals _ Hlen); [reflexivity|].
    intros j leaf r Hj Hr. destruct (Hrd j leaf r Hj Hr) as (x & Hx & E).
    exists x. split; [exact Hx|]. apply uninitialized_fill_from_arg. exact E.
Qed.

Lemma insert_ref_values (h : A) (v : vec) (pos : TupleVecIter.t) (n : size_type)
    (args : list (arg_ref V)) (vals : list V) :
  args_in v args vals ->
  ((wrap (mNumElements v + n) >? mNumCapacity v) = true -> args = map Outside vals) ->
  insert_ref Ts h v pos n args = Some (insert Ts h v pos n vals).
Proof.
  intros [Hlen Hrd] Hout. unfold insert_ref, insert.
  destruct (wrap (mNumElements v + n) >? mNumCapacity v) eqn:Egrow; cbn [orb].
  - rewrite (Hout eq_refl).
    destruct (DoAllocate Ts h _ 0) as [[[h1 al] ptrs]|]; [|reflexivity].
    cbn [leaves set_mNumElements].
    rewrite (zip_pairs_outside _
               (fun '((leaf, arg) : TupleVecLeaf.t V * V) (pNew : Z) =>
                  let '(leaf1, fresh1) :=
                    TupleVecLeaf.DoUninitializedMoveAndDestruct leaf 0
                      (TupleVecIter.diff pos (cbegin v))
                      (fresh_region (Z.max (GetNewCapacity (mNumCapacity v))
                                       (wrap (mNumElements v + n)))) 0 in
                  let '(_, fresh2) :=
                    TupleVecLeaf.DoUninitializedMoveAndDestruct leaf1
                      (TupleVecIter.diff pos (cbegin v)) (mNumElements v) fresh1
                      (wrap (TupleVecIter.diff pos (cbegin v) + n)) in
                  TupleVecLeaf.mk pNew
                    (uninitialized_fill (TupleVecIter.diff pos (cbegin v))
                       (wrap (TupleVecIter.diff pos (cbegin v) + n)) arg fresh2)));
      [reflexivity|].
    intros leaf x q.
    destruct (TupleVecLeaf.DoUninitializedMoveAndDestruct leaf 0 _ _ 0) as [leaf1 fresh1].
    destruct (TupleVecLeaf.DoUninitializedMoveAndDestruct leaf1 _ _ _ _) as [leaf2 fresh2].
    rewrite (uninitialized_fill_from_stale _ _ (Outside x) x) by reflexivity. reflexivity.
  - destruct (negb (TupleVecIter.diff pos (cbegin v) =? mNumElements v)).
    + cbn [leaves set_mNumElements].
      rewrite (zip_with_opt_values _
                 (fun leaf arg =>
                    TupleVecLeaf.DoInsertAndFill (TupleVecIter.diff pos (cbegin v)) n
                      (mNumElements v) arg leaf)
                 (leaves v) args vals Hlen); [reflexivity|].
      intros j leaf r Hj Hr. destruct (Hrd j leaf r Hj Hr) as (x & Hx & E).
      exists x. split; [exact Hx|]. unfold DoInsertAndFill_ref. rewrite E. reflexivity.
    + rewrite (each_leaf_ref_values _
                 (fun arg => uninitialized_fill (mNumElements v)
                               (wrap (mNumElements v + n)) arg)
                 args vals _ Hlen); [reflexivity|].
      intros j leaf r Hj Hr. destruct (Hrd j leaf r Hj Hr) as (x & Hx & E).
      exists x. split; [exact Hx|]. apply uninitialized_fill_from_arg. exact E.
Qed.

Lemma emplace_ref_outside (h : A) (v : vec) (pos : TupleVecIter.t) (vals : list V) :
  emplace_ref Ts h v pos (map Outside vals) = Some (emplace Ts h v pos vals).
Proof.
  unfold emplace_ref, emplace.
  destruct (wrap (mNumElements v + 1) >? mNumCapacity v) eqn:Egrow; cbn [orb].
  - destruct (DoAllocate Ts h _ 0) as [[[h1 al] ptrs]|]; [|reflexivity].
    cbn [leaves set_mNumElements].
    rewrite (zip_pairs_outside _
               (fun '((leaf, arg) : TupleVecLeaf.t V * V) (pNew : Z) =>
                  let '(leaf1, fresh1) :=
                    TupleVecLeaf.DoUninitializedMoveAndDestruct leaf 0
                      (TupleVecIter.diff pos (cbegin v))
                      (fresh_region (Z.max (GetNewCapacity (mNumCapacity v))
                                       (wrap (mNumElements v + 1)))) 0 in
                  let '(_, fresh2) :=
                    TupleVecLeaf.DoUninitializedMoveAndDestruct leaf1
                      (TupleVecIter.diff pos (cbegin v)) (mNumElements v) fresh1
                      (TupleVecIter.diff pos (cbegin v) + 1) in
                  TupleVecLeaf.mk pNew
                    (write_slot (TupleVecIter.diff pos (cbegin v)) (Live arg) fresh2)));
      [reflexivity|].
    intros leaf x q.
    destruct (TupleVecLeaf.DoUninitializedMoveAndDestruct leaf 0 _ _ 0) as [leaf1 fresh1].
    destruct (TupleVecLeaf.DoUninitializedMoveAndDestruct leaf1 _ _ _ _) as [leaf2 fresh2].
    reflexivity.
  - destruct (negb (TupleVecIter.diff pos (cbegin v) =? mNumElements v)).
    + cbn [leaves set_mNumElements].
      rewrite (zip_with_opt_values _
                 (fun leaf arg =>
                    TupleVecLeaf.DoInsertValue (TupleVecIter.diff pos (cbegin v))
                      (mNumElements v) arg leaf)
                 (leaves v) (map Outside vals) vals); [reflexivity|
                                                        rewrite length_map; reflexivity|].
      intros j leaf r _ Hr. rewrite list_lookup_fmap in Hr.
      destruct (vals !! j) as [x|]; [|discriminate]. injection Hr as <-.
      exists x. split; reflexivity.
    + rewrite (each_leaf_ref_values _
                 (fun arg => write_slot (mNumElements v) (Live arg))
                 (map Outside vals) vals); [reflexivity|rewrite length_map; reflexivity|].
      intros j leaf r _ Hr. rewrite list_lookup_fmap in Hr.
      destruct (vals !! j) as [x|]; [|discriminate]. injection Hr as <-.
      exists x. split; reflexivity.
Qed.

End ReferenceProofs.

(* ===================================================================== *)
(** ** The modifiers that take their arguments by reference *)
(* ===================================================================== *)

Section ReferenceModifiers.
Context {V A : Type} `{Allocator A} {EV : MoveAssignable V}.
Variable Ts : list ColType.

Local Abbreviation vec := (TupleVecImpl V).

(** X7.  [push_back(const Ts&... args)] on a well-formed container.  With
    room it reads every argument, be it an object outside the container
    or an element of the column it is pushed onto, and leaves a
    well-formed container one row longer in which every column is its old
    content followed by the value of its argument; heap, capacity and
    pointers stay.  On a full container whose block for [2 * (size + 1)]
    rows is granted, the elements are moved to the new block and the old
    block is released before the arguments are read: for arguments
    outside the container the result is the same in the new block,
    where the regions of the columns lie one after the other provided
    the layout fits [std::size_t] and the block lies in the address
    space; an argument that refers to an element of the container is
    read after that element has been destroyed, and the behaviour is
    undefined. *)
Theorem push_back_appends (h : A) (v : vec) (args : list (arg_ref V)) (vals : list V) :
  well_formed Ts v -> size v + 1 < 2 ^ 63 -> length args = length Ts ->
  (size v < capacity v -> args_in v args vals ->
   exists v',
     push_back_ref Ts h v args = Some (Done tt h v') /\
     well_formed Ts v' /\ size v' = size v + 1 /\
     (forall j x, vals !! j = Some x -> column v' j = column v j ++ [Live x]) /\
     capacity v' = capacity v /\ mpData v' = mpData v /\
     leaf_pointers v' = leaf_pointers v) /\
  (size v = capacity v ->
   forall h1 p bytes ptrs,
     DoAllocate Ts h (2 * (size v + 1)) 0 = Some (h1, (p, bytes), ptrs) ->
     (args = map Outside vals ->
      layout_fits Ts (2 * (size v + 1)) -> block_inside p bytes ->
      exists v',
        push_back_ref Ts h v args
          = Some (Done tt (deallocate h1 (mpData v) (internalDataSize v)) v') /\
        well_formed Ts v' /\ size v' = size v + 1 /\
        (forall j x, vals !! j = Some x -> column v' j = column v j ++ [Live x]) /\
        capacity v' = 2 * (size v + 1) /\ mpData v' = p /\
        leaf_pointers v' = ptrs /\
        regions_in_block Ts (leaf_pointers v') (capacity v') p (p + bytes)) /\
     (forall j i, args !! j = Some (Own i) -> push_back_ref Ts h v args = None)).
Proof.
  intros Hwf Hfit Hargs. pose proof Hwf as (Hs & Hc & Hl & Hcells).
  assert (Hreq : wrap (mNumElements v + 1) = mNumElements v + 1).
  { unfold size in Hfit. apply wrap_small. unfold is_size_t, SIZE_MAX_plus_1. lia. }
  split.
  - intros Hroom Hin. pose proof Hin as [Hlen _].
    destruct (push_back_run Ts h v vals Hwf Hfit ltac:(lia)) as [Hrun _].
    destruct (Hrun Hroom) as (v' & E & R).
    exists v'. split; [|exact R].
    rewrite (push_back_ref_values Ts h v args vals Hin), E; [reflexivity|].
    rewrite Hreq. unfold size, capacity in Hroom.
    destruct (Z.gtb_spec (mNumElements v + 1) (mNumCapacity v)); [lia|discriminate].
  - intros Hfull h1 p bytes ptrs Halloc. split.
    + intros -> Hfits Hblock. rewrite length_map in Hargs.
      destruct (push_back_run Ts h v vals Hwf Hfit Hargs) as [_ Hrun].
      destruct (Hrun Hfull h1 p bytes ptrs Halloc)
        as (v' & E & Hwf' & Hs' & Hcol' & Hc' & Hp' & Hptr').
      destruct (DoAllocate_regions Ts h _ h1 p bytes ptrs Hfits Halloc Hblock) as [_ Hreg].
      exists v'. rewrite Hptr', Hc'. split; [|auto 10].
      rewrite (push_back_ref_values Ts h v (map Outside vals) vals), E; auto.
      apply args_in_outside.
    + intros j i Hown. unfold size, capacity in *.
      assert (Hnew : GetNewCapacity (mNumElements v + 1) = 2 * (mNumElements v + 1))
        by (apply GetNewCapacity_double; unfold SIZE_MAX_plus_1; lia).
      destruct (DoReallocate_run Ts h (set_mNumElements (mNumElements v + 1) v)
                  (mNumElements v) (2 * (mNumElements v + 1)) h1 p bytes ptrs)
        as (v2 & Hrun & _ & _ & _ & _ & _ & Hl2 & _); cbn; auto; try lia.
      unfold push_back_ref, DoGrow. rewrite Hreq, Hnew.
      destruct (Z.gtb_spec (mNumElements v + 1) (mNumCapacity v)); [|lia].
      rewrite Hrun.
      rewrite (each_leaf_ref_dangling _ args v2 j (Own i)); auto; lia.
Qed.

(** X9.  [pop_back] undoes [push_back]: whenever the [push_back] has
    room, or its arguments are objects outside the container and it gets
    its block, [back()] of the result is the row of the values of the
    arguments, and the [pop_back] that follows gives back the size and
    every column. *)
Theorem push_back_pop_back (h : A) (v : vec) (args : list (arg_ref V)) (vals : list V) :
  well_formed Ts v -> size v + 1 < 2 ^ 63 -> length args = length Ts ->
  (size v < capacity v /\ args_in v args vals) \/
  (args = map Outside vals /\ layout_fits Ts (2 * (size v + 1)) /\
   exists h1 p bytes ptrs,
     DoAllocate Ts h (2 * (size v + 1)) 0 = Some (h1, (p, bytes), ptrs) /\
     block_inside p bytes) ->
  exists h' v',
    push_back_ref Ts h v args = Some (Done tt h' v') /\
    back v' = map Live vals /\
    well_formed Ts (pop_back v') /\
    size (pop_back v') = size v /\
    (forall j, column (pop_back v') j = column v j).
Proof.
  intros Hwf Hfit Hargs Hcan. pose proof Hwf as (Hs & Hc & Hl & Hcells).
  assert (Hreq : wrap (mNumElements v + 1) = mNumElements v + 1).
  { unfold size in Hfit. apply wrap_small. unfold is_size_t, SIZE_MAX_plus_1. lia. }
  assert (Hin : args_in v args vals).
  { destruct Hcan as [[_ Hin]|[-> _]]; [exact Hin|apply args_in_outside]. }
  pose proof Hin as [Hlen _].
  assert (Hval : push_back_ref Ts h v args = Some (push_back Ts h v vals)).
  { apply push_back_ref_values; [exact Hin|]. intros Hgrow.
    destruct Hcan as [[Hroom _]|[-> _]]; [|reflexivity].
    rewrite Hreq in Hgrow. unfold size, capacity in Hroom.
    destruct (Z.gtb_spec (mNumElements v + 1) (mNumCapacity v)); [lia|discriminate]. }
  destruct (push_back_pop_back_values Ts h v vals Hwf Hfit ltac:(lia))
    as (h' & v' & E & R).
  { destruct Hcan as [[Hroom _]|(_ & _ & h1 & p & bytes & ptrs & Ha & _)];
      [left; exact Hroom|right; rewrite Ha; eexists; reflexivity]. }
  exists h', v'. rewrite Hval, E. split; [reflexivity|exact R].
Qed.

(** X6.  [resize(n, const Ts&... args)] on a well-formed container.  For
    [n] up to the size it cuts and reads no argument: the rows from [n]
    on are destroyed, every column keeps its first [n] elements, and
    heap, capacity and pointers stay.  For [n] up to the capacity it
    appends [n - size] copies of the value of its argument to every
    column, in place, whether the argument is outside the container or
    an element of the column.  Beyond the capacity the elements move to
    a block for [max(GetNewCapacity(capacity), n)] rows, when that block
    is granted, and the old block is released before the arguments are
    read: for arguments outside the container the copies are appended in
    the new block, where the regions of the columns lie one after the
    other provided the layout fits [std::size_t] and the block lies in
    the address space; for an argument that refers to an element of the
    container the behaviour is undefined. *)
Theorem resize_spec (h : A) (v : vec) (n : size_type) (args : list (arg_ref V))
    (vals : list V) :
  well_formed Ts v -> 0 <= n < SIZE_MAX_plus_1 -> length args = length Ts ->
  length vals = length Ts ->
  (n <= size v ->
   exists v',
     resize_ref Ts h v n args = Some (Done tt h v') /\
     well_formed Ts v' /\ size v' = n /\ capacity v' = capacity v /\
     leaf_pointers v' = leaf_pointers v /\
     (forall j, column v' j = take (Z.to_nat n) (column v j)) /\
     (forall k, n <= k < size v -> at_ v' k = map (fun _ => Raw) (leaves v))) /\
  (size v < n <= capacity v -> args_in v args vals ->
   exists v',
     resize_ref Ts h v n args = Some (Done tt h v') /\
     well_formed Ts v' /\ size v' = n /\ capacity v' = capacity v /\
     leaf_pointers v' = leaf_pointers v /\
     (forall j x, vals !! j = Some x ->
        column v' j = column v j ++ replicate (Z.to_nat (n - size v)) (Live x))) /\
  (capacity v < n ->
   forall h1 p bytes ptrs,
     DoAllocate Ts h (Z.max (GetNewCapacity (capacity v)) n) 0 = Some (h1, (p, bytes), ptrs) ->
     (args = map Outside vals ->
      layout_fits Ts (Z.max (GetNewCapacity (capacity v)) n) -> block_inside p bytes ->
      exists v',
        resize_ref Ts h v n args
          = Some (Done tt (deallocate h1 (mpData v) (internalDataSize v)) v') /\
        well_formed Ts v' /\ size v' = n /\
        capacity v' = Z.max (GetNewCapacity (capacity v)) n /\
        leaf_pointers v' = ptrs /\
        regions_in_block Ts (leaf_pointers v') (capacity v') p (p + bytes) /\
        (forall j x, vals !! j = Some x ->
           column v' j = column v j ++ replicate (Z.to_nat (n - size v)) (Live x))) /\
     (forall j i, args !! j = Some (Own i) -> resize_ref Ts h v n args = None)).
Proof.
  intros Hwf Hn Hargs Hvals. pose proof Hwf as (Hs & Hc & Hl & Hcells).
  destruct (resize_run Ts h v n vals Hwf Hn Hvals) as (Rcut & Rin & Rre).
  split; [|split].
  - intros Hle. destruct (Rcut Hle) as (v' & E & R).
    exists v'. split; [|exact R].
    rewrite (resize_ref_values Ts h v n args vals), E; [reflexivity| |];
      intros Hgt; unfold size in Hle;
      destruct (Z.gtb_spec n (mNumElements v)); destruct (Z.gtb_spec n (mNumCapacity v));
      try lia; discriminate.
  - intros Hin Hargs_in. destruct (Rin Hin) as (v' & E & R).
    exists v'. split; [|exact R].
    rewrite (resize_ref_values Ts h v n args vals), E; [reflexivity|auto|].
    intros Hgt. unfold capacity in Hin.
    destruct (Z.gtb_spec n (mNumCapacity v)); [lia|discriminate].
  - intros Hlt h1 p bytes ptrs Halloc. split.
    + intros -> Hfits Hblock.
      destruct (Rre Hlt h1 p bytes ptrs Halloc) as (v' & E & Hwf' & Hs' & Hc' & Hptr' & Hcol').
      destruct (DoAllocate_regions Ts h _ h1 p bytes ptrs Hfits Halloc Hblock) as [_ Hreg].
      exists v'. rewrite Hptr', Hc'. split; [|auto 10].
      rewrite (resize_ref_values Ts h v n (map Outside vals) vals), E; auto.
      intros _. apply args_in_outside.
    + intros j i Hown. unfold size, capacity in *.
      set (r := Z.max (GetNewCapacity (mNumCapacity v)) n) in *.
      destruct (DoReallocate_run Ts h (set_mNumElements n v) (mNumElements v) r
                  h1 p bytes ptrs)
        as (v2 & Hrun & _ & _ & _ & _ & _ & Hl2 & _); cbn; auto; try lia.
      unfold resize_ref. fold r.
      destruct (Z.gtb_spec n (mNumElements v)); [|lia].
      destruct (Z.gtb_spec n (mNumCapacity v)); [|lia].
      rewrite Hrun.
      rewrite (each_leaf_ref_dangling _ args v2 j (Own i)); auto; [lia|].
      intros c. apply uninitialized_fill_from_dangling. lia.
Qed.

(** X10.  [insert(pos, n, const Ts&... args)] that does not fit the
    capacity, when the block for [max(GetNewCapacity(capacity), size + n)]
    rows is granted.  The elements are moved to the new block before the
    arguments are read.  For arguments outside the container it
    completes: every column is its old content with [n] copies of the
    value of its argument spliced in at [pos], the container is well
    formed with exactly that capacity, the old block is released and the
    iterator returned points at the first inserted row in the new
    storage, where the regions of the columns lie one after the other
    provided the layout fits [std::size_t] and the block lies in the
    address space.  For [n > 0] and an argument that refers to an
    element of the container the behaviour is undefined. *)
Theorem insert_reallocating (h : A) (v : vec) (pos : TupleVecIter.t) (n : size_type)
    (args : list (arg_ref V)) (vals : list V) h1 p0 bytes ptrs :
  well_formed Ts v ->
  0 <= TupleVecIter.mIndex pos <= size v ->
  0 <= n -> size v + n < SIZE_MAX_plus_1 ->
  length args = length Ts ->
  capacity v < size v + n ->
  DoAllocate Ts h (Z.max (GetNewCapacity (capacity v)) (size v + n)) 0
    = Some (h1, (p0, bytes), ptrs) ->
  (args = map Outside vals ->
   layout_fits Ts (Z.max (GetNewCapacity (capacity v)) (size v + n)) ->
   block_inside p0 bytes ->
   exists v',
     insert_ref Ts h v pos n args
       = Some (Done (TupleVecIter.mk (TupleVecIter.mIndex pos) ptrs)
                 (deallocate h1 (mpData v) (internalDataSize v)) v') /\
     well_formed Ts v' /\ size v' = size v + n /\
     capacity v' = Z.max (GetNewCapacity (capacity v)) (size v + n) /\
     mpData v' = p0 /\ internalDataSize v' = bytes /\ leaf_pointers v' = ptrs /\
     regions_in_block Ts (leaf_pointers v') (capacity v') p0 (p0 + bytes) /\
     (forall j x, vals !! j = Some x ->
        column v' j = take (Z.to_nat (TupleVecIter.mIndex pos)) (column v j)
                        ++ replicate (Z.to_nat n) (Live x)
                        ++ drop (Z.to_nat (TupleVecIter.mIndex pos)) (column v j))) /\
  (0 < n -> forall j i, args !! j = Some (Own i) -> insert_ref Ts h v pos n args = None).
Proof.
  intros Hwf Hp Hn Hsn Hargs Hfull Halloc. pose proof Hwf as (Hs & Hc & Hl & Hcells).
  split.
  - intros -> Hfits Hblock. rewrite length_map in Hargs.
    destruct (insert_run Ts h v pos n vals Hwf Hp Hn Hsn Hargs) as [_ Hre].
    destruct (Hre Hfull h1 p0 bytes ptrs Halloc)
      as (v' & Hrun & Hwf' & Hs' & Hc' & Hp' & Hb' & Hptr' & Hcol').
    destruct (DoAllocate_regions Ts h _ h1 p0 bytes ptrs Hfits Halloc Hblock) as [_ Hreg].
    exists v'. rewrite Hptr' in Hrun |- *. rewrite Hc'. split; [|auto 10].
    rewrite (insert_ref_values Ts h v pos n (map Outside vals) vals), Hrun; auto.
    apply args_in_outside.
  - intros Hpos j i Hown. unfold size, capacity in *.
    set (p := TupleVecIter.mIndex pos) in *.
    assert (Hpw : wrap (p - 0) = p) by (apply wrap_index; unfold is_size_t; lia).
    assert (Hnew : wrap (mNumElements v + n) = mNumElements v + n)
      by (apply wrap_small; unfold is_size_t; lia).
    assert (Hlast : wrap (p + n) = p + n) by (apply wrap_small; unfold is_size_t; lia).
    pose proof (DoAllocate_length Ts h _ _ _ _ _ Halloc) as Hlen.
    unfold insert_ref. unfold TupleVecIter.diff, cbegin. cbn [TupleVecIter.mIndex].
    fold p. rewrite Hpw, Hnew, Hlast.
    destruct (Z.gtb_spec (mNumElements v + n) (mNumCapacity v)); [|lia]. cbn [orb].
    rewrite Halloc. cbn [leaves set_mNumElements].
    rewrite (zip_pairs_dangling _ (leaves v) args ptrs j (Own i)); auto; try lia.
    intros leaf q.
    destruct (TupleVecLeaf.DoUninitializedMoveAndDestruct leaf 0 _ _ 0) as [leaf1 fresh1].
    destruct (TupleVecLeaf.DoUninitializedMoveAndDestruct leaf1 _ _ _ _) as [leaf2 fresh2].
    rewrite uninitialized_fill_from_dangling by lia. reflexivity.
Qed.

(** X11.  [erase] undoes [insert]: whenever [insert(pos, n, args...)] has
    room, or its arguments are objects outside the container and it gets
    its block, erasing the [n] rows from the iterator it returns gives
    back the size and every column. *)
Theorem insert_then_erase (h : A) (v : vec) (pos : TupleVecIter.t) (n : size_type)
    (args : list (arg_ref V)) (vals : list V) :
  well_formed Ts v ->
  0 <= TupleVecIter.mIndex pos <= size v ->
  0 < n -> size v + n < SIZE_MAX_plus_1 ->
  length args = length Ts ->
  (size v + n <= capacity v /\ args_in v args vals) \/
  (args = map Outside vals /\
   layout_fits Ts (Z.max (GetNewCapacity (capacity v)) (size v + n)) /\
   exists h1 p bytes ptrs,
     DoAllocate Ts h (Z.max (GetNewCapacity (capacity v)) (size v + n)) 0
       = Some (h1, (p, bytes), ptrs) /\
     block_inside p bytes) ->
  exists it h' v',
    insert_ref Ts h v pos n args = Some (Done it h' v') /\
    TupleVecIter.mIndex it = TupleVecIter.mIndex pos /\
    size (fst (erase v' it (TupleVecIter.plus it n))) = size v /\
    (forall j, column (fst (erase v' it (TupleVecIter.plus it n))) j = column v j).
Proof.
  intros Hwf Hp Hn Hsn Hargs Hcan. pose proof Hwf as (Hs & Hc & Hl & Hcells).
  assert (Hnew : wrap (mNumElements v + n) = mNumElements v + n)
    by (unfold size in *; apply wrap_small; unfold is_size_t; lia).
  assert (Hin : args_in v args vals).
  { destruct Hcan as [[_ Hin]|[-> _]]; [exact Hin|apply args_in_outside]. }
  pose proof Hin as [Hlen _].
  assert (Hval : insert_ref Ts h v pos n args = Some (insert Ts h v pos n vals)).
  { apply insert_ref_values; [exact Hin|]. intros Hgrow.
    destruct Hcan as [[Hroom _]|[-> _]]; [|reflexivity].
    rewrite Hnew in Hgrow. unfold size, capacity in Hroom.
    destruct (Z.gtb_spec (mNumElements v + n) (mNumCapacity v)); [lia|discriminate]. }
  destruct (insert_then_erase_values Ts h v pos n vals Hwf Hp Hn Hsn ltac:(lia))
    as (it & h' & v' & E & R).
  { destruct Hcan as [[Hroom _]|(_ & _ & h1 & p & bytes & ptrs & Ha & _)];
      [left; exact Hroom|right; rewrite Ha; eexists; reflexivity]. }
  exists it, h', v'. rewrite Hval, E. split; [reflexivity|exact R].
Qed.

(** X12.  For arguments that are objects outside the container,
    [emplace(pos, args...)], which moves from them, leaves what
    [insert(pos, 1, args...)], which copies them, leaves: the same
    outcome, heap and container, in all three branches, although the
    in-place branch runs [DoInsertValue] where [insert] runs
    [DoInsertAndFill]. *)
Theorem emplace_is_insert_one (h : A) (v : vec) (pos : TupleVecIter.t) (vals : list V) :
  0 <= TupleVecIter.mIndex pos <= size v -> size v + 1 < SIZE_MAX_plus_1 ->
  emplace_ref Ts h v pos (map Outside vals) = insert_ref Ts h v pos 1 (map Outside vals) /\
  insert_ref Ts h v pos 1 (map Outside vals) = Some (insert Ts h v pos 1 vals).
Proof.
  intros Hp Hs. split.
  - rewrite emplace_ref_outside.
    rewrite (insert_ref_values Ts h v pos 1 (map Outside vals) vals);
      [|apply args_in_outside|reflexivity].
    f_equal. apply emplace_insert_values; assumption.
  - apply insert_ref_values; [apply args_in_outside|reflexivity].
Qed.


End ReferenceModifiers.

(* ===================================================================== *)
(** ** The modifiers on concrete containers *)
(* ===================================================================== *)

Lemma Bump_never_refuses (h : Bump) (bytes : Z) : is_Some (allocate h bytes).
Proof. eexists. reflexivity. Defined.

Lemma int_column_well_formed : Forall well_formed_type [int_t].
Proof.
  repeat constructor; try (exists 2; simpl; lia); simpl; lia.
Defined.

(** [resize(4, v.get<0>()[1], 8)] on [two_columns], which has room for
    one more row, and [resize(5, v.get<0>()[0])] on the full
    [one_column]. *)
Lemma resize_spec_witness :
  well_formed [int_t; int_t] two_columns /\
  args_in two_columns [Own 1; Outside 8] [20; 8] /\
  (exists v',
     resize_ref [int_t; int_t] two_columns_heap two_columns 4 [Own 1; Outside 8]
       = Some (Done tt two_columns_heap v') /\
     column v' 0 = [Live 10; Live 20; Live 30; Live 20] /\
     column v' 1 = [Live 1; Live 2; Live 3; Live 8]) /\
  well_formed [int_t] one_column /\
  resize_ref [int_t] one_column_heap one_column 5 [Own 0] = None.
Proof.
  assert (Hin : args_in two_columns [Own 1; Outside 8] [20; 8]).
  { split; [reflexivity|].
    intros [|[|j]] leaf r Hj Hr; simpl in Hj, Hr; try discriminate;
      injection Hj as <-; injection Hr as <-; eexists; split; reflexivity. }
  assert (Hn4 : 0 <= 4 < SIZE_MAX_plus_1) by (unfold SIZE_MAX_plus_1; lia).
  assert (Hn5 : 0 <= 5 < SIZE_MAX_plus_1) by (unfold SIZE_MAX_plus_1; lia).
  assert (Hroom : size two_columns < 4 <= capacity two_columns) by (simpl; lia).
  assert (Hfull : capacity one_column < 5) by (simpl; lia).
  assert (Ha : DoAllocate [int_t] one_column_heap
                 (Z.max (GetNewCapacity (capacity one_column)) 5) 0
               = Some (mkBump 4132 [(4108, 24); (4096, 12)], (4108, 24), [4108]))
    by (vm_compute; reflexivity).
  split; [exact two_columns_well_formed|]. split; [exact Hin|].
  destruct (resize_spec [int_t; int_t] two_columns_heap two_columns 4 [Own 1; Outside 8]
              [20; 8] two_columns_well_formed Hn4 eq_refl eq_refl) as (_ & Hplace & _).
  destruct (Hplace Hroom Hin) as (v' & E & _ & _ & _ & _ & Hcol).
  split.
  { exists v'. split; [exact E|].
    split; [exact (Hcol 0%nat 20 eq_refl)|exact (Hcol 1%nat 8 eq_refl)]. }
  split; [exact one_column_well_formed|].
  destruct (resize_spec [int_t] one_column_heap one_column 5 [Own 0] [10]
              one_column_well_formed Hn5 eq_refl eq_refl) as (_ & _ & Hre).
  destruct (Hre Hfull (mkBump 4132 [(4108, 24); (4096, 12)]) 4108 24 [4108] Ha)
    as (_ & Hdangling).
  exact (Hdangling 0%nat 0 eq_refl).
Defined.

(** [push_back(v.get<0>()[0], 4)] on [two_columns], which has room, and
    [push_back(v.get<0>()[0])] on the full [one_column]. *)
Lemma push_back_appends_witness :
  well_formed [int_t; int_t] two_columns /\
  args_in two_columns [Own 0; Outside 4] [10; 4] /\
  (exists v',
     push_back_ref [int_t; int_t] two_columns_heap two_columns [Own 0; Outside 4]
       = Some (Done tt two_columns_heap v') /\
     column v' 0 = [Live 10; Live 20; Live 30; Live 10] /\
     column v' 1 = [Live 1; Live 2; Live 3; Live 4]) /\
  well_formed [int_t] one_column /\
  push_back_ref [int_t] one_column_heap one_column [Own 0] = None.
Proof.
  assert (Hin : args_in two_columns [Own 0; Outside 4] [10; 4]).
  { split; [reflexivity|].
    intros [|[|j]] leaf r Hj Hr; simpl in Hj, Hr; try discriminate;
      injection Hj as <-; injection Hr as <-; eexists; split; reflexivity. }
  assert (Hs2 : size two_columns + 1 < 2 ^ 63) by (simpl; lia).
  assert (Hs1 : size one_column + 1 < 2 ^ 63) by (simpl; lia).
  assert (Hroom : size two_columns < capacity two_columns) by (simpl; lia).
  assert (Ha : DoAllocate [int_t] one_column_heap (2 * (size one_column + 1)) 0
               = Some (mkBump 4140 [(4108, 32); (4096, 12)], (4108, 32), [4108]))
    by (vm_compute; reflexivity).
  split; [exact two_columns_well_formed|]. split; [exact Hin|].
  destruct (push_back_appends [int_t; int_t] two_columns_heap two_columns
              [Own 0; Outside 4] [10; 4] two_columns_well_formed Hs2 eq_refl)
    as (Hplace & _).
  destruct (Hplace Hroom Hin) as (v' & E & _ & _ & Hcol & _).
  split.
  { exists v'. split; [exact E|].
    split; [exact (Hcol 0%nat 10 eq_refl)|exact (Hcol 1%nat 4 eq_refl)]. }
  split; [exact one_column_well_formed|].
  destruct (push_back_appends [int_t] one_column_heap one_column [Own 0] [10]
              one_column_well_formed Hs1 eq_refl) as (_ & Hre).
  destruct (Hre eq_refl (mkBump 4140 [(4108, 32); (4096, 12)]) 4108 32 [4108] Ha)
    as (_ & Hdangling).
  exact (Hdangling 0%nat 0 eq_refl).
Defined.

(** [pop_back()] on [two_columns]. *)
Lemma pop_back_removes_last_witness :
  well_formed [int_t; int_t] two_columns /\
  size (pop_back two_columns) = 2 /\
  column (pop_back two_columns) 0 = [Live 10; Live 20] /\
  at_ (pop_back two_columns) 2 = [Raw; Raw].
Proof.
  split; [exact two_columns_well_formed|].
  destruct (pop_back_removes_last [int_t; int_t] two_columns two_columns_well_formed
              ltac:(simpl; lia)) as (_ & Hs & Hcol & Hat & _).
  split; [exact Hs|]. split; [exact (Hcol 0%nat)|exact Hat].
Defined.

(** [push_back(40)] on the full [one_column], which moves to a block for
    eight rows, and [pop_back()] after it. *)
Lemma push_back_pop_back_witness :
  well_formed [int_t] one_column /\
  layout_fits [int_t] (2 * (size one_column + 1)) /\
  DoAllocate [int_t] one_column_heap (2 * (size one_column + 1)) 0
    = Some (mkBump 4140 [(4108, 32); (4096, 12)], (4108, 32), [4108]) /\
  block_inside 4108 32 /\
  exists h' v',
    push_back_ref [int_t] one_column_heap one_column [Outside 40] = Some (Done tt h' v') /\
    back v' = [Live 40] /\
    column (pop_back v') 0 = [Live 10; Live 20; Live 30].
Proof.
  assert (Hfits : layout_fits [int_t] (2 * (size one_column + 1))).
  { split; [exact int_column_well_formed|].
    split; [vm_compute; discriminate|vm_compute; reflexivity]. }
  assert (Ha : DoAllocate [int_t] one_column_heap (2 * (size one_column + 1)) 0
               = Some (mkBump 4140 [(4108, 32); (4096, 12)], (4108, 32), [4108]))
    by (vm_compute; reflexivity).
  assert (Hblock : block_inside 4108 32) by (unfold block_inside, SIZE_MAX_plus_1; lia).
  assert (Hs1 : size one_column + 1 < 2 ^ 63) by (simpl; lia).
  split; [exact one_column_well_formed|]. split; [exact Hfits|]. split; [exact Ha|].
  split; [exact Hblock|].
  destruct (push_back_pop_back [int_t] one_column_heap one_column [Outside 40] [40]
              one_column_well_formed Hs1 eq_refl
              (or_intror (conj eq_refl (conj Hfits
                 (ex_intro _ _ (ex_intro _ _ (ex_intro _ _ (ex_intro _ _
                    (conj Ha Hblock)))))))))
    as (h' & v' & E & Hb & _ & _ & Hcol).
  exists h', v'. split; [exact E|]. split; [exact Hb|exact (Hcol 0%nat)].
Defined.

(** [insert(begin() + 1, 2, 7)] on the full [one_column]: the rows move
    to a block for six rows at 4108; and [insert(begin() + 1, 2,
    v.get<0>()[0])] on it. *)
Lemma insert_reallocating_witness :
  well_formed [int_t] one_column /\
  DoAllocate [int_t] one_column_heap
    (Z.max (GetNewCapacity (capacity one_column)) (size one_column + 2)) 0
    = Some (mkBump 4132 [(4108, 24); (4096, 12)], (4108, 24), [4108]) /\
  layout_fits [int_t] (Z.max (GetNewCapacity (capacity one_column)) (size one_column + 2)) /\
  block_inside 4108 24 /\
  (exists v',
     insert_ref [int_t] one_column_heap one_column (one_column_at 1) 2 [Outside 7]
       = Some (Done (TupleVecIter.mk 1 [4108]) (mkBump 4132 [(4108, 24)]) v') /\
     capacity v' = 6 /\
     column v' 0 = [Live 10; Live 7; Live 7; Live 20; Live 30]) /\
  insert_ref [int_t] one_column_heap one_column (one_column_at 1) 2 [Own 0] = None.
Proof.
  assert (Ha : DoAllocate [int_t] one_column_heap
                 (Z.max (GetNewCapacity (capacity one_column)) (size one_column + 2)) 0
               = Some (mkBump 4132 [(4108, 24); (4096, 12)], (4108, 24), [4108]))
    by (vm_compute; reflexivity).
  assert (Hfits : layout_fits [int_t]
                    (Z.max (GetNewCapacity (capacity one_column)) (size one_column + 2))).
  { split; [exact int_column_well_formed|].
    split; [vm_compute; discriminate|vm_compute; reflexivity]. }
  assert (Hblock : block_inside 4108 24) by (unfold block_inside, SIZE_MAX_plus_1; lia).
  assert (Hp : 0 <= TupleVecIter.mIndex (one_column_at 1) <= size one_column)
    by (simpl; lia).
  assert (Hs : size one_column + 2 < SIZE_MAX_plus_1)
    by (unfold SIZE_MAX_plus_1; simpl; lia).
  assert (Hf : capacity one_column < size one_column + 2) by (simpl; lia).
  assert (Hn : 0 <= 2) by lia.
  assert (Hpos : 0 < 2) by lia.
  split; [exact one_column_well_formed|]. split; [exact Ha|]. split; [exact Hfits|].
  split; [exact Hblock|].
  destruct (insert_reallocating [int_t] one_column_heap one_column (one_column_at 1) 2
              [Outside 7] [7] (mkBump 4132 [(4108, 24); (4096, 12)]) 4108 24 [4108]
              one_column_well_formed Hp Hn Hs eq_refl Hf Ha) as (Hrun & _).
  destruct (Hrun eq_refl Hfits Hblock) as (v' & E & _ & _ & Hc & _ & _ & _ & _ & Hcol).
  split.
  { exists v'. split; [exact E|]. split; [exact Hc|exact (Hcol 0%nat 7 eq_refl)]. }
  destruct (insert_reallocating [int_t] one_column_heap one_column (one_column_at 1) 2
              [Own 0] [10] (mkBump 4132 [(4108, 24); (4096, 12)]) 4108 24 [4108]
              one_column_well_formed Hp Hn Hs eq_refl Hf Ha) as (_ & Hdangling).
  exact (Hdangling Hpos 0%nat 0 eq_refl).
Defined.

(** The same insertion, undone by [erase]. *)
Lemma insert_then_erase_witness :
  well_formed [int_t] one_column /\
  layout_fits [int_t] (Z.max (GetNewCapacity (capacity one_column)) (size one_column + 2)) /\
  DoAllocate [int_t] one_column_heap
    (Z.max (GetNewCapacity (capacity one_column)) (size one_column + 2)) 0
    = Some (mkBump 4132 [(4108, 24); (4096, 12)], (4108, 24), [4108]) /\
  block_inside 4108 24 /\
  exists it h' v',
    insert_ref [int_t] one_column_heap one_column (one_column_at 1) 2 [Outside 7]
      = Some (Done it h' v') /\
    column (fst (erase v' it (TupleVecIter.plus it 2))) 0 = [Live 10; Live 20; Live 30].
Proof.
  assert (Ha : DoAllocate [int_t] one_column_heap
                 (Z.max (GetNewCapacity (capacity one_column)) (size one_column + 2)) 0
               = Some (mkBump 4132 [(4108, 24); (4096, 12)], (4108, 24), [4108]))
    by (vm_compute; reflexivity).
  assert (Hfits : layout_fits [int_t]
                    (Z.max (GetNewCapacity (capacity one_column)) (size one_column + 2))).
  { split; [exact int_column_well_formed|].
    split; [vm_compute; discriminate|vm_compute; reflexivity]. }
  assert (Hblock : block_inside 4108 24) by (unfold block_inside, SIZE_MAX_plus_1; lia).
  assert (Hp : 0 <= TupleVecIter.mIndex (one_column_at 1) <= size one_column)
    by (simpl; lia).
  assert (Hs : size one_column + 2 < SIZE_MAX_plus_1)
    by (unfold SIZE_MAX_plus_1; simpl; lia).
  assert (Hpos : 0 < 2) by lia.
  split; [exact one_column_well_formed|]. split; [exact Hfits|]. split; [exact Ha|].
  split; [exact Hblock|].
  destruct (insert_then_erase [int_t] one_column_heap one_column (one_column_at 1) 2
              [Outside 7] [7] one_column_well_formed Hp Hpos Hs eq_refl
              (or_intror (conj eq_refl (conj Hfits
                 (ex_intro _ _ (ex_intro _ _ (ex_intro _ _ (ex_intro _ _
                    (conj Ha Hblock)))))))))
    as (it & h' & v' & E & _ & _ & Hcol).
  exists it, h', v'. split; [exact E|exact (Hcol 0%nat)].
Defined.

(** [emplace(begin() + 1, 7, 8)] on [two_columns]. *)
Lemma emplace_is_insert_one_witness :
  0 <= TupleVecIter.mIndex (two_columns_at 1) <= size two_columns /\
  emplace_ref [int_t; int_t] two_columns_heap two_columns (two_columns_at 1)
    [Outside 7; Outside 8]
    = insert_ref [int_t; int_t] two_columns_heap two_columns (two_columns_at 1) 1
        [Outside 7; Outside 8].
Proof.
  assert (Hp : 0 <= TupleVecIter.mIndex (two_columns_at 1) <= size two_columns)
    by (simpl; lia).
  assert (Hs : size two_columns + 1 < SIZE_MAX_plus_1)
    by (unfold SIZE_MAX_plus_1; simpl; lia).
  split; [exact Hp|].
  exact (proj1 (emplace_is_insert_one [int_t; int_t] two_columns_heap two_columns
                  (two_columns_at 1) [7; 8] Hp Hs)).
Defined.

(** [erase(begin(), end())] on [two_columns]. *)
Lemma erase_all_is_clear_witness :
  well_formed [int_t; int_t] two_columns /\
  erase two_columns (begin_ two_columns) (end_ two_columns)
    = (clear two_columns, begin_ (clear two_columns)).
Proof.
  split; [exact two_columns_well_formed|].
  exact (erase_all_is_clear [int_t; int_t] two_columns two_columns_well_formed).
Defined.

(** [erase(begin() + 1)] on [two_columns]. *)
Lemma erase_at_spec_witness :
  well_formed [int_t; int_t] two_columns /\
  size (fst (erase_at two_columns (two_columns_at 1))) = 2 /\
  column (fst (erase_at two_columns (two_columns_at 1))) 0 = [Live 10; Live 30] /\
  column (fst (erase_at two_columns (two_columns_at 1))) 1 = [Live 1; Live 3].
Proof.
  split; [exact two_columns_well_formed|].
  destruct (erase_at_spec [int_t; int_t] two_columns (two_columns_at 1)
              two_columns_well_formed ltac:(simpl; lia)) as (_ & Hs & _ & _ & Hcol & _).
  split; [exact Hs|]. split; [exact (Hcol 0%nat)|exact (Hcol 1%nat)].
Defined.

(** A container of two rows (5, 6) built on an empty heap. *)
Lemma construct_fill_spec_witness :
  DoAllocate [int_t; int_t] (mkBump 4096 []) 2 0
    = Some (mkBump 4112 [(4096, 16)], (4096, 16), [4096; 4104]) /\
  layout_fits [int_t; int_t] 2 /\ block_inside 4096 16 /\
  exists v',
    construct_fill [int_t; int_t] (mkBump 4096 []) 2 [5; 6]
      = Done tt (mkBump 4112 [(4096, 16)]) v' /\
    capacity v' = 2 /\
    regions_in_block [int_t; int_t] (leaf_pointers v') (capacity v') 4096 (4096 + 16) /\
    column v' 0 = [Live 5; Live 5] /\ column v' 1 = [Live 6; Live 6].
Proof.
  assert (Ha : DoAllocate [int_t; int_t] (mkBump 4096 []) 2 0
               = Some (mkBump 4112 [(4096, 16)], (4096, 16), [4096; 4104]))
    by (vm_compute; reflexivity).
  assert (Hfits : layout_fits [int_t; int_t] 2).
  { split; [exact int_columns_well_formed|].
    split; [vm_compute; discriminate|vm_compute; reflexivity]. }
  assert (Hblock : block_inside 4096 16) by (unfold block_inside, SIZE_MAX_plus_1; lia).
  assert (Hn : 0 <= 2 < SIZE_MAX_plus_1) by (unfold SIZE_MAX_plus_1; lia).
  assert (Hpos : 0 < 2) by lia.
  split; [exact Ha|]. split; [exact Hfits|]. split; [exact Hblock|].
  destruct (construct_fill_spec [int_t; int_t] (mkBump 4096 []) 2 [5; 6] Hn eq_refl)
    as (_ & _ & Hrun).
  destruct (Hrun Hpos (mkBump 4112 [(4096, 16)]) 4096 16 [4096; 4104] Ha Hfits Hblock)
    as (v' & E & _ & _ & Hc & _ & _ & _ & Hreg & Hcol).
  exists v'. split; [exact E|]. split; [exact Hc|]. split; [exact Hreg|].
  split; [exact (Hcol 0%nat 5 eq_refl)|exact (Hcol 1%nat 6 eq_refl)].
Defined.

(** [assign(2, 5, 6)] on [two_columns], in place, and [assign(8, 5, 6)]
    on it, into a block for eight rows. *)
Lemma assign_spec_witness :
  well_formed [int_t; int_t] two_columns /\
  (exists v',
     assign [int_t; int_t] two_columns_heap two_columns 2 [5; 6]
       = Done tt two_columns_heap v' /\
     size v' = 2 /\ capacity v' = 4 /\
     column v' 0 = [Live 5; Live 5] /\ column v' 1 = [Live 6; Live 6]) /\
  DoAllocate [int_t; int_t] two_columns_heap 8 0
    = Some (mkBump 4192 [(4128, 64); (4096, 32)], (4128, 64), [4128; 4160]) /\
  layout_fits [int_t; int_t] 8 /\ block_inside 4128 64 /\
  exists v',
    assign [int_t; int_t] two_columns_heap two_columns 8 [5; 6]
      = Done tt (mkBump 4192 [(4128, 64)]) v' /\
    size v' = 8 /\ capacity v' = 8 /\
    regions_in_block [int_t; int_t] (leaf_pointers v') (capacity v') 4128 (4128 + 64) /\
    column v' 0 = replicate 8 (Live 5).
Proof.
  assert (Ha : DoAllocate [int_t; int_t] two_columns_heap 8 0
               = Some (mkBump 4192 [(4128, 64); (4096, 32)], (4128, 64), [4128; 4160]))
    by (vm_compute; reflexivity).
  assert (Hfits : layout_fits [int_t; int_t] 8).
  { split; [exact int_columns_well_formed|].
    split; [vm_compute; discriminate|vm_compute; reflexivity]. }
  assert (Hblock : block_inside 4128 64) by (unfold block_inside, SIZE_MAX_plus_1; lia).
  assert (Hn2 : 0 <= 2 < SIZE_MAX_plus_1) by (unfold SIZE_MAX_plus_1; lia).
  assert (Hn8 : 0 <= 8 < SIZE_MAX_plus_1) by (unfold SIZE_MAX_plus_1; lia).
  assert (Hle : 2 <= capacity two_columns) by (simpl; lia).
  assert (Hgt : capacity two_columns < 8) by (simpl; lia).
  split; [exact two_columns_well_formed|].
  destruct (assign_spec [int_t; int_t] two_columns_heap two_columns 2 [5; 6]
              two_columns_well_formed Hn2 eq_refl) as (Hin & _).
  destruct (Hin Hle) as (v' & E & _ & Hs & Hc & _ & _ & Hcol).
  split.
  { exists v'. split; [exact E|]. split; [exact Hs|]. split; [exact Hc|].
    split; [exact (Hcol 0%nat 5 eq_refl)|exact (Hcol 1%nat 6 eq_refl)]. }
  split; [exact Ha|]. split; [exact Hfits|]. split; [exact Hblock|].
  destruct (assign_spec [int_t; int_t] two_columns_heap two_columns 8 [5; 6]
              two_columns_well_formed Hn8 eq_refl) as (_ & _ & Hre).
  destruct (Hre Hgt (mkBump 4192 [(4128, 64); (4096, 32)]) 4128 64 [4128; 4160]
              Ha Hfits Hblock) as (v8 & E8 & _ & Hs8 & Hc8 & _ & _ & Hreg & Hcol8).
  exists v8. split; [exact E8|]. split; [exact Hs8|]. split; [exact Hc8|].
  split; [exact Hreg|exact (Hcol8 0%nat 5 eq_refl)].
Defined.

(** The copy of [two_columns]: a block for three rows, not four. *)
Lemma copy_construct_spec_witness :
  well_formed [int_t; int_t] two_columns /\
  DoAllocate [int_t; int_t] two_columns_heap (size two_columns) 0
    = Some (mkBump 4152 [(4128, 24); (4096, 32)], (4128, 24), [4128; 4140]) /\
  exists v',
    copy_construct [int_t; int_t] two_columns_heap two_columns
      = Done tt (mkBump 4152 [(4128, 24); (4096, 32)]) v' /\
    capacity v' = 3 /\
    column v' 0 = [Live 10; Live 20; Live 30] /\ column v' 1 = [Live 1; Live 2; Live 3].
Proof.
  split; [exact two_columns_well_formed|]. split; [vm_compute; reflexivity|].
  destruct (copy_construct_spec [int_t; int_t] two_columns_heap two_columns
              two_columns_well_formed) as (_ & _ & Hrun).
  destruct (Hrun ltac:(simpl; lia) (mkBump 4152 [(4128, 24); (4096, 32)]) 4128 24
              [4128; 4140] ltac:(vm_compute; reflexivity)) as (v' & E & _ & _ & Hc & _ & _ & _ & Hcol).
  exists v'. split; [exact E|]. split; [exact Hc|].
  split; [exact (Hcol 0%nat)|exact (Hcol 1%nat)].
Defined.

(** The rows (1, 2), (3, 4), (5, 6) pushed onto the empty container. *)
Lemma push_back_all_columns_witness :
  Forall (fun row : list Z => length row = length [int_t; int_t]) [[1; 2]; [3; 4]; [5; 6]] /\
  exists h' v',
    push_back_all [int_t; int_t] (mkBump 4096 []) (empty_vec [int_t; int_t])
      [[1; 2]; [3; 4]; [5; 6]] = Done tt h' v' /\
    column v' 0 = [Live 1; Live 3; Live 5] /\
    column v' 1 = [Live 2; Live 4; Live 6] /\
    at_ v' 1 = [Live 3; Live 4].
Proof.
  assert (Hrows : Forall (fun row : list Z => length row = length [int_t; int_t])
                    [[1; 2]; [3; 4]; [5; 6]]) by (repeat constructor).
  split; [exact Hrows|].
  destruct (push_back_all_columns [int_t; int_t] Bump_never_refuses (mkBump 4096 [])
              [[1; 2]; [3; 4]; [5; 6]] Hrows ltac:(simpl; lia))
    as (h' & v' & E & _ & _ & Hcol & Hat).
  exists h', v'. split; [exact E|].
  split; [exact (Hcol 0%nat ltac:(simpl; lia))|].
  split; [exact (Hcol 1%nat ltac:(simpl; lia))|].
  exact (Hat 1%nat [3; 4] eq_refl).
Defined.

(** [shrink_to_fit()] on [two_columns], three rows in a block for
    four. *)
Lemma shrink_to_fit_spec_witness :
  well_formed [int_t; int_t] two_columns /\
  DoAllocate [int_t; int_t] two_columns_heap (size two_columns) 0
    = Some (mkBump 4152 [(4128, 24); (4096, 32)], (4128, 24), [4128; 4140]) /\
  exists v',
    shrink_to_fit [int_t; int_t] two_columns_heap two_columns
      = Done tt (mkBump 4152 [(4128, 24)]) v' /\
    capacity v' = 3 /\
    column v' 0 = [Live 10; Live 20; Live 30] /\ column v' 1 = [Live 1; Live 2; Live 3].
Proof.
  split; [exact two_columns_well_formed|]. split; [vm_compute; reflexivity|].
  destruct (shrink_to_fit_spec [int_t; int_t] two_columns_heap two_columns
              two_columns_well_formed) as (_ & _ & Hrun).
  destruct (Hrun ltac:(simpl; lia) (mkBump 4152 [(4128, 24); (4096, 32)]) 4128 24
              [4128; 4140] ltac:(vm_compute; reflexivity)) as (v' & E & _ & _ & Hc & Hcol & _).
  exists v'. split; [exact E|]. split; [exact Hc|].
  split; [exact (Hcol 0%nat)|exact (Hcol 1%nat)].
Defined.

(** An iterator of [three_columns] whose third pointer is stale passes
    for a dereferenceable one; with a stale second pointer it does
    not. *)
Lemma validate_iterator_spec_witness :
  take 2 [4096; 4104; 9999] = take 2 (leaf_pointers three_columns) /\
  validate_iterator three_columns (TupleVecIter.mk 1 [4096; 4104; 9999])
    = Z.lor (Z.lor isf_valid isf_current) isf_can_dereference /\
  validate_iterator three_columns (TupleVecIter.mk 1 [4096; 9999; 4112]) = isf_none.
Proof.
  split; [reflexivity|].
  destruct (validate_iterator_spec three_columns (TupleVecIter.mk 1 [4096; 4104; 9999])
              (begin_ three_columns) (end_ three_columns) eq_refl eq_refl)
    as (Hsame & _).
  split; [exact (Hsame eq_refl)|].
  destruct (validate_iterator_spec three_columns (TupleVecIter.mk 1 [4096; 9999; 4112])
              (begin_ three_columns) (end_ three_columns) eq_refl eq_refl)
    as (_ & Hdiff & _).
  apply Hdiff. discriminate.
Defined.

(** [reserve(8)] on [two_columns]. *)
Lemma reserve_spec_witness :
  well_formed [int_t; int_t] two_columns /\
  DoAllocate [int_t; int_t] two_columns_heap 8 0
    = Some (mkBump 4192 [(4128, 64); (4096, 32)], (4128, 64), [4128; 4160]) /\
  layout_fits [int_t; int_t] 8 /\ block_inside 4128 64 /\
  exists v',
    reserve [int_t; int_t] two_columns_heap two_columns 8
      = Done tt (mkBump 4192 [(4128, 64)]) v' /\
    size v' = 3 /\ capacity v' = 8 /\
    regions_in_block [int_t; int_t] (leaf_pointers v') (capacity v') 4128 (4128 + 64) /\
    column v' 0 = [Live 10; Live 20; Live 30] /\ column v' 1 = [Live 1; Live 2; Live 3].
Proof.
  assert (Ha : DoAllocate [int_t; int_t] two_columns_heap 8 0
               = Some (mkBump 4192 [(4128, 64); (4096, 32)], (4128, 64), [4128; 4160]))
    by (vm_compute; reflexivity).
  assert (Hfits : layout_fits [int_t; int_t] 8).
  { split; [exact int_columns_well_formed|].
    split; [vm_compute; discriminate|vm_compute; reflexivity]. }
  assert (Hblock : block_inside 4128 64) by (unfold block_inside, SIZE_MAX_plus_1; lia).
  assert (Hn : 0 <= 8 < SIZE_MAX_plus_1) by (unfold SIZE_MAX_plus_1; lia).
  assert (Hgt : capacity two_columns < 8) by (simpl; lia).
  split; [exact two_columns_well_formed|]. split; [exact Ha|]. split; [exact Hfits|].
  split; [exact Hblock|].
  destruct (reserve_spec [int_t; int_t] two_columns_heap two_columns 8
              two_columns_well_formed Hn) as (_ & _ & Hrun).
  destruct (Hrun Hgt (mkBump 4192 [(4128, 64); (4096, 32)]) 4128 64 [4128; 4160]
              Ha Hfits Hblock) as (v' & E & _ & Hs & Hc & Hcol & _ & _ & _ & Hreg).
  exists v'. split; [exact E|]. split; [exact Hs|]. split; [exact Hc|].
  split; [exact Hreg|]. split; [exact (Hcol 0%nat)|exact (Hcol 1%nat)].
Defined.

(** [validate()] after that [reserve(8)]. *)
Lemma validate_after_reserve_witness :
  well_formed [int_t; int_t] two_columns /\
  Forall well_formed_type [int_t; int_t] /\
  spec_total [int_t; int_t] 8 < SIZE_MAX_plus_1 /\
  exists v',
    reserve [int_t; int_t] two_columns_heap two_columns 8
      = Done tt (mkBump 4192 [(4128, 64)]) v' /\
    validate v' = true.
Proof.
  assert (Hfit : spec_total [int_t; int_t] 8 < SIZE_MAX_plus_1) by (vm_compute; reflexivity).
  assert (Ha : DoAllocate [int_t; int_t] two_columns_heap 8 0
               = Some (mkBump 4192 [(4128, 64); (4096, 32)], (4128, 64), [4128; 4160]))
    by (vm_compute; reflexivity).
  assert (Hn : capacity two_columns < 8 < SIZE_MAX_plus_1)
    by (unfold SIZE_MAX_plus_1; simpl; lia).
  assert (Hp : 0 <= 4128) by lia.
  assert (Hend : 4128 + 64 < SIZE_MAX_plus_1) by (unfold SIZE_MAX_plus_1; lia).
  split; [exact two_columns_well_formed|]. split; [exact int_columns_well_formed|].
  split; [exact Hfit|].
  destruct (validate_after_reserve [int_t; int_t] two_columns_heap two_columns 8
              (mkBump 4192 [(4128, 64); (4096, 32)]) 4128 64 [4128; 4160]
              two_columns_well_formed int_columns_well_formed Hn Hfit Ha Hp Hend)
    as (_ & v' & E & Hv).
  exists v'. split; [exact E|exact Hv].
Defined.

(** The removals on [two_columns]. *)
Lemma removals_keep_invariant_witness :
  well_formed [int_t; int_t] two_columns /\
  well_formed [int_t; int_t] (clear two_columns) /\
  well_formed [int_t; int_t] (fst (erase two_columns (two_columns_at 0) (two_columns_at 2))) /\
  at_ (fst (erase two_columns (two_columns_at 0) (two_columns_at 2))) 1 = [Raw; Raw] /\
  well_formed [int_t; int_t] (fst (erase_unsorted two_columns (two_columns_at 0))).
Proof.
  assert (Hfl : 0 <= TupleVecIter.mIndex (two_columns_at 0)
                  < TupleVecIter.mIndex (two_columns_at 2)) by (simpl; lia).
  assert (Hls : TupleVecIter.mIndex (two_columns_at 2) <= size two_columns) by (simpl; lia).
  assert (Hpos : 0 <= TupleVecIter.mIndex (two_columns_at 0) < size two_columns)
    by (simpl; lia).
  assert (Hk : size (fst (erase two_columns (two_columns_at 0) (two_columns_at 2))) <= 1
                 < size two_columns)
    by (split; [vm_compute; discriminate|vm_compute; reflexivity]).
  split; [exact two_columns_well_formed|].
  destruct (removals_keep_invariant [int_t; int_t] two_columns (two_columns_at 0)
              (two_columns_at 2) (two_columns_at 0) two_columns_well_formed)
    as ((Hclear & _) & Herase & Hunsorted).
  destruct (Herase Hfl Hls) as (He & _ & Hat).
  destruct (Hunsorted Hpos) as (Hu & _).
  split; [exact Hclear|]. split; [exact He|].
  split; [exact (Hat 1 Hk)|exact Hu].
Defined.
